(** * QKD simulations: BB84 and the entanglement-based protocol

  A shallow embedding of [BB84Ideal.py], [EntanglementBasedProtocolIdeal.py]
  and [EntanglementBasedProtocolNoisy.py], and the properties of the
  encode / intercept / decode / sift / score pipeline.

  - [Py]: the fragment of Python the scripts use (exceptions, list
    indexing, [for ... in range], numbers and strings as values).
  - [Qiskit]: circuits as instruction lists, the object store in which the
    scripts mutate them, and the one-shot semantics of an ideal backend.
  - [BB84Ideal], [EntanglementBasedProtocol]: the two scripts.  The ideal
    and the noisy entanglement script differ only in the backend they call,
    which is a parameter here. *)

From Stdlib Require Import ZArith QArith Qround Qpower Qabs List String Ascii Lia Lqa.
From stdpp Require Import base list strings sorting.

(** ** Python *)
Module Py.

Inductive exn : Type :=
| IndexError          (* l[i] with i out of range *)
| ValueError          (* int(s) on a malformed literal *)
| TypeError           (* number + str *)
| ZeroDivisionError
| NoSuchObject.       (* a reference outside the store; Python has no
                         dangling references, so this is never raised from
                         a well-formed store *)

Inductive result (A : Type) : Type :=
| Ok (a : A)
| Raise (e : exn).
Arguments Ok {A} a.
Arguments Raise {A} e.

#[global] Instance result_ret : MRet result := λ A a, Ok a.
#[global] Instance result_bind : MBind result :=
  λ A B f m, match m with Ok a => f a | Raise e => Raise e end.

(** [l[i]] for a non-negative index. *)
Definition index {A} (l : list A) (i : nat) : result A :=
  match l !! i with
  | Some x => Ok x
  | None => Raise IndexError
  end.

(** [for i in range(lo, lo + n): s = body(i, s)], in any monad. *)
Fixpoint for_from {M : Type → Type} `{!MBind M, !MRet M} {S : Type}
    (lo n : nat) (body : nat → S → M S) (s : S) : M S :=
  match n with
  | O => mret s
  | Datatypes.S n' => s' ← body lo s; for_from (Datatypes.S lo) n' body s'
  end.

Definition for_range {M : Type → Type} `{!MBind M, !MRet M} {S : Type}
    (n : nat) (body : nat → S → M S) (s : S) : M S :=
  for_from 0 n body s.

(** *** Floats

    A float is modelled by the rational it rounds: [PyFloat q] is the
    binary64 number nearest to [q], so that one operation on exact operands
    (an int divided by an int, say) is written exactly.  Where a script goes
    on computing with a float, the rounded operand is [round64] of it.

    [round64] rounds to 53 significant bits, to the nearest, ties to the
    even significand.  The exponent is not bounded: the floats of the
    scripts are quotients of counts by list lengths, far from the overflow
    and underflow thresholds, and the ints they convert to float are below
    2^53 and convert exactly. *)

(** The nearest integer, the even one of two nearest. *)
Definition round_half_even (x : Q) : Z :=
  let f := Qfloor x in
  match Qcompare (x - inject_Z f) (1 # 2) with
  | Lt => f
  | Gt => (f + 1)%Z
  | Eq => if Z.even f then f else (f + 1)%Z
  end.

(** The binary exponent [e] of a positive rational, 2^e <= x < 2^(e+1). *)
Definition expo (x : Q) : Z :=
  let e := (Z.log2 (Qnum x) - Z.log2 (Zpos (Qden x)))%Z in
  if Qle_bool (Qpower 2 e) x then e else (e - 1)%Z.

(** A positive rational rounded to a significand of 53 bits. *)
Definition round_pos (x : Q) : Q :=
  (inject_Z (round_half_even (x * Qpower 2 (52 - expo x))) * Qpower 2 (expo x - 52))%Q.

Definition round64 (x : Q) : Q :=
  match Qcompare x 0 with
  | Eq => 0%Q
  | Gt => round_pos x
  | Lt => (- round_pos (- x))%Q
  end.

(** The values the estimators return and the drivers accumulate. *)
Inductive value : Type :=
| PyStr (s : string)
| PyInt (z : Z)
| PyFloat (q : Q).

(** [a == b] *)
Definition py_eq (a b : value) : bool :=
  match a, b with
  | PyStr s, PyStr t => String.eqb s t
  | PyInt x, PyInt y => Z.eqb x y
  | PyInt x, PyFloat q => Qeq_bool (inject_Z x) q
  | PyFloat q, PyInt x => Qeq_bool q (inject_Z x)
  | PyFloat p, PyFloat q => Qeq_bool p q
  | _, _ => false
  end.

(** [a + b] *)
Definition py_add (a b : value) : result value :=
  match a, b with
  | PyInt x, PyInt y => Ok (PyInt (x + y))
  | PyInt x, PyFloat q => Ok (PyFloat (inject_Z x + q))
  | PyFloat q, PyInt x => Ok (PyFloat (q + inject_Z x))
  | PyFloat p, PyFloat q => Ok (PyFloat (p + q))
  | PyStr s, PyStr t => Ok (PyStr (s ++ t))
  | _, _ => Raise TypeError
  end.

Definition digit_of (c : ascii) : option Z :=
  let n := nat_of_ascii c in
  if (48 <=? n)%nat && (n <=? 57)%nat then Some (Z.of_nat (n - 48)) else None.

Fixpoint digits_value (acc : Z) (s : string) : option Z :=
  match s with
  | EmptyString => Some acc
  | String c s' =>
      match digit_of c with
      | Some d => digits_value (10 * acc + d) s'
      | None => None
      end
  end.

(** [int(s)] on a string of decimal digits, which is what a memory string
    of the backend is; the signs, blanks and underscores that [int] also
    accepts do not occur there and are rejected here. *)
Definition py_int (s : string) : result Z :=
  match s with
  | EmptyString => Raise ValueError
  | _ => match digits_value 0 s with
         | Some z => Ok z
         | None => Raise ValueError
         end
  end.

End Py.
Export Py.

(** ** Qiskit: circuits, the object store, the backend *)
Module Qiskit.

Inductive instr : Type :=
| Gate_h (q : nat)
| Gate_x (q : nat)
| Gate_z (q : nat)
| Gate_cx (control target : nat)
| Barrier
| Measure (q c : nat).

(** [QuantumCircuit(n, m)] with its instruction list [data]. *)
Record QuantumCircuit : Type := mkQC {
  num_qubits : nat;
  num_clbits : nat;
  data : list instr
}.

Definition append_instr (qc : QuantumCircuit) (g : instr) : QuantumCircuit :=
  mkQC (num_qubits qc) (num_clbits qc) (data qc ++ [g]).

Definition extend (qc : QuantumCircuit) (gs : list instr) : QuantumCircuit :=
  mkQC (num_qubits qc) (num_clbits qc) (data qc ++ gs).

(** *** State vectors

    Every gate of the scripts is a Clifford gate, so amplitudes stay in
    [Z] once the factors [1/sqrt 2] contributed by the Hadamard gates are
    counted apart: [mkKet k v] stands for
    [(1/sqrt 2)^k * sum_x v[x] |x>], where bit [q] of the index [x] is the
    value of qubit [q]. *)
Record ket : Type := mkKet {
  halves : nat;
  amps : list Z
}.

Definition amp (v : list Z) (x : nat) : Z := nth x v 0%Z.

Definition tabulate (n : nat) (f : nat → Z) : list Z := map f (seq 0 (2 ^ n)).

Definition flip (x q : nat) : nat := Nat.lxor x (2 ^ q).

Definition apply_h (n q : nat) (v : list Z) : list Z :=
  tabulate n (λ x, if Nat.testbit x q
                   then (amp v (flip x q) - amp v x)%Z
                   else (amp v x + amp v (flip x q))%Z).

Definition apply_x (n q : nat) (v : list Z) : list Z :=
  tabulate n (λ x, amp v (flip x q)).

Definition apply_z (n q : nat) (v : list Z) : list Z :=
  tabulate n (λ x, if Nat.testbit x q then (- amp v x)%Z else amp v x).

Definition apply_cx (n c t : nat) (v : list Z) : list Z :=
  tabulate n (λ x, if Nat.testbit x c then amp v (flip x t) else amp v x).

(** The unnormalised projection of qubit [q] onto the value [b]. *)
Definition project (n q : nat) (b : bool) (v : list Z) : list Z :=
  tabulate n (λ x, if Bool.eqb (Nat.testbit x q) b then amp v x else 0%Z).

Definition is_zero (v : list Z) : bool := forallb (Z.eqb 0) v.

(** One run of a circuit, as the set of its branches: a classical register
    with the state that goes with it.  A measurement splits a branch in
    two and drops a half of probability 0. *)
Definition branch : Type := list bool * ket.

Definition measure_branch (n q c : nat) (br : branch) : list branch :=
  let '(creg, k) := br in
  flat_map (λ b : bool,
    let v := project n q b (amps k) in
    if is_zero v then [] else [(<[c := b]> creg, mkKet (halves k) v)])
    [false; true].

Definition step (n : nat) (g : instr) (brs : list branch) : list branch :=
  match g with
  | Gate_h q => map (λ '(creg, k), (creg, mkKet (S (halves k)) (apply_h n q (amps k)))) brs
  | Gate_x q => map (λ '(creg, k), (creg, mkKet (halves k) (apply_x n q (amps k)))) brs
  | Gate_z q => map (λ '(creg, k), (creg, mkKet (halves k) (apply_z n q (amps k)))) brs
  | Gate_cx c t => map (λ '(creg, k), (creg, mkKet (halves k) (apply_cx n c t (amps k)))) brs
  | Barrier => brs
  | Measure q c => flat_map (measure_branch n q c) brs
  end.

(** All qubits start in [|0>], all classical bits at 0. *)
Definition ket0 (n : nat) : ket :=
  mkKet 0 (tabulate n (λ x, if Nat.eqb x 0 then 1%Z else 0%Z)).

Definition run_all (n : nat) (gs : list instr) (brs : list branch) : list branch :=
  fold_left (λ acc g, step n g acc) gs brs.

Definition branches (qc : QuantumCircuit) : list branch :=
  run_all (num_qubits qc) (data qc) [(replicate (num_clbits qc) false, ket0 (num_qubits qc))].

(** The state a measurement-free circuit prepares. *)
Definition state_of (n : nat) (gs : list instr) : ket :=
  match run_all n gs [([], ket0 n)] with
  | [(_, k)] => k
  | _ => ket0 n
  end.

(** A memory string shows classical bit 0 rightmost. *)
Fixpoint readback_rev (creg : list bool) (acc : string) : string :=
  match creg with
  | [] => acc
  | b :: creg' => readback_rev creg' (String (if b then "1"%char else "0"%char) acc)
  end.

Definition readback (creg : list bool) : string := readback_rev creg EmptyString.

(** The memory strings one shot of [qc] can give on a noiseless backend:
    those of non-zero probability. *)
Definition outcomes (qc : QuantumCircuit) : list string :=
  map (λ br : branch, readback (fst br)) (branches qc).

(** *** The store

    Circuits are objects: a message is a list of references into [heap],
    and [qc.h(0)], [qc.measure(0,0)], ... change the object they are
    called on.  [submitted] lists the circuits handed to the backend so
    far, each as it was when it was run; [draws] counts the calls of
    [np.random.randint]. *)
Record world : Type := mkWorld {
  heap : list QuantumCircuit;
  submitted : list QuantumCircuit;
  draws : nat
}.

Definition M (A : Type) : Type := world → result (A * world).

#[global] Instance M_ret : MRet M := λ A a w, Ok (a, w).
#[global] Instance M_bind : MBind M :=
  λ A B f m w, match m w with Ok (a, w') => f a w' | Raise e => Raise e end.

Definition lift {A} (r : result A) : M A :=
  λ w, match r with Ok a => Ok (a, w) | Raise e => Raise e end.

(** [QuantumCircuit(nq, nc)]: a fresh object. *)
Definition new_circuit (nq nc : nat) : M nat :=
  λ w, Ok (length (heap w),
           mkWorld (heap w ++ [mkQC nq nc []]) (submitted w) (draws w)).

(** [qc.h(q)], [qc.x(q)], [qc.cx(c, t)], [qc.barrier()], [qc.measure(q, c)]:
    append one instruction to the object at [a]. *)
Definition emit (a : nat) (g : instr) : M unit :=
  λ w, match heap w !! a with
       | Some qc => Ok (tt, mkWorld (<[a := append_instr qc g]> (heap w))
                                     (submitted w) (draws w))
       | None => Raise NoSuchObject
       end.

Section Collaborators.
(** [backend k qc]: the memory string of the single shot of the [k]-th run,
    on circuit [qc] (for the noisy script: transpile for the fake device,
    then run). *)
Variable backend : nat → QuantumCircuit → string.
(** [rng k high size]: the array that the [k]-th call
    [np.random.randint(high, size=size)] returns. *)
Variable rng : nat → Z → nat → list Z.

(** [backend_sim.run(qc, shots=1, memory=True).result().get_memory()[0]] *)
Definition run_shot (a : nat) : M string :=
  λ w, match heap w !! a with
       | Some qc => Ok (backend (length (submitted w)) qc,
                        mkWorld (heap w) (submitted w ++ [qc]) (draws w))
       | None => Raise NoSuchObject
       end.

Definition randint (high : Z) (size : nat) : M (list Z) :=
  λ w, Ok (rng (draws w) high size,
           mkWorld (heap w) (submitted w) (S (draws w))).
End Collaborators.

(** A noiseless backend returns, at every shot, one of the outcomes of
    non-zero probability (of a circuit that has one in this semantics). *)
Definition ideal (backend : nat → QuantumCircuit → string) : Prop :=
  ∀ k qc, outcomes qc ≠ [] → backend k qc ∈ outcomes qc.

(** The backend that returns the first such outcome. *)
Definition first_outcome (k : nat) (qc : QuantumCircuit) : string :=
  match outcomes qc with
  | s :: _ => s
  | [] => EmptyString
  end.

End Qiskit.
Export Qiskit.


(** ** BB84Ideal.py *)
Module BB84Ideal.

Section Script.
Variable backend : nat → QuantumCircuit → string.
Variable rng : nat → Z → nat → list Z.
(** The module constants, [numTests = 10000] and [numBits = 50] in the
    script. *)
Variable numTests : nat.
Variable numBits : nat.

(** The instructions [encode_message] puts in the circuit of one bit. *)
Definition encoding (bit basis : Z) : list instr :=
  (if decide (basis = 0)%Z
   then (if decide (bit = 0)%Z then [] else [Gate_x 0])
   else (if decide (bit = 0)%Z then [Gate_h 0] else [Gate_x 0; Gate_h 0]))
  ++ [Barrier].

Definition encode_message (bits bases : list Z) : M (list nat) :=
  for_range numBits (λ i message,
    qc ← new_circuit 1 1;
    basis ← lift (index bases i);
    (if decide (basis = 0)%Z then
       bit ← lift (index bits i);
       if decide (bit = 0)%Z then mret tt else emit qc (Gate_x 0)
     else
       bit ← lift (index bits i);
       if decide (bit = 0)%Z then emit qc (Gate_h 0)
       else (emit qc (Gate_x 0);; emit qc (Gate_h 0)));;
    emit qc Barrier;;
    mret (message ++ [qc])) [].

(** The instructions [measure_message] appends for one guessed basis. *)
Definition measuring (basis : Z) : list instr :=
  (if decide (basis = 0)%Z then [Measure 0 0] else [])
  ++ (if decide (basis = 1)%Z then [Gate_h 0; Measure 0 0] else []).

Definition measure_message (message : list nat) (bases : list Z) : M (list Z) :=
  for_range numBits (λ q measurements,
    qc ← lift (index message q);
    basis ← lift (index bases q);
    (if decide (basis = 0)%Z then emit qc (Measure 0 0) else mret tt);;
    basis ← lift (index bases q);
    (if decide (basis = 1)%Z
     then (emit qc (Gate_h 0);; emit qc (Measure 0 0))
     else mret tt);;
    measuredBits ← run_shot backend qc;
    measured_bit ← lift (py_int measuredBits);
    mret (measurements ++ [measured_bit])) [].

Definition discardBits (results aliceBits aliceBases bobBases : list Z)
    : result (list Z * list Z) :=
  for_range numBits (λ i '(newResults, newAliceBits),
    a ← index aliceBases i;
    b ← index bobBases i;
    if decide (a = b) then
      r ← index results i;
      x ← index aliceBits i;
      mret (newResults ++ [r], newAliceBits ++ [x])
    else mret (newResults, newAliceBits)) ([], []).

Definition measureQBER (newResults newAliceBits : list Z) : result value :=
  if Nat.eqb (length newResults) 0 then Ok (PyStr "null")
  else
    QBER ← for_range (length newResults) (λ i (QBER : Z),
              r ← index newResults i;
              a ← index newAliceBits i;
              if decide (r ≠ a) then mret (QBER + 1)%Z else mret QBER) 0%Z;
    Ok (PyFloat (inject_Z QBER / inject_Z (Z.of_nat (length newResults)))).

(** [runProtocol] up to the sifted key (the script's lines 106 to 122). *)
Definition sifted_key : M (list Z * list Z) :=
  alice_bits ← randint rng 2 numBits;
  alice_bases ← randint rng 2 numBits;
  message ← encode_message alice_bits alice_bases;
  eve_bases ← randint rng 2 numBits;
  intercepted_message ← measure_message message eve_bases;
  new_message ← encode_message intercepted_message eve_bases;
  bob_bases ← randint rng 2 numBits;
  bob_results ← measure_message new_message bob_bases;
  lift (discardBits bob_results alice_bits alice_bases bob_bases).

Definition runProtocol : M value :=
  '(newResults, newAliceBits) ← sifted_key;
  lift (measureQBER newResults newAliceBits).

(** The script's globals: the running sum, the list of QBERs, and the lines
    written to the results file (one value a line). *)
Record driver : Type := mkDriver {
  avgQBER : value;
  allQBER : list value;
  f : list value
}.

Inductive status : Type :=
| Finished
| Raised (e : exn)
| OutOfFuel.

(** [while (QBER == "null"): QBER = runProtocol()]; the script puts no bound
    on the iterations, [fuel] does. *)
Fixpoint retry (fuel : nat) (QBER : value) (w : world) : option (result (value * world)) :=
  if py_eq QBER (PyStr "null") then
    match fuel with
    | O => None
    | S fuel' =>
        match runProtocol w with
        | Ok (QBER', w') => retry fuel' QBER' w'
        | Raise e => Some (Raise e)
        end
    end
  else Some (Ok (QBER, w)).

(** One test's QBER, lines 132 to 135: [QBER = runProtocol()], then the
    [while] loop. *)
Definition trial (fuel : nat) (w : world) : option (result (value * world)) :=
  match runProtocol w with
  | Ok (QBER, w') => retry fuel QBER w'
  | Raise e => Some (Raise e)
  end.

(** [for t in range(numTests): ...], lines 131 to 141, with [n] tests to go.
    The globals are returned as they stand when the loop ends, raises or
    runs out of fuel. *)
Fixpoint tests (fuel n : nat) (d : driver) (w : world) : status * driver :=
  match n with
  | O => (Finished, d)
  | S n' =>
      match trial fuel w with
      | None => (OutOfFuel, d)
      | Some (Raise e) => (Raised e, d)
      | Some (Ok (QBER, w')) =>
          match py_add (avgQBER d) QBER with
          | Raise e => (Raised e, d)
          | Ok total =>
              tests fuel n' (mkDriver total (allQBER d ++ [QBER]) (f d ++ [QBER])) w'
          end
      end
  end.

Definition main (fuel : nat) (w : world) : status * driver :=
  tests fuel numTests (mkDriver (PyInt 0) [] []) w.

(** The sum the driver has when it has added the values [l] to 0, one
    [avgQBER += QBER] after the other. *)
Definition accumulate (l : list value) : result value :=
  fold_left (λ acc QBER, total ← acc; py_add total QBER) l (Ok (PyInt 0)).

(** A value that one run of the protocol returned as the QBER of a sifted
    key with at least one bit. *)
Definition keyed_trial_value (v : value) : Prop :=
  ∃ w w' newResults newAliceBits,
    sifted_key w = Ok ((newResults, newAliceBits), w')
    ∧ newResults ≠ []
    ∧ measureQBER newResults newAliceBits = Ok v.

(** What the driver may log: a number, not the sentinel, that is the QBER
    of a non-empty sifted key. *)
Definition loggable (v : value) : Prop :=
  v ≠ PyStr "null" ∧ (∃ q, v = PyFloat q) ∧ keyed_trial_value v.

(** The file holds the list of QBERs, all of them loggable, and the running
    sum is their sum. *)
Definition driver_invariant (d : driver) : Prop :=
  f d = allQBER d
  ∧ Forall loggable (f d)
  ∧ accumulate (f d) = Ok (avgQBER d).

End Script.
End BB84Ideal.

(** ** EntanglementBasedProtocolIdeal.py, EntanglementBasedProtocolNoisy.py

    The two scripts are the same text up to comments and the backend: the
    ideal one runs the circuit on the [qasm_simulator], the noisy one
    transpiles it for the fake Vigo device and runs it on that device's
    simulator.  Both are [backend] here.  [showDetails] only prints and is
    left out. *)
Module EntanglementBasedProtocol.

(** The two qubit pairs a pairing label stands for. *)
Definition pairing (label : Z) : (nat * nat) * (nat * nat) :=
  if decide (label = 0)%Z then ((0, 1), (2, 3))
  else if decide (label = 1)%Z then ((0, 2), (1, 3))
  else ((0, 3), (1, 2)).

Definition createBellState (qc qubit0 qubit1 : nat) : M nat :=
  emit qc (Gate_h qubit0);;
  emit qc (Gate_cx qubit0 qubit1);;
  mret qc.

(** [bits[2*i] == v0 and bits[2*i+1] == v1]: the second element is read only
    when the first comparison holds. *)
Definition block_is (bits : list Z) (i : nat) (v0 v1 : Z) : result bool :=
  b0 ← index bits (2 * i);
  if decide (b0 = v0) then
    b1 ← index bits (2 * i + 1);
    mret (bool_decide (b1 = v1))
  else mret false.

(** The instructions [encodeMessage] puts in the circuit of one block: the
    two phi+ states, then the gates chosen by the block's bits. *)
Definition bell_preparation (p1 p2 : nat * nat) : list instr :=
  [Gate_h p1.1; Gate_cx p1.1 p1.2; Gate_h p2.1; Gate_cx p2.1 p2.2].

Definition bell_conversion (p1 p2 : nat * nat) (b0 b1 : Z) : list instr :=
  if decide (b0 = 0 ∧ b1 = 0)%Z then [Gate_x p2.1]
  else if decide (b0 = 0 ∧ b1 = 1)%Z then [Gate_x p1.1]
  else if decide (b0 = 1 ∧ b1 = 0)%Z then [Gate_z p1.2; Gate_z p2.1; Gate_x p2.2]
  else if decide (b0 = 1 ∧ b1 = 1)%Z then [Gate_z p1.1; Gate_x p1.2; Gate_z p2.2]
  else [].

Definition encoding (b0 b1 label : Z) : list instr :=
  let '(p1, p2) := pairing label in
  bell_preparation p1 p2 ++ [Barrier] ++ bell_conversion p1 p2 b0 b1 ++ [Barrier].

(** The instructions [decodeMessage] appends to the circuit of one block. *)
Definition measuring (label : Z) : list instr :=
  let '(p1, p2) := pairing label in
  [Gate_cx p1.1 p1.2; Gate_h p1.1; Gate_cx p2.1 p2.2; Gate_h p2.1;
   Measure p1.1 3; Measure p1.2 2; Measure p2.1 1; Measure p2.2 0].

(** The lookup at the end of [decodeMessage]'s loop body: the two bits
    appended for a memory string. *)
Definition decode_lookup (measured : string) : list Z :=
  if String.eqb measured "0001" then [0; 0]%Z
  else if String.eqb measured "0100" then [0; 1]%Z
  else if String.eqb measured "1011" then [1; 0]%Z
  else [1; 1]%Z.

(** The four Bell states of a pair, as amplitudes of [|x0 x1>] times
    [sqrt 2]: phi+- = |00> +- |11>, psi+- = |01> +- |10>. *)
Inductive bell : Type := PhiPlus | PhiMinus | PsiPlus | PsiMinus.

Definition bell_amp (s : bell) (x0 x1 : bool) : Z :=
  match s with
  | PhiPlus => if Bool.eqb x0 x1 then 1 else 0
  | PhiMinus => if Bool.eqb x0 x1 then (if x0 then -1 else 1) else 0
  | PsiPlus => if Bool.eqb x0 x1 then 0 else 1
  | PsiMinus => if Bool.eqb x0 x1 then 0 else (if x0 then -1 else 1)
  end%Z.

(** The 4-qubit state with pair [p1] in Bell state [s1] and pair [p2] in
    Bell state [s2]. *)
Definition bell_pairs (p1 p2 : nat * nat) (s1 s2 : bell) : ket :=
  mkKet 2 (tabulate 4 (λ x,
    bell_amp s1 (Nat.testbit x p1.1) (Nat.testbit x p1.2)
    * bell_amp s2 (Nat.testbit x p2.1) (Nat.testbit x p2.2))%Z).

(** The Bell states of the first and of the second pair that the gates of
    [bell_conversion] lead to from phi+, phi+: X on one qubit of phi+ gives
    psi+, Z gives phi-, Z on one and X on the other give psi-. *)
Definition prepared (b0 b1 : Z) : bell * bell :=
  if decide (b0 = 0)%Z
  then (if decide (b1 = 0)%Z then (PhiPlus, PsiPlus) else (PsiPlus, PhiPlus))
  else (if decide (b1 = 0)%Z then (PhiMinus, PsiMinus) else (PsiMinus, PhiMinus)).

(** The Bell states as the comments of [encodeMessage] name them:
    00 = phi+, phi-; 01 = phi-, phi+; 10 = psi+, psi-; 11 = psi-, psi+. *)
Definition commented (b0 b1 : Z) : bell * bell :=
  if decide (b0 = 0)%Z
  then (if decide (b1 = 0)%Z then (PhiPlus, PhiMinus) else (PhiMinus, PhiPlus))
  else (if decide (b1 = 0)%Z then (PsiPlus, PsiMinus) else (PsiMinus, PsiPlus)).

Section Script.
Variable backend : nat → QuantumCircuit → string.
Variable rng : nat → Z → nat → list Z.
(** The module constants: [numPairings = 25] and [evePresent = True] in the
    scripts. *)
Variable numPairings : nat.
Variable evePresent : bool.

Definition encodeMessage (bits pairs : list Z) : M (list nat) :=
  for_range numPairings (λ i message,
    qc ← new_circuit 4 4;
    label ← lift (index pairs i);
    let '(pair1, pair2) := pairing label in
    qc ← createBellState qc pair1.1 pair1.2;
    qc ← createBellState qc pair2.1 pair2.2;
    emit qc Barrier;;
    c00 ← lift (block_is bits i 0 0);
    (if c00 : bool then emit qc (Gate_x pair2.1)
     else
       c01 ← lift (block_is bits i 0 1);
       if c01 : bool then emit qc (Gate_x pair1.1)
       else
         c10 ← lift (block_is bits i 1 0);
         if c10 : bool then
           emit qc (Gate_z pair1.2);;
           emit qc (Gate_z pair2.1);;
           emit qc (Gate_x pair2.2)
         else
           c11 ← lift (block_is bits i 1 1);
           if c11 : bool then
             emit qc (Gate_z pair1.1);;
             emit qc (Gate_x pair1.2);;
             emit qc (Gate_z pair2.2)
           else mret tt);;
    emit qc Barrier;;
    mret (message ++ [qc])) [].

Definition decodeMessage (message : list nat) (pairs : list Z) : M (list Z) :=
  for_range numPairings (λ i results,
    qc ← lift (index message i);
    label ← lift (index pairs i);
    let '(pair1, pair2) := pairing label in
    emit qc (Gate_cx pair1.1 pair1.2);;
    emit qc (Gate_h pair1.1);;
    emit qc (Gate_cx pair2.1 pair2.2);;
    emit qc (Gate_h pair2.1);;
    emit qc (Measure pair1.1 3);;
    emit qc (Measure pair1.2 2);;
    emit qc (Measure pair2.1 1);;
    emit qc (Measure pair2.2 0);;
    measuredBits ← run_shot backend qc;
    mret (results ++ decode_lookup measuredBits)) [].

(** [BER /= numPairings] divides two ints and rounds the quotient to a
    float; [BER = 1-BER] subtracts that float from 1. *)
Definition measureBER (aliceBits results : list Z) : result value :=
  BER ← for_range numPairings (λ i (BER : Z),
           a0 ← index aliceBits (2 * i);
           r0 ← index results (2 * i);
           if decide (a0 = r0) then
             a1 ← index aliceBits (2 * i + 1);
             r1 ← index results (2 * i + 1);
             if decide (a1 = r1) then mret (BER + 1)%Z else mret BER
           else mret BER) 0%Z;
  if Nat.eqb numPairings 0 then Raise ZeroDivisionError
  else Ok (PyFloat (1 - round64 (inject_Z BER / inject_Z (Z.of_nat numPairings)))).

Definition discardBits (results aliceBits alicePairs bobPairs : list Z)
    : result (list Z * list Z) :=
  for_range numPairings (λ i '(newResults, newAliceBits),
    a ← index alicePairs i;
    b ← index bobPairs i;
    if decide (a = b) then
      r0 ← index results (2 * i);
      r1 ← index results (2 * i + 1);
      x0 ← index aliceBits (2 * i);
      x1 ← index aliceBits (2 * i + 1);
      mret (newResults ++ [r0] ++ [r1], newAliceBits ++ [x0] ++ [x1])
    else mret (newResults, newAliceBits)) ([], []).

(** [int(len(newResults) / 2)] rounds down; [len(newResults) / 2] is the
    exact half.  [QBER /= len(newResults) / 2] rounds the quotient to a
    float; [QBER = 1-QBER] subtracts that float from 1. *)
Definition measureQBER (newResults newAliceBits : list Z) : result value :=
  if Nat.eqb (length newResults) 0 then Ok (PyInt 1)
  else
    QBER ← for_range (length newResults / 2) (λ i (QBER : Z),
              r0 ← index newResults (2 * i);
              a0 ← index newAliceBits (2 * i);
              if decide (r0 = a0) then
                r1 ← index newResults (2 * i + 1);
                a1 ← index newAliceBits (2 * i + 1);
                if decide (r1 = a1) then mret (QBER + 1)%Z else mret QBER
              else mret QBER) 0%Z;
    Ok (PyFloat (1 - round64 (inject_Z QBER / (inject_Z (Z.of_nat (length newResults)) / 2)))).

Definition eveMeasureAndDecode (message : list nat) : M (list nat) :=
  evePairs ← randint rng 3 numPairings;
  eveResults ← decodeMessage message evePairs;
  eveMessage ← encodeMessage eveResults evePairs;
  mret eveMessage.

Definition runProtocol : M value :=
  aliceBits ← randint rng 2 (2 * numPairings);
  alicePairs ← randint rng 3 numPairings;
  message ← encodeMessage aliceBits alicePairs;
  message ← (if evePresent then eveMeasureAndDecode message else mret message);
  bobPairs ← randint rng 3 numPairings;
  bobResults ← decodeMessage message bobPairs;
  BER ← lift (measureBER aliceBits bobResults);
  '(newResults, newAliceBits) ← lift (discardBits bobResults aliceBits alicePairs bobPairs);
  QBER ← lift (measureQBER newResults newAliceBits);
  mret QBER.

End Script.
End EntanglementBasedProtocol.

(** ** The loops, one iteration at a time

    Both encoders build a fresh circuit per position, and both decoders
    extend the circuit that the message holds at a position, run it and
    convert the memory string.  [alloc_body] and [shot_body] are these two
    iterations with the instructions given as a list. *)
Module Loops.

Section Alloc.
Variables nq nc : nat.
Variable gen : nat → result (list instr).

Definition alloc_body (i : nat) (message : list nat) : M (list nat) :=
  λ w, match gen i with
       | Ok gs => Ok (message ++ [length (heap w)],
                      mkWorld (heap w ++ [mkQC nq nc gs]) (submitted w) (draws w))
       | Raise e => Raise e
       end.
End Alloc.

Section Shots.
Variable backend : nat → QuantumCircuit → string.
Variable message : list nat.
Variable choices : list Z.
Variable ops : Z → list instr.
Variable conv : string → result (list Z).

Definition shot_body (q : nat) (acc : list Z) : M (list Z) :=
  λ w, match message !! q with
       | None => Raise IndexError
       | Some a =>
           match choices !! q with
           | None => Raise IndexError
           | Some c =>
               match heap w !! a with
               | None => Raise NoSuchObject
               | Some qc =>
                   let qc' := extend qc (ops c) in
                   match conv (backend (length (submitted w)) qc') with
                   | Ok zs => Ok (acc ++ zs,
                                  mkWorld (<[a := qc']> (heap w))
                                          (submitted w ++ [qc']) (draws w))
                   | Raise e => Raise e
                   end
               end
           end
       end.

(** The circuit run at position [q] < [n] when the loop starts from heap [h]
    with distinct references, and the memory string it gives when
    [k] circuits were run before the loop. *)
Definition run_circuit (h : list QuantumCircuit) (q : nat) : QuantumCircuit :=
  match message !! q, choices !! q with
  | Some a, Some c =>
      match h !! a with
      | Some qc => extend qc (ops c)
      | None => mkQC 0 0 []
      end
  | _, _ => mkQC 0 0 []
  end.

Definition run_circuits (h : list QuantumCircuit) (n : nat) : list QuantumCircuit :=
  map (run_circuit h) (seq 0 n).

Definition memory (h : list QuantumCircuit) (k q : nat) : string :=
  backend (k + q) (run_circuit h q).

End Shots.

(** What BB84's [encode_message] reads at position [i], and the instructions
    of the circuit it builds there. *)
Definition BB84_gen (bits bases : list Z) (i : nat) : result (list instr) :=
  basis ← index bases i;
  bit ← index bits i;
  Ok (BB84Ideal.encoding bit basis).

(** The [if ... elif ...] chain of the entanglement [encodeMessage] on block
    [i], with the gates it selects. *)
Definition Ent_conversion (bits : list Z) (i : nat) (p1 p2 : nat * nat) : result (list instr) :=
  c00 ← EntanglementBasedProtocol.block_is bits i 0 0;
  if c00 : bool then Ok [Gate_x p2.1]
  else
    c01 ← EntanglementBasedProtocol.block_is bits i 0 1;
    if c01 : bool then Ok [Gate_x p1.1]
    else
      c10 ← EntanglementBasedProtocol.block_is bits i 1 0;
      if c10 : bool then Ok [Gate_z p1.2; Gate_z p2.1; Gate_x p2.2]
      else
        c11 ← EntanglementBasedProtocol.block_is bits i 1 1;
        if c11 : bool then Ok [Gate_z p1.1; Gate_x p1.2; Gate_z p2.2]
        else Ok [].

Definition Ent_gen (bits pairs : list Z) (i : nat) : result (list instr) :=
  label ← index pairs i;
  let '(p1, p2) := EntanglementBasedProtocol.pairing label in
  gs ← Ent_conversion bits i p1 p2;
  Ok (EntanglementBasedProtocol.bell_preparation p1 p2 ++ [Barrier] ++ gs ++ [Barrier]).

(** The conversion of a memory string in BB84's [measure_message] and in the
    entanglement [decodeMessage]. *)
Definition BB84_conv (s : string) : result (list Z) :=
  measured_bit ← py_int s; Ok [measured_bit].

Definition Ent_conv (s : string) : result (list Z) :=
  Ok (EntanglementBasedProtocol.decode_lookup s).

(** The circuits the encoders build for [n] positions. *)
Definition BB84_circuits (n : nat) (bits bases : list Z) : list QuantumCircuit :=
  map (λ i, mkQC 1 1 (BB84Ideal.encoding (nth i bits 0%Z) (nth i bases 0%Z))) (seq 0 n).

Definition Ent_circuits (n : nat) (bits pairs : list Z) : list QuantumCircuit :=
  map (λ i, mkQC 4 4 (EntanglementBasedProtocol.encoding
                        (nth (2 * i) bits 0%Z) (nth (2 * i + 1) bits 0%Z) (nth i pairs 0%Z)))
      (seq 0 n).

(** The circuits the decoders run on a message of fresh circuits [cs]: each
    with the instructions of the receiver's choice appended. *)
Definition measured (ops : Z → list instr) (cs : list QuantumCircuit) (choices : list Z)
    : list QuantumCircuit :=
  imap (λ q qc, extend qc (ops (nth q choices 0%Z))) cs.

End Loops.

(** ** What the spec counts *)
Module Counts.

(** The index positions at which the kept receiver bit differs from the kept
    reference bit. *)
Definition mismatches (results reference : list Z) : list nat :=
  filter (λ i, results !! i ≠ reference !! i) (seq 0 (length results)).

(** Mismatched positions over kept positions. *)
Definition bit_error_rate (results reference : list Z) : Q :=
  inject_Z (Z.of_nat (length (mismatches results reference)))
  / inject_Z (Z.of_nat (length results)).

(** The 2-bit blocks in which the receiver's block is not the reference
    block. *)
Definition wrong_blocks (results reference : list Z) : list nat :=
  filter (λ k, ¬ (results !! (2 * k) = reference !! (2 * k)
                  ∧ results !! (2 * k + 1) = reference !! (2 * k + 1)))
         (seq 0 (length results / 2)).

Definition block_error_rate (results reference : list Z) : Q :=
  inject_Z (Z.of_nat (length (wrong_blocks results reference)))
  / inject_Z (Z.of_nat (length results / 2)).

(** The 2-bit blocks in which the receiver's block is the reference block. *)
Definition right_blocks (results reference : list Z) : list nat :=
  filter (λ k, results !! (2 * k) = reference !! (2 * k)
               ∧ results !! (2 * k + 1) = reference !! (2 * k + 1))
         (seq 0 (length results / 2)).

(** One minus the float nearest to [right] over [blocks]: the rate as the
    entanglement scripts compute it from the number of agreeing blocks. *)
Definition float_error_rate (right blocks : nat) : Q :=
  (1 - round64 (inject_Z (Z.of_nat right) / inject_Z (Z.of_nat blocks)))%Q.

(** The positions (BB84) or blocks (entanglement) at which the two parties
    made the same choice. *)
Definition kept (n : nat) (alice bob : list Z) : list nat :=
  filter (λ i, alice !! i = bob !! i) (seq 0 n).

Definition at_ (l : list Z) (i : nat) : Z := nth i l 0%Z.

Definition block_at (l : list Z) (i : nat) : list Z := [at_ l (2 * i); at_ l (2 * i + 1)].

Definition is_bit (b : Z) : Prop := b = 0%Z ∨ b = 1%Z.

(** All strings of [n] characters 0 and 1. *)
Fixpoint bitstrings (n : nat) : list string :=
  match n with
  | O => [EmptyString]
  | S n' => flat_map (λ s, [String "0"%char s; String "1"%char s]) (bitstrings n')
  end.

End Counts.
Export Counts.

(** ** The rest of the scripts

    The end of the BB84 script, the entanglement driver, and the vocabulary
    of the properties below. *)
Module Scripts.

(** [a / n] for a number [a] and an int [n] ([avgQBER /= numTests]). *)
Definition py_truediv (a : value) (n : Z) : result value :=
  match a with
  | PyStr _ => Raise TypeError
  | PyInt z =>
      if Z.eqb n 0 then Raise ZeroDivisionError
      else Ok (PyFloat (inject_Z z / inject_Z n))
  | PyFloat q =>
      if Z.eqb n 0 then Raise ZeroDivisionError
      else Ok (PyFloat (q / inject_Z n))
  end.

(** The number a value stands for. *)
Definition number (v : value) : option Q :=
  match v with
  | PyStr _ => None
  | PyInt z => Some (inject_Z z)
  | PyFloat q => Some q
  end.

(** A number between 0 and 1. *)
Definition unit_value (v : value) : Prop :=
  ∃ q, number v = Some q ∧ (0 <= q)%Q ∧ (q <= 1)%Q.

(** The sum of the numbers of a list of values. *)
Definition sum_values (l : list value) : Q :=
  fold_left (λ acc v, acc + default 0 (number v))%Q l 0%Q.

(** BB84Ideal.py, lines 129 to 145: the loop of [BB84Ideal.main], then
    [avgQBER /= numTests]. *)
Definition BB84_script (backend : nat → QuantumCircuit → string)
    (rng : nat → Z → nat → list Z) (numTests numBits fuel : nat) (w : world)
    : BB84Ideal.status * BB84Ideal.driver :=
  match BB84Ideal.main backend rng numTests numBits fuel w with
  | (BB84Ideal.Finished, d) =>
      match py_truediv (BB84Ideal.avgQBER d) (Z.of_nat numTests) with
      | Ok avg => (BB84Ideal.Finished,
                   BB84Ideal.mkDriver avg (BB84Ideal.allQBER d) (BB84Ideal.f d))
      | Raise e => (BB84Ideal.Raised e, d)
      end
  | other => other
  end.

Section EntanglementMain.
Variable backend : nat → QuantumCircuit → string.
Variable rng : nat → Z → nat → list Z.
Variable numTests : nat.
Variable numPairings : nat.
Variable evePresent : bool.

(** The body of the entanglement scripts' loop, lines 260 to 265: the
    globals are those of the BB84 script, and no trial is run again. *)
Definition Ent_test (i : nat) (d : BB84Ideal.driver) : M BB84Ideal.driver :=
  QBER ← EntanglementBasedProtocol.runProtocol backend rng numPairings evePresent;
  total ← lift (py_add (BB84Ideal.avgQBER d) QBER);
  mret (BB84Ideal.mkDriver total (BB84Ideal.allQBER d ++ [QBER]) (BB84Ideal.f d ++ [QBER])).

(** Lines 251 to 269. *)
Definition Ent_main : M BB84Ideal.driver :=
  d ← for_range numTests Ent_test (BB84Ideal.mkDriver (PyInt 0) [] []);
  avg ← lift (py_truediv (BB84Ideal.avgQBER d) (Z.of_nat numTests));
  mret (BB84Ideal.mkDriver avg (BB84Ideal.allQBER d) (BB84Ideal.f d)).
End EntanglementMain.

(** The four states of BB84: |0>, |1> in the Z basis, |+>, |-> in the X
    basis. *)
Definition BB84_state (bit basis : Z) : ket :=
  if decide (basis = 0)%Z
  then (if decide (bit = 0)%Z then mkKet 0 [1; 0]%Z else mkKet 0 [0; 1]%Z)
  else (if decide (bit = 0)%Z then mkKet 1 [1; 1]%Z else mkKet 1 [1; -1]%Z).

(** The memory strings of the instructions [gs] run from the state [k] with
    [nc] classical bits at 0. *)
Definition outcomes_from (n nc : nat) (k : ket) (gs : list instr) : list string :=
  map (λ br : branch, readback br.1) (run_all n gs [(replicate nc false, k)]).

(** The two classical bits that name a Bell state after CNOT and Hadamard:
    the phase bit, then the parity bit. *)
Definition bell_code (s : EntanglementBasedProtocol.bell) : string :=
  match s with
  | EntanglementBasedProtocol.PhiPlus => "00"
  | EntanglementBasedProtocol.PhiMinus => "10"
  | EntanglementBasedProtocol.PsiPlus => "01"
  | EntanglementBasedProtocol.PsiMinus => "11"
  end.

(** The memory strings of the four encoded blocks, decoded with the
    sender's pairing. *)
Definition codewords : list string := ["0001"; "0100"; "1011"; "1110"].

(** The positions among [idx] at which two sequences differ. *)
Definition differing (results reference : list Z) (idx : list nat) : list nat :=
  filter (λ i, results !! i ≠ reference !! i) idx.

(** The blocks among [idx] in which two sequences agree. *)
Definition agreeing_blocks (results reference : list Z) (idx : list nat) : list nat :=
  filter (λ k, results !! (2 * k) = reference !! (2 * k)
               ∧ results !! (2 * k + 1) = reference !! (2 * k + 1)) idx.

(** The blocks among [idx] in which two sequences differ. *)
Definition differing_blocks (results reference : list Z) (idx : list nat) : list nat :=
  filter (λ k, ¬ (results !! (2 * k) = reference !! (2 * k)
                  ∧ results !! (2 * k + 1) = reference !! (2 * k + 1))) idx.

End Scripts.
Export Scripts.

(** * Properties *)

(** ** Rounding to binary64 *)

Section Rounding.
Local Open Scope Q_scope.

Lemma frac_range (x : Q) : 0 <= x - inject_Z (Qfloor x) /\ x - inject_Z (Qfloor x) < 1.
Proof.
  pose proof (Qfloor_le x) as H1. pose proof (Qlt_floor x) as H2.
  rewrite inject_Z_plus in H2. change (inject_Z 1) with 1 in H2. split; lra.
Qed.

Lemma rhe_floor (x : Q) : (Qfloor x <= round_half_even x <= Qfloor x + 1)%Z.
Proof.
  unfold round_half_even. destruct (Qcompare _ _); [destruct (Z.even _)| |]; lia.
Qed.

Lemma rhe_near (x : Q) : Qabs (inject_Z (round_half_even x) - x) <= 1 # 2.
Proof.
  destruct (frac_range x) as [H0 H1].
  apply Qabs_Qle_condition. unfold round_half_even.
  destruct (Qcompare (x - inject_Z (Qfloor x)) (1 # 2)) eqn:E.
  - apply Qeq_alt in E. destruct (Z.even _); rewrite ?inject_Z_plus;
      change (inject_Z 1) with 1; split; lra.
  - apply Qlt_alt in E. split; lra.
  - apply Qgt_alt in E. rewrite inject_Z_plus. change (inject_Z 1) with 1. split; lra.
Qed.

Lemma rhe_ge (x : Q) (k : Z) : inject_Z k <= x -> (k <= round_half_even x)%Z.
Proof.
  intros H. apply Qfloor_resp_le in H. rewrite Qfloor_Z in H.
  pose proof (rhe_floor x). lia.
Qed.

Lemma rhe_le (x : Q) (k : Z) : x <= inject_Z k -> (round_half_even x <= k)%Z.
Proof.
  intros H. pose proof (Qfloor_resp_le _ _ H) as Hf. rewrite Qfloor_Z in Hf.
  destruct (Z.eq_dec (Qfloor x) k) as [E|E].
  - unfold round_half_even. rewrite E.
    pose proof (Qfloor_le x) as Hl. rewrite E in Hl.
    destruct (Qcompare (x - inject_Z k) (1 # 2)) eqn:C; [|lia|].
    + apply Qeq_alt in C. lra.
    + apply Qgt_alt in C. lra.
  - pose proof (rhe_floor x). lia.
Qed.

Lemma rhe_comp (x y : Q) : x == y -> round_half_even x = round_half_even y.
Proof.
  intros E. unfold round_half_even. rewrite (Qfloor_comp _ _ E).
  assert (E' : x - inject_Z (Qfloor y) == y - inject_Z (Qfloor y)) by (rewrite E; reflexivity).
  by rewrite (Qcompare_comp _ _ E' _ _ (Qeq_refl (1 # 2))).
Qed.

Lemma rhe_mono (x y : Q) : x <= y -> (round_half_even x <= round_half_even y)%Z.
Proof.
  intros H. pose proof (Qfloor_resp_le _ _ H) as Hf.
  destruct (Z.eq_dec (Qfloor x) (Qfloor y)) as [E|E].
  - unfold round_half_even. rewrite E.
    destruct (Qcompare (x - inject_Z (Qfloor y)) (1 # 2)) eqn:Ex;
      [apply Qeq_alt in Ex|apply Qlt_alt in Ex|apply Qgt_alt in Ex];
      (destruct (Qcompare (y - inject_Z (Qfloor y)) (1 # 2)) eqn:Ey;
       [apply Qeq_alt in Ey|apply Qlt_alt in Ey|apply Qgt_alt in Ey]);
      try (destruct (Z.even _)); try lia; exfalso; lra.
  - pose proof (rhe_floor x). pose proof (rhe_floor y). lia.
Qed.

Lemma pow2_pos (k : Z) : 0 < Qpower 2 k.
Proof. apply Qpower_0_lt. reflexivity. Qed.

Lemma pow2_Z (k : Z) : (0 <= k)%Z -> inject_Z (2 ^ k) == Qpower 2 k.
Proof. intros H. by rewrite Zpower_Qpower. Qed.

Lemma pow2_plus (a b : Z) : Qpower 2 (a + b) == Qpower 2 a * Qpower 2 b.
Proof. apply Qpower_plus. discriminate. Qed.

Lemma pow2_S (a : Z) : Qpower 2 (a + 1) == 2 * Qpower 2 a.
Proof. rewrite pow2_plus. change (Qpower 2 1) with 2. ring. Qed.

Lemma quotient_sandwich (A B E N D x : Q) :
  0 < B -> 0 < E -> A == E * B -> A <= N -> N < 2 * A -> B <= D -> D < 2 * B ->
  x == N / D -> E <= 2 * x /\ x < 2 * E.
Proof.
  intros HB HE Eab A1 A2 B1 B2 Hx.
  assert (HD : 0 < D) by lra.
  assert (Hm : x * D == N).
  { rewrite Hx. field. intros H0. rewrite H0 in HD. by apply Qlt_irrefl in HD. }
  split.
  - apply Qnot_lt_le. intros H. nra.
  - apply Qnot_le_lt. intros H. nra.
Qed.

Lemma expo_spec (x : Q) :
  0 < x -> Qpower 2 (expo x) <= x /\ x < Qpower 2 (expo x + 1).
Proof.
  intros Hx. destruct x as [n d].
  assert (Hn : (0 < n)%Z).
  { unfold Qlt in Hx. simpl in Hx. lia. }
  unfold expo. cbn [Qnum Qden].
  set (a := Z.log2 n). set (b := Z.log2 (Z.pos d)).
  destruct (Z.log2_spec n Hn) as [Ha1 Ha2]. fold a in Ha1, Ha2.
  destruct (Z.log2_spec (Z.pos d) eq_refl) as [Hb1 Hb2]. fold b in Hb1, Hb2.
  assert (Ha0 : (0 <= a)%Z) by apply Z.log2_nonneg.
  assert (Hb0 : (0 <= b)%Z) by apply Z.log2_nonneg.
  assert (A1 : Qpower 2 a <= inject_Z n).
  { rewrite <- pow2_Z by done. by rewrite <- Zle_Qle. }
  assert (A2 : inject_Z n < 2 * Qpower 2 a).
  { rewrite <- pow2_S, <- pow2_Z by lia. rewrite <- Zlt_Qlt.
    replace (a + 1)%Z with (Z.succ a) by lia. done. }
  assert (B1 : Qpower 2 b <= inject_Z (Z.pos d)).
  { rewrite <- pow2_Z by done. by rewrite <- Zle_Qle. }
  assert (B2 : inject_Z (Z.pos d) < 2 * Qpower 2 b).
  { rewrite <- pow2_S, <- pow2_Z by lia. rewrite <- Zlt_Qlt.
    replace (b + 1)%Z with (Z.succ b) by lia. done. }
  assert (Eab : Qpower 2 a == Qpower 2 (a - b) * Qpower 2 b).
  { rewrite <- pow2_plus. replace (a - b + b)%Z with a by lia. reflexivity. }
  destruct (quotient_sandwich _ _ _ _ _ (n # d) (pow2_pos b) (pow2_pos (a - b))
              Eab A1 A2 B1 B2 (Qmake_Qdiv n d)) as [Lo Up].
  destruct (Qle_bool (Qpower 2 (a - b)) (n # d)) eqn:C.
  - apply Qle_bool_iff in C. split; [done|]. by rewrite pow2_S.
  - assert (C' : n # d < Qpower 2 (a - b)).
    { apply Qnot_le_lt. intros H. apply Qle_bool_iff in H. congruence. }
    replace (a - b - 1 + 1)%Z with (a - b)%Z by lia. split; [|done].
    assert (E2 : Qpower 2 (a - b) == 2 * Qpower 2 (a - b - 1)).
    { rewrite <- pow2_S. by replace (a - b - 1 + 1)%Z with (a - b)%Z by lia. }
    rewrite E2 in Lo. lra.
Qed.

Lemma expo_unique (x : Q) (e : Z) :
  Qpower 2 e <= x -> x < Qpower 2 (e + 1) -> expo x = e.
Proof.
  intros H1 H2.
  assert (Hx : 0 < x) by (pose proof (pow2_pos e); lra).
  destruct (expo_spec x Hx) as [S1 S2].
  assert (L1 : (e < expo x + 1)%Z).
  { apply (Qpower_lt_compat_l_inv 2); [lra|reflexivity]. }
  assert (L2 : (expo x < e + 1)%Z).
  { apply (Qpower_lt_compat_l_inv 2); [lra|reflexivity]. }
  lia.
Qed.

Lemma expo_comp (x y : Q) : 0 < x -> x == y -> expo x = expo y.
Proof.
  intros Hx E. symmetry. destruct (expo_spec x Hx) as [S1 S2].
  apply expo_unique; rewrite <- E; done.
Qed.

Lemma scaled_range (x : Q) :
  0 < x ->
  inject_Z (2 ^ 52) <= x * Qpower 2 (52 - expo x)
  /\ x * Qpower 2 (52 - expo x) < inject_Z (2 ^ 53).
Proof.
  intros Hx. destruct (expo_spec x Hx) as [S1 S2].
  pose proof (pow2_pos (52 - expo x)) as Hp.
  assert (E1 : inject_Z (2 ^ 52) == Qpower 2 (expo x) * Qpower 2 (52 - expo x)).
  { rewrite <- pow2_plus, pow2_Z by lia. by replace (expo x + (52 - expo x))%Z with 52%Z by lia. }
  assert (E2 : inject_Z (2 ^ 53) == Qpower 2 (expo x + 1) * Qpower 2 (52 - expo x)).
  { rewrite <- pow2_plus, pow2_Z by lia.
    by replace (expo x + 1 + (52 - expo x))%Z with 53%Z by lia. }
  rewrite E1, E2. split; nra.
Qed.

Lemma unscale (x : Q) : x == x * Qpower 2 (52 - expo x) * Qpower 2 (expo x - 52).
Proof.
  rewrite <- Qmult_assoc, <- pow2_plus.
  replace (52 - expo x + (expo x - 52))%Z with 0%Z by lia. change (Qpower 2 0) with 1. ring.
Qed.

Lemma round_pos_range (x : Q) :
  0 < x -> Qpower 2 (expo x) <= round_pos x /\ round_pos x <= Qpower 2 (expo x + 1).
Proof.
  intros Hx. destruct (scaled_range x Hx) as [S1 S2]. unfold round_pos.
  pose proof (rhe_ge _ _ S1) as M1. pose proof (rhe_le _ _ (Qlt_le_weak _ _ S2)) as M2.
  rewrite Zle_Qle in M1, M2.
  pose proof (pow2_pos (expo x - 52)) as Hp.
  assert (E1 : Qpower 2 (expo x) == inject_Z (2 ^ 52) * Qpower 2 (expo x - 52)).
  { rewrite pow2_Z, <- pow2_plus by lia. by replace (52 + (expo x - 52))%Z with (expo x) by lia. }
  assert (E2 : Qpower 2 (expo x + 1) == inject_Z (2 ^ 53) * Qpower 2 (expo x - 52)).
  { rewrite pow2_Z, <- pow2_plus by lia.
    by replace (53 + (expo x - 52))%Z with (expo x + 1)%Z by lia. }
  rewrite E1, E2. split; nra.
Qed.

Lemma round_pos_error (x : Q) :
  0 < x -> Qabs (round_pos x - x) <= Qpower 2 (expo x - 53).
Proof.
  intros Hx. pose proof (rhe_near (x * Qpower 2 (52 - expo x))) as Hn.
  apply Qabs_Qle_condition in Hn. apply Qabs_Qle_condition.
  pose proof (pow2_pos (expo x - 53)) as Hp.
  assert (E : Qpower 2 (expo x - 52) == 2 * Qpower 2 (expo x - 53)).
  { rewrite <- pow2_S. by replace (expo x - 53 + 1)%Z with (expo x - 52)%Z by lia. }
  pose proof (unscale x) as Hu. unfold round_pos.
  set (s := x * Qpower 2 (52 - expo x)) in *.
  set (m := inject_Z (round_half_even s)) in *.
  rewrite E in *. set (u := Qpower 2 (expo x - 53)) in *.
  split; nra.
Qed.

Lemma round_pos_comp (x y : Q) : 0 < x -> x == y -> round_pos x == round_pos y.
Proof.
  intros Hx E. unfold round_pos. rewrite <- (expo_comp x y Hx E).
  assert (E' : x * Qpower 2 (52 - expo x) == y * Qpower 2 (52 - expo x)).
  { apply Qmult_comp; [exact E|reflexivity]. }
  by rewrite (rhe_comp _ _ E').
Qed.

Lemma round_pos_mono (x y : Q) : 0 < x -> x <= y -> round_pos x <= round_pos y.
Proof.
  intros Hx Hxy. assert (Hy : 0 < y) by lra.
  destruct (expo_spec x Hx) as [X1 X2]. destruct (expo_spec y Hy) as [Y1 Y2].
  assert (He : (expo x <= expo y)%Z).
  { assert (expo x < expo y + 1)%Z; [|lia].
    apply (Qpower_lt_compat_l_inv 2); [lra|reflexivity]. }
  destruct (Z.eq_dec (expo x) (expo y)) as [E|E].
  - unfold round_pos. rewrite E.
    pose proof (pow2_pos (52 - expo y)) as Hp. pose proof (pow2_pos (expo y - 52)) as Hq.
    assert (Hs : x * Qpower 2 (52 - expo y) <= y * Qpower 2 (52 - expo y)) by nra.
    apply rhe_mono in Hs. rewrite Zle_Qle in Hs. nra.
  - destruct (round_pos_range x Hx) as [_ R1]. destruct (round_pos_range y Hy) as [R2 _].
    assert (Qpower 2 (expo x + 1) <= Qpower 2 (expo y)).
    { apply Qpower_le_compat_l; [lia|discriminate]. }
    lra.
Qed.

Lemma round64_pos (x : Q) : 0 < x -> round64 x = round_pos x.
Proof. intros Hx. unfold round64. apply Qgt_alt in Hx. by rewrite Hx. Qed.

Lemma round64_zero (x : Q) : x == 0 -> round64 x = 0.
Proof. intros Hx. unfold round64. apply Qeq_alt in Hx. by rewrite Hx. Qed.

Lemma round64_comp (x y : Q) : x == y -> round64 x == round64 y.
Proof.
  intros E. unfold round64. rewrite (Qcompare_comp _ _ E _ _ (Qeq_refl 0)).
  destruct (Qcompare y 0) eqn:C.
  - reflexivity.
  - apply Qlt_alt in C. apply Qopp_comp. apply round_pos_comp; [|by rewrite E]. rewrite E. lra.
  - apply Qgt_alt in C. apply round_pos_comp; [|done]. rewrite E. done.
Qed.

Lemma round64_positive (x : Q) : 0 < x -> 0 < round64 x.
Proof.
  intros Hx. rewrite (round64_pos x Hx). destruct (round_pos_range x Hx) as [H _].
  pose proof (pow2_pos (expo x)). lra.
Qed.

Lemma round64_zero_iff (x : Q) : 0 <= x -> (round64 x == 0 <-> x == 0).
Proof.
  intros Hx. split.
  - intros H. destruct (Qlt_le_dec 0 x) as [Hp|Hn]; [|lra].
    pose proof (round64_positive x Hp). lra.
  - intros H. by rewrite (round64_zero x H).
Qed.

Lemma round64_mono (x y : Q) : 0 <= x -> x <= y -> round64 x <= round64 y.
Proof.
  intros Hx Hxy. destruct (Qlt_le_dec 0 x) as [Hp|Hn].
  - rewrite (round64_pos x Hp), (round64_pos y) by lra. by apply round_pos_mono.
  - rewrite (round64_zero x) by lra. destruct (Qlt_le_dec 0 y) as [Hy|Hy].
    + pose proof (round64_positive y Hy). lra.
    + rewrite (round64_zero y) by lra. lra.
Qed.

Lemma round64_one : round64 1 == 1.
Proof. vm_compute. reflexivity. Qed.

Lemma round64_unit (x : Q) : 0 <= x -> x <= 1 -> 0 <= round64 x /\ round64 x <= 1.
Proof.
  intros H0 H1. split.
  - change 0 with (round64 0). apply round64_mono; lra.
  - rewrite <- round64_one. apply round64_mono; lra.
Qed.

Lemma round64_error_unit (x : Q) :
  0 <= x -> x <= 1 -> Qabs (round64 x - x) <= Qpower 2 (-54).
Proof.
  intros H0 H1. destruct (Qlt_le_dec 0 x) as [Hp|Hn].
  - destruct (Qlt_le_dec x 1) as [Hl|Hl].
    + rewrite (round64_pos x Hp). eapply Qle_trans; [by apply round_pos_error|].
      apply Qpower_le_compat_l; [|discriminate].
      destruct (expo_spec x Hp) as [S1 _].
      assert (expo x < 0)%Z; [|lia].
      apply (Qpower_lt_compat_l_inv 2); [|reflexivity]. change (Qpower 2 0) with 1. lra.
    + assert (E : x == 1) by lra. rewrite (round64_comp _ _ E), round64_one.
      rewrite E. vm_compute. discriminate.
  - rewrite (round64_zero x) by lra. assert (E : x == 0) by lra. rewrite E.
    vm_compute. discriminate.
Qed.

End Rounding.

(** The rate the entanglement scripts compute from [c] agreeing blocks out
    of [m]. *)
Lemma count_ratio_unit (c m : nat) :
  c ≤ m → m ≠ 0 →
  (0 <= inject_Z (Z.of_nat c) / inject_Z (Z.of_nat m))%Q
  ∧ (inject_Z (Z.of_nat c) / inject_Z (Z.of_nat m) <= 1)%Q.
Proof.
  intros Hc Hm.
  assert (Hm' : (0 < inject_Z (Z.of_nat m))%Q).
  { change 0%Q with (inject_Z 0). rewrite <- Zlt_Qlt. lia. }
  split.
  - apply Qle_shift_div_l; [done|]. rewrite Qmult_0_l.
    change 0%Q with (inject_Z 0). rewrite <- Zle_Qle. lia.
  - apply Qle_shift_div_r; [done|]. rewrite Qmult_1_l. rewrite <- Zle_Qle. lia.
Qed.

Lemma count_ratio_zero (c m : nat) :
  m ≠ 0 → (inject_Z (Z.of_nat c) / inject_Z (Z.of_nat m) == 0 ↔ c = 0).
Proof.
  intros Hm. assert (Hz : (0 < Z.of_nat m)%Z) by lia.
  destruct (Z.of_nat m) as [|p|p] eqn:E; try lia.
  unfold Qeq, Qdiv, Qmult, Qinv, inject_Z. simpl. lia.
Qed.

Lemma count_ratio_one (m : nat) :
  m ≠ 0 → inject_Z (Z.of_nat m) / inject_Z (Z.of_nat m) == 1.
Proof.
  intros Hm. assert (Hz : (0 < Z.of_nat m)%Z) by lia.
  destruct (Z.of_nat m) as [|p|p] eqn:E; try lia.
  unfold Qeq, Qdiv, Qmult, Qinv, inject_Z. simpl. lia.
Qed.

Lemma float_error_rate_unit (c m : nat) :
  c ≤ m → m ≠ 0 → (0 <= float_error_rate c m)%Q ∧ (float_error_rate c m <= 1)%Q.
Proof.
  intros Hc Hm. destruct (count_ratio_unit c m Hc Hm) as [H0 H1].
  destruct (round64_unit _ H0 H1) as [R0 R1]. unfold float_error_rate. split; lra.
Qed.

Lemma float_error_rate_one (c m : nat) :
  c ≤ m → m ≠ 0 → (float_error_rate c m == 1 ↔ c = 0).
Proof.
  intros Hc Hm. destruct (count_ratio_unit c m Hc Hm) as [H0 _].
  rewrite <- (count_ratio_zero c m Hm), <- (round64_zero_iff _ H0).
  unfold float_error_rate. split; intros H; lra.
Qed.

Lemma float_error_rate_all (m : nat) : m ≠ 0 → float_error_rate m m == 0.
Proof.
  intros Hm. unfold float_error_rate.
  rewrite (round64_comp _ _ (count_ratio_one m Hm)), round64_one. reflexivity.
Qed.

(** The rounding moves the rate by at most 2^-54 from the share of the
    other blocks. *)
Lemma float_error_rate_near (c m : nat) :
  c ≤ m → m ≠ 0 →
  (Qabs (float_error_rate c m - inject_Z (Z.of_nat (m - c)) / inject_Z (Z.of_nat m))
   <= Qpower 2 (-54))%Q.
Proof.
  intros Hc Hm. destruct (count_ratio_unit c m Hc Hm) as [H0 H1].
  pose proof (round64_error_unit _ H0 H1) as He.
  assert (Hq : ¬ inject_Z (Z.of_nat m) == 0).
  { change 0%Q with (inject_Z 0). rewrite inject_Z_injective. lia. }
  assert (E : (inject_Z (Z.of_nat (m - c)) / inject_Z (Z.of_nat m)
               == 1 - inject_Z (Z.of_nat c) / inject_Z (Z.of_nat m))%Q).
  { rewrite Nat2Z.inj_sub by done. unfold Z.sub.
    rewrite inject_Z_plus, inject_Z_opp. field. exact Hq. }
  rewrite E. unfold float_error_rate.
  apply Qabs_Qle_condition in He. apply Qabs_Qle_condition.
  remember (inject_Z (Z.of_nat c) / inject_Z (Z.of_nat m))%Q as x eqn:Ex. clear Ex.
  remember (round64 x) as y eqn:Ey. clear Ey.
  remember (Qpower 2 (-54)) as u eqn:Eu. clear Eu.
  split; lra.
Qed.

(** ** Loops in the exception monad *)

Lemma for_from_S {S : Type} (lo n : nat) (body : nat → S → result S) (s : S) :
  for_from lo (Datatypes.S n) body s
  = match body lo s with Ok s' => for_from (Datatypes.S lo) n body s' | Raise e => Raise e end.
Proof. reflexivity. Qed.

Lemma for_from_ext {S : Type} (body body' : nat → S → result S) (n lo : nat) (s : S) :
  (∀ i s, lo ≤ i < lo + n → body i s = body' i s) →
  for_from lo n body s = for_from lo n body' s.
Proof.
  revert lo s. induction n as [|n IH]; intros lo s Hb; [reflexivity|].
  rewrite !for_from_S, Hb by lia.
  destruct (body' lo s); [|reflexivity].
  apply IH. intros i s' Hi. apply Hb. lia.
Qed.

(** A loop that adds one at the positions where [P] holds counts them. *)
Lemma for_from_count (P : nat → Prop) `{!∀ i, Decision (P i)}
    (body : nat → Z → result Z) (n lo : nat) (acc : Z) :
  (∀ i acc, lo ≤ i < lo + n → body i acc = Ok (if decide (P i) then acc + 1 else acc)%Z) →
  for_from lo n body acc = Ok (acc + Z.of_nat (length (filter P (seq lo n))))%Z.
Proof.
  revert lo acc. induction n as [|n IH]; intros lo acc Hb.
  - simpl. f_equal. lia.
  - rewrite for_from_S, Hb by lia. rewrite IH by (intros; apply Hb; lia).
    f_equal. cbn [seq]. rewrite filter_cons.
    destruct (decide (P lo)); simpl; lia.
Qed.

(** A loop that appends [g i] at the positions where [P] holds and nothing
    elsewhere collects [g] over them, in order. *)
Lemma for_from_collect {A B : Type} (P : nat → Prop) `{!∀ i, Decision (P i)}
    (g1 : nat → list A) (g2 : nat → list B)
    (body : nat → list A * list B → result (list A * list B)) (n lo : nat)
    (acc : list A * list B) :
  (∀ i acc, lo ≤ i < lo + n →
     body i acc = Ok (if decide (P i) then (acc.1 ++ g1 i, acc.2 ++ g2 i) else acc)) →
  for_from lo n body acc
  = Ok (acc.1 ++ flat_map g1 (filter P (seq lo n)), acc.2 ++ flat_map g2 (filter P (seq lo n))).
Proof.
  revert lo acc. induction n as [|n IH]; intros lo acc Hb.
  - simpl. rewrite !app_nil_r. by destruct acc.
  - rewrite for_from_S, Hb by lia. rewrite IH by (intros; apply Hb; lia).
    cbn [seq]. rewrite filter_cons.
    destruct (decide (P lo)); simpl; [|reflexivity].
    by rewrite <- !app_assoc.
Qed.

(** A loop whose iterations can only raise [IndexError] raises it as soon as
    one iteration does. *)
Lemma for_from_raise {S : Type} (body : nat → S → result S) (n lo k : nat) (s : S) :
  (∀ i s, lo ≤ i < lo + n → (∃ s', body i s = Ok s') ∨ body i s = Raise IndexError) →
  lo ≤ k < lo + n →
  (∀ s, body k s = Raise IndexError) →
  for_from lo n body s = Raise IndexError.
Proof.
  revert lo s. induction n as [|n IH]; intros lo s Hb Hk Hr; [lia|].
  rewrite for_from_S.
  destruct (decide (k = lo)) as [->|Hne]; [by rewrite Hr|].
  destruct (Hb lo s) as [[s' ->]| ->]; [lia| |reflexivity].
  apply IH; [|lia|done]. intros i s0 Hi. apply Hb. lia.
Qed.

Lemma index_Some {A} (l : list A) (i : nat) (x : A) : l !! i = Some x → index l i = Ok x.
Proof. unfold index. by intros ->. Qed.

Lemma index_lt {A} (l : list A) (i : nat) : i < length l → ∃ x, l !! i = Some x ∧ index l i = Ok x.
Proof.
  intros Hi. destruct (lookup_lt_is_Some_2 l i Hi) as [x Hx].
  exists x. split; [done|by apply index_Some].
Qed.

Lemma index_ge {A} (l : list A) (i : nat) : length l ≤ i → index l i = Raise IndexError.
Proof. intros Hi. unfold index. by rewrite lookup_ge_None_2. Qed.

Lemma at_lookup (l : list Z) (i : nat) (x : Z) : l !! i = Some x → at_ l i = x.
Proof. intros Hx. unfold at_. by apply nth_lookup_Some with (d := 0%Z) in Hx. Qed.

(** ** The error estimators *)

Lemma filter_complement_length {A} (P : A → Prop) `{!∀ x, Decision (P x)} (l : list A) :
  length (filter P l) + length (filter (λ x, ¬ P x) l) = length l.
Proof.
  induction l as [|x l IH]; [reflexivity|].
  rewrite !filter_cons. destruct (decide (P x)), (decide (¬ P x)); simpl; try lia; tauto.
Qed.

Lemma filter_all {A} (P : A → Prop) `{!∀ x, Decision (P x)} (l : list A) :
  Forall P l → filter P l = l.
Proof.
  induction 1 as [|x l Hx Hl IH]; [done|].
  by rewrite filter_cons, decide_True, IH.
Qed.

Lemma BB84_measureQBER_body (r a : list Z) (i : nat) (acc : Z) :
  length r = length a → i < length r →
  (x ← index r i; y ← index a i;
   if decide (x ≠ y) then mret (acc + 1)%Z else mret acc)
  = Ok (if decide (r !! i ≠ a !! i) then acc + 1 else acc)%Z.
Proof.
  intros Hlen Hi.
  destruct (index_lt r i Hi) as (x & Hx & ->).
  destruct (index_lt a i ltac:(lia)) as (y & Hy & ->).
  rewrite Hx, Hy. simpl.
  destruct (decide (x = y)) as [->|Hn].
  - rewrite !decide_False; [done|tauto|tauto].
  - rewrite !decide_True; [done|congruence|done].
Qed.

Lemma BB84_measureQBER_rate (r a : list Z) :
  length r = length a → r ≠ [] →
  BB84Ideal.measureQBER r a = Ok (PyFloat (bit_error_rate r a)).
Proof.
  intros Hlen Hne. unfold BB84Ideal.measureQBER.
  destruct (Nat.eqb_spec (length r) 0) as [H0|_].
  { destruct r; [done|discriminate]. }
  unfold for_range.
  rewrite (for_from_count (λ i, r !! i ≠ a !! i)).
  - reflexivity.
  - intros i acc Hi. apply BB84_measureQBER_body; [done|lia].
Qed.

Lemma Ent_measureQBER_body (r a : list Z) (k : nat) (acc : Z) :
  2 * k + 1 < length r → 2 * k + 1 < length a →
  (r0 ← index r (2 * k); a0 ← index a (2 * k);
   if decide (r0 = a0) then
     r1 ← index r (2 * k + 1); a1 ← index a (2 * k + 1);
     if decide (r1 = a1) then mret (acc + 1)%Z else mret acc
   else mret acc)
  = Ok (if decide (r !! (2 * k) = a !! (2 * k) ∧ r !! (2 * k + 1) = a !! (2 * k + 1))
        then (acc + 1)%Z else acc).
Proof.
  remember (2 * k + 1) as j1 eqn:Hj1. remember (2 * k) as j0 eqn:Hj0.
  intros Hr Ha.
  destruct (index_lt r j0 ltac:(lia)) as (x0 & Hx0 & ->).
  destruct (index_lt a j0 ltac:(lia)) as (y0 & Hy0 & ->).
  destruct (index_lt r j1 ltac:(lia)) as (x1 & Hx1 & E1).
  destruct (index_lt a j1 ltac:(lia)) as (y1 & Hy1 & E2).
  rewrite Hx0, Hy0, Hx1, Hy1. simpl.
  destruct (decide (x0 = y0)) as [->|Hn0].
  - rewrite E1, E2. simpl. destruct (decide (x1 = y1)) as [->|Hn1].
    + by rewrite decide_True.
    + rewrite decide_False; [done|]. intros [_ ?]. congruence.
  - rewrite decide_False; [done|]. intros [? _]. congruence.
Qed.

(** The entanglement estimator on a non-empty input: one minus the share of
    blocks in which both bits agree. *)
Lemma Ent_measureQBER_value (r a : list Z) :
  length r = length a → r ≠ [] → Nat.even (length r) = true →
  EntanglementBasedProtocol.measureQBER r a
  = Ok (PyFloat (1 - round64 (inject_Z (Z.of_nat (length (right_blocks r a)))
                              / (inject_Z (Z.of_nat (length r)) / 2)))).
Proof.
  intros Hlen Hne Hev. unfold EntanglementBasedProtocol.measureQBER.
  destruct (Nat.eqb_spec (length r) 0) as [H0|_].
  { destruct r; [done|discriminate]. }
  apply Nat.even_spec in Hev as [m Hm].
  unfold for_range.
  rewrite (for_from_count
    (λ k, r !! (2 * k) = a !! (2 * k) ∧ r !! (2 * k + 1) = a !! (2 * k + 1))).
  - reflexivity.
  - intros k acc Hk.
    rewrite Hm, (Nat.mul_comm 2 m), Nat.div_mul in Hk by lia.
    apply Ent_measureQBER_body; lia.
Qed.

Lemma half_length (r : list Z) :
  Nat.even (length r) = true →
  inject_Z (Z.of_nat (length r)) / 2 == inject_Z (Z.of_nat (length r / 2)).
Proof.
  intros Hev. apply Nat.even_spec in Hev as [m Hm].
  rewrite Hm, (Nat.mul_comm 2 m), Nat.div_mul by lia.
  rewrite Nat2Z.inj_mul, inject_Z_mult. change (inject_Z (Z.of_nat 2)) with 2%Q. field.
Qed.

Lemma blocks_pos (r : list Z) : r ≠ [] → Nat.even (length r) = true → length r / 2 ≠ 0.
Proof.
  intros Hne Hev. apply Nat.even_spec in Hev as [m Hm].
  rewrite Hm, (Nat.mul_comm 2 m), Nat.div_mul by lia.
  destruct r; [done|simpl in Hm; lia].
Qed.

Lemma right_wrong_blocks (r a : list Z) :
  length (right_blocks r a) + length (wrong_blocks r a) = length r / 2.
Proof.
  unfold right_blocks, wrong_blocks.
  pose proof (filter_complement_length
    (λ k, r !! (2 * k) = a !! (2 * k) ∧ r !! (2 * k + 1) = a !! (2 * k + 1))
    (seq 0 (length r / 2))) as Hc.
  rewrite length_seq in Hc. lia.
Qed.

(** The entanglement estimator returns one minus the float quotient of the
    agreeing blocks by the blocks. *)
Lemma Ent_measureQBER_rate (r a : list Z) :
  length r = length a → r ≠ [] → Nat.even (length r) = true →
  ∃ q, EntanglementBasedProtocol.measureQBER r a = Ok (PyFloat q)
       ∧ q == float_error_rate (length (right_blocks r a)) (length r / 2).
Proof.
  intros Hlen Hne Hev. eexists. split; [by apply Ent_measureQBER_value|].
  unfold float_error_rate.
  assert (E : (inject_Z (Z.of_nat (length (right_blocks r a)))
               / (inject_Z (Z.of_nat (length r)) / 2)
               == inject_Z (Z.of_nat (length (right_blocks r a)))
                  / inject_Z (Z.of_nat (length r / 2)))%Q).
  { by rewrite (half_length r Hev). }
  by rewrite (round64_comp _ _ E).
Qed.

(** It is within 2^-54 of the share of blocks that differ. *)
Lemma Ent_rate_near (r a : list Z) :
  r ≠ [] → Nat.even (length r) = true →
  (Qabs (float_error_rate (length (right_blocks r a)) (length r / 2)
         - block_error_rate r a) <= Qpower 2 (-54))%Q.
Proof.
  intros Hne Hev. pose proof (right_wrong_blocks r a) as Hc.
  pose proof (blocks_pos r Hne Hev) as Hm.
  unfold block_error_rate.
  replace (length (wrong_blocks r a)) with (length r / 2 - length (right_blocks r a)) by lia.
  apply float_error_rate_near; [lia|done].
Qed.

Lemma BB84_measureQBER_null (r a : list Z) :
  BB84Ideal.measureQBER r a = Ok (PyStr "null") ↔ r = [].
Proof.
  unfold BB84Ideal.measureQBER. split.
  - destruct r as [|x r]; [done|]. simpl Nat.eqb. cbv iota.
    destruct (for_range _ _ _); simpl; discriminate.
  - by intros ->.
Qed.


(** The entanglement estimator on three kept blocks of which the last
    differs: 1 - 2/3.0, the float 0.33333333333333337, which is not the
    float nearest to 1/3. *)
Lemma measureQBER_one_block_of_three :
  ∃ q, EntanglementBasedProtocol.measureQBER [0; 0; 1; 1; 1; 1]%Z [0; 0; 1; 1; 0; 1]%Z
       = Ok (PyFloat q)
       ∧ q == 3002399751580331 # 9007199254740992
       ∧ ¬ q == round64 (1 # 3).
Proof.
  eexists. split; [reflexivity|]. split; [vm_compute; reflexivity|].
  vm_compute. discriminate.
Qed.



(** C2, as stated, at the kept block (0,1) against the reference (0,0): the
    sifted input is not empty and the entanglement estimator returns a QBER
    equal to 1. *)
Lemma measureQBER_entanglement_one_on_nonempty :
  ¬ (∀ results reference v,
       EntanglementBasedProtocol.measureQBER results reference = Ok v →
       (py_eq v (PyInt 1) = true ↔ results = [])).
Proof.
  intros H.
  destruct (H [0; 1]%Z [0; 0]%Z _ eq_refl) as [H1 _].
  discriminate (H1 eq_refl).
Qed.

(** C2 (amended): BB84's [measureQBER] returns the string "null" exactly when
    its sifted input is empty; the entanglement [measureQBER] returns 1 on an
    empty sifted input, and on an equal-length, even-length input it returns
    a value equal to 1 exactly when every kept block differs from the
    reference block, which the empty input satisfies with no block at all. *)
Theorem empty_key_sentinels (results reference : list Z) :
  (BB84Ideal.measureQBER results reference = Ok (PyStr "null") ↔ results = [])
  ∧ BB84Ideal.measureQBER [] reference = Ok (PyStr "null")
  ∧ EntanglementBasedProtocol.measureQBER [] reference = Ok (PyInt 1)
  ∧ (length results = length reference → Nat.even (length results) = true →
     ∃ v, EntanglementBasedProtocol.measureQBER results reference = Ok v
          ∧ (py_eq v (PyInt 1) = true
             ↔ length (wrong_blocks results reference) = length results / 2)).
Proof.
  split; [apply BB84_measureQBER_null|].
  split; [reflexivity|]. split; [reflexivity|].
  intros Hlen Hev.
  destruct (decide (results = [])) as [->|Hne].
  { exists (PyInt 1). split; [reflexivity|]. split; reflexivity. }
  destruct (Ent_measureQBER_rate results reference Hlen Hne Hev) as (q & Hq & E).
  exists (PyFloat q). split; [done|].
  pose proof (right_wrong_blocks results reference) as Hc.
  pose proof (blocks_pos results Hne Hev) as Hm.
  unfold py_eq. rewrite Qeq_bool_iff, E.
  rewrite float_error_rate_one by (lia || done). lia.
Qed.

Lemma empty_key_sentinels_witness :
  ∃ v, EntanglementBasedProtocol.measureQBER [0; 1; 1; 0]%Z [0; 0; 1; 0]%Z = Ok v
       ∧ (py_eq v (PyInt 1) = true
          ↔ length (wrong_blocks [0; 1; 1; 0]%Z [0; 0; 1; 0]%Z) = length [0; 1; 1; 0]%Z / 2).
Proof.
  destruct (empty_key_sentinels [0; 1; 1; 0]%Z [0; 0; 1; 0]%Z) as (_ & _ & _ & H).
  apply H; reflexivity.
Defined.

(** ** Sifting *)

Lemma flat_map_singleton {A B} (g : A → B) (l : list A) :
  flat_map (λ x, [g x]) l = map g l.
Proof. induction l as [|x l IH]; [done|]. simpl. by rewrite IH. Qed.

Lemma kept_spec (n : nat) (alice bob : list Z) (i : nat) :
  i ∈ kept n alice bob ↔ i < n ∧ alice !! i = bob !! i.
Proof.
  unfold kept. rewrite list_elem_of_filter, elem_of_seq. split; intros [? ?]; split; done || lia.
Qed.

Lemma kept_length (n : nat) (alice bob : list Z) : length (kept n alice bob) ≤ n.
Proof.
  unfold kept. etransitivity; [apply length_filter|]. by rewrite length_seq.
Qed.

Lemma BB84_discardBits_spec (n : nat) (results aliceBits aliceBases bobBases : list Z) :
  n ≤ length results → n ≤ length aliceBits →
  n ≤ length aliceBases → n ≤ length bobBases →
  BB84Ideal.discardBits n results aliceBits aliceBases bobBases
  = Ok (map (at_ results) (kept n aliceBases bobBases),
        map (at_ aliceBits) (kept n aliceBases bobBases)).
Proof.
  intros Hr Ha Hab Hbb. unfold BB84Ideal.discardBits, for_range.
  rewrite (for_from_collect (λ i, aliceBases !! i = bobBases !! i)
             (λ i, [at_ results i]) (λ i, [at_ aliceBits i])).
  - simpl. by rewrite !flat_map_singleton.
  - intros i [nr na] Hi.
    destruct (index_lt aliceBases i ltac:(lia)) as (a & Ha' & ->).
    destruct (index_lt bobBases i ltac:(lia)) as (b & Hb' & ->).
    destruct (index_lt results i ltac:(lia)) as (r & Hr' & Er).
    destruct (index_lt aliceBits i ltac:(lia)) as (x & Hx' & Ex).
    rewrite Ha', Hb'. simpl.
    destruct (decide (a = b)) as [->|Hn].
    + rewrite Er, Ex, decide_True by done. simpl.
      by rewrite (at_lookup _ _ _ Hr'), (at_lookup _ _ _ Hx').
    + rewrite decide_False by congruence. done.
Qed.

Lemma Ent_discardBits_spec (n : nat) (results aliceBits alicePairs bobPairs : list Z) :
  2 * n ≤ length results → 2 * n ≤ length aliceBits →
  n ≤ length alicePairs → n ≤ length bobPairs →
  EntanglementBasedProtocol.discardBits n results aliceBits alicePairs bobPairs
  = Ok (flat_map (block_at results) (kept n alicePairs bobPairs),
        flat_map (block_at aliceBits) (kept n alicePairs bobPairs)).
Proof.
  intros Hr Ha Hab Hbb. unfold EntanglementBasedProtocol.discardBits, for_range.
  rewrite (for_from_collect (λ i, alicePairs !! i = bobPairs !! i)
             (block_at results) (block_at aliceBits)).
  - reflexivity.
  - intros i [nr na] Hi. unfold block_at.
    remember (2 * i + 1) as j1 eqn:Hj1. remember (2 * i) as j0 eqn:Hj0.
    destruct (index_lt alicePairs i ltac:(lia)) as (a & Ha' & ->).
    destruct (index_lt bobPairs i ltac:(lia)) as (b & Hb' & ->).
    destruct (index_lt results j0 ltac:(lia)) as (r0 & Hr0 & Er0).
    destruct (index_lt results j1 ltac:(lia)) as (r1 & Hr1 & Er1).
    destruct (index_lt aliceBits j0 ltac:(lia)) as (x0 & Hx0 & Ex0).
    destruct (index_lt aliceBits j1 ltac:(lia)) as (x1 & Hx1 & Ex1).
    rewrite Ha', Hb'. simpl.
    destruct (decide (a = b)) as [->|Hn].
    + rewrite Er0, Er1, Ex0, Ex1, decide_True by done. simpl.
      by rewrite (at_lookup _ _ _ Hr0), (at_lookup _ _ _ Hr1),
                 (at_lookup _ _ _ Hx0), (at_lookup _ _ _ Hx1).
    + rewrite decide_False by congruence. done.
Qed.

Lemma lookup_at (l : list Z) (i : nat) : i < length l → l !! i = Some (at_ l i).
Proof.
  intros Hi. destruct (lookup_lt_is_Some_2 l i Hi) as [x Hx].
  by rewrite (at_lookup _ _ _ Hx).
Qed.

Lemma filter_seq_sorted (P : nat → Prop) `{!∀ i, Decision (P i)} (n lo : nat) :
  StronglySorted lt (filter P (seq lo n)).
Proof.
  revert lo. induction n as [|n IH]; intros lo; [constructor|].
  cbn [seq]. rewrite filter_cons. destruct (decide (P lo)); [|apply IH].
  constructor; [apply IH|].
  apply Forall_forall. intros i Hi.
  apply list_elem_of_filter in Hi as [_ Hi]. apply elem_of_seq in Hi. lia.
Qed.

Lemma blocks_lookup {A} (g0 g1 : nat → A) (l : list nat) (j i : nat) :
  l !! j = Some i →
  flat_map (λ i, [g0 i; g1 i]) l !! (2 * j) = Some (g0 i)
  ∧ flat_map (λ i, [g0 i; g1 i]) l !! (2 * j + 1) = Some (g1 i).
Proof.
  revert j. induction l as [|x l IH]; intros j Hj; [done|].
  destruct j as [|j].
  - injection Hj as ->. done.
  - replace (2 * S j) with (S (S (2 * j))) by lia.
    replace (S (S (2 * j)) + 1) with (S (S (2 * j + 1))) by lia.
    simpl. by apply IH.
Qed.

Lemma blocks_length {A} (g0 g1 : nat → A) (l : list nat) :
  length (flat_map (λ i, [g0 i; g1 i]) l) = 2 * length l.
Proof. induction l as [|x l IH]; [done|]. simpl. rewrite IH. lia. Qed.

(** C6: sifting keeps position [i] (BB84) or both bits of block [i]
    (entanglement) exactly when the two parties' choices agree at [i], in
    increasing order of [i]; the two sequences it returns have the same
    length, at most the configured length, and the [j]-th kept result comes
    from the same position as the [j]-th kept reference bit. *)
Theorem sifting_keeps_agreeing_positions
    (n : nat) (results aliceBits aliceChoices bobChoices : list Z) :
  n ≤ length aliceChoices → n ≤ length bobChoices →
  (∀ i, i ∈ kept n aliceChoices bobChoices ↔ i < n ∧ aliceChoices !! i = bobChoices !! i)
  ∧ StronglySorted lt (kept n aliceChoices bobChoices)
  ∧ (n ≤ length results → n ≤ length aliceBits →
     ∃ newResults newAliceBits,
       BB84Ideal.discardBits n results aliceBits aliceChoices bobChoices
       = Ok (newResults, newAliceBits)
       ∧ length newResults = length (kept n aliceChoices bobChoices)
       ∧ length newResults = length newAliceBits
       ∧ length newResults ≤ n
       ∧ ∀ j i, kept n aliceChoices bobChoices !! j = Some i →
           newResults !! j = results !! i ∧ newAliceBits !! j = aliceBits !! i)
  ∧ (2 * n ≤ length results → 2 * n ≤ length aliceBits →
     ∃ newResults newAliceBits,
       EntanglementBasedProtocol.discardBits n results aliceBits aliceChoices bobChoices
       = Ok (newResults, newAliceBits)
       ∧ length newResults = 2 * length (kept n aliceChoices bobChoices)
       ∧ length newResults = length newAliceBits
       ∧ length newResults ≤ 2 * n
       ∧ ∀ j i, kept n aliceChoices bobChoices !! j = Some i →
           newResults !! (2 * j) = results !! (2 * i)
           ∧ newResults !! (2 * j + 1) = results !! (2 * i + 1)
           ∧ newAliceBits !! (2 * j) = aliceBits !! (2 * i)
           ∧ newAliceBits !! (2 * j + 1) = aliceBits !! (2 * i + 1)).
Proof.
  intros Ha Hb.
  pose proof (kept_length n aliceChoices bobChoices) as Hk.
  split; [intros i; apply kept_spec|].
  split; [apply filter_seq_sorted|].
  split.
  - intros Hr Hx. eexists _, _. split; [by apply BB84_discardBits_spec|].
    rewrite !length_map. split; [done|]. split; [done|]. split; [done|].
    intros j i Hj.
    assert (Hi : i < n).
    { apply (kept_spec n aliceChoices bobChoices). apply list_elem_of_lookup. eauto. }
    rewrite !list_lookup_fmap, Hj. simpl.
    by rewrite !lookup_at by lia.
  - intros Hr Hx. eexists _, _. split; [by apply Ent_discardBits_spec|].
    unfold block_at. rewrite !blocks_length. split; [done|]. split; [done|]. split; [lia|].
    intros j i Hj.
    assert (Hi : i < n).
    { apply (kept_spec n aliceChoices bobChoices). apply list_elem_of_lookup. eauto. }
    destruct (blocks_lookup (λ i, at_ results (2 * i)) (λ i, at_ results (2 * i + 1)) _ _ _ Hj)
      as [-> ->].
    destruct (blocks_lookup (λ i, at_ aliceBits (2 * i)) (λ i, at_ aliceBits (2 * i + 1)) _ _ _ Hj)
      as [-> ->].
    by rewrite !lookup_at by lia.
Qed.

Lemma sifting_keeps_agreeing_positions_witness :
  ∃ newResults newAliceBits,
    BB84Ideal.discardBits 3 [1; 0; 1]%Z [1; 1; 1]%Z [0; 1; 1]%Z [0; 0; 1]%Z
    = Ok (newResults, newAliceBits)
    ∧ length newResults = length (kept 3 [0; 1; 1]%Z [0; 0; 1]%Z)
    ∧ length newResults = length newAliceBits
    ∧ length newResults ≤ 3
    ∧ ∀ j i, kept 3 [0; 1; 1]%Z [0; 0; 1]%Z !! j = Some i →
        newResults !! j = [1; 0; 1]%Z !! i ∧ newAliceBits !! j = [1; 1; 1]%Z !! i.
Proof.
  destruct (sifting_keeps_agreeing_positions 3 [1; 0; 1]%Z [1; 1; 1]%Z [0; 1; 1]%Z [0; 0; 1]%Z)
    as (_ & _ & H & _).
  - simpl. lia.
  - simpl. lia.
  - apply H; simpl; lia.
Defined.

(** ** Loops over the store *)

Lemma for_from_M_S {S : Type} (lo n : nat) (body : nat → S → M S) (s : S) (w : world) :
  for_from lo (Datatypes.S n) body s w
  = match body lo s w with
    | Ok (s', w') => for_from (Datatypes.S lo) n body s' w'
    | Raise e => Raise e
    end.
Proof. reflexivity. Qed.

Lemma for_from_M_ext {S : Type} (body body' : nat → S → M S) (n lo : nat) (s : S) (w : world) :
  (∀ i s w, lo ≤ i < lo + n → body i s w = body' i s w) →
  for_from lo n body s w = for_from lo n body' s w.
Proof.
  revert lo s w. induction n as [|n IH]; intros lo s w Hb; [reflexivity|].
  rewrite !for_from_M_S, Hb by lia.
  destruct (body' lo s w) as [[s' w']|e]; [|reflexivity].
  apply IH. intros i s0 w0 Hi. apply Hb. lia.
Qed.

Lemma for_from_M_raise {S : Type} (body : nat → S → M S) (n lo k : nat) (s : S) (w : world) :
  (∀ i s w, lo ≤ i < lo + n →
     (∃ r, body i s w = Ok r) ∨ body i s w = Raise IndexError) →
  lo ≤ k < lo + n →
  (∀ s w, body k s w = Raise IndexError) →
  for_from lo n body s w = Raise IndexError.
Proof.
  revert lo s w. induction n as [|n IH]; intros lo s w Hb Hk Hr; [lia|].
  rewrite for_from_M_S.
  destruct (decide (k = lo)) as [->|Hne]; [by rewrite Hr|].
  destruct (Hb lo s w) as [[[s' w'] ->]| ->]; [lia| |reflexivity].
  apply IH; [|lia|done]. intros i s0 w0 Hi. apply Hb. lia.
Qed.

Section AllocLoop.
Variables nq nc : nat.
Variable gen : nat → result (list instr).

(** The encoders' loop: [n] fresh circuits at the end of the heap, the
    message their references in order. *)
Lemma alloc_loop (g : nat → list instr) (n lo : nat) (message : list nat) (w : world) :
  (∀ i, lo ≤ i < lo + n → gen i = Ok (g i)) →
  for_from lo n (Loops.alloc_body nq nc gen) message w
  = Ok (message ++ seq (length (heap w)) n,
        mkWorld (heap w ++ map (λ i, mkQC nq nc (g i)) (seq lo n)) (submitted w) (draws w)).
Proof.
  revert lo message w. induction n as [|n IH]; intros lo message w Hg.
  - simpl. rewrite !app_nil_r. by destruct w.
  - rewrite for_from_M_S. unfold Loops.alloc_body at 1. rewrite Hg by lia.
    rewrite IH by (intros; apply Hg; lia). simpl.
    rewrite length_app. simpl. rewrite Nat.add_1_r, <- !app_assoc. reflexivity.
Qed.

Lemma alloc_loop_raise (n k : nat) (w : world) :
  (∀ i, i < n → (∃ gs, gen i = Ok gs) ∨ gen i = Raise IndexError) →
  k < n → gen k = Raise IndexError →
  for_range n (Loops.alloc_body nq nc gen) [] w = Raise IndexError.
Proof.
  intros Hg Hk Hr. apply (for_from_M_raise _ n 0 k); [|lia|].
  - intros i s w' Hi. unfold Loops.alloc_body.
    destruct (Hg i ltac:(lia)) as [[gs ->]| ->]; eauto.
  - intros s w'. unfold Loops.alloc_body. by rewrite Hr.
Qed.
End AllocLoop.

Section ShotLoop.
Variable backend : nat → QuantumCircuit → string.
Variable message : list nat.
Variable choices : list Z.
Variable ops : Z → list instr.
Variable conv : string → result (list Z).

Local Abbreviation body := (Loops.shot_body backend message choices ops conv).
Local Abbreviation circuit := (Loops.run_circuit message choices ops).
Local Abbreviation memory := (Loops.memory backend message choices ops).

(** The decoders' loop from position [lo], on a heap that still agrees with
    the initial heap [h0] at the references not yet visited. *)
Lemma shot_from (h0 : list QuantumCircuit) (zs : nat → list Z) (k n lo : nat)
    (acc : list Z) (w : world) :
  NoDup message →
  lo + n ≤ length message → lo + n ≤ length choices →
  Forall (λ a, a < length h0) message →
  length (heap w) = length h0 →
  length (submitted w) = k + lo →
  (∀ q a, lo ≤ q → message !! q = Some a → heap w !! a = h0 !! a) →
  (∀ q, lo ≤ q < lo + n → conv (memory h0 k q) = Ok (zs q)) →
  ∃ h', for_from lo n body acc w
        = Ok (acc ++ flat_map zs (seq lo n),
              mkWorld h' (submitted w ++ map (circuit h0) (seq lo n)) (draws w))
      ∧ length h' = length h0
      ∧ (∀ q a, lo ≤ q < lo + n → message !! q = Some a → h' !! a = Some (circuit h0 q))
      ∧ (∀ a, (∀ q, lo ≤ q < lo + n → message !! q ≠ Some a) → h' !! a = heap w !! a).
Proof.
  intros Hnd. revert lo acc w.
  induction n as [|n IH]; intros lo acc w Hm Hc Hv Hlen Hsub Hagree Hconv.
  - exists (heap w). simpl. rewrite !app_nil_r. destruct w. repeat split; auto; intros; lia.
  - destruct (lookup_lt_is_Some_2 message lo ltac:(lia)) as [a Ha].
    destruct (lookup_lt_is_Some_2 choices lo ltac:(lia)) as [c Hc'].
    assert (Hva : a < length h0).
    { eapply Forall_forall in Hv; [exact Hv|]. apply list_elem_of_lookup. eauto. }
    destruct (lookup_lt_is_Some_2 h0 a Hva) as [qc Hqc].
    assert (Hcirc : circuit h0 lo = extend qc (ops c)).
    { unfold Loops.run_circuit. by rewrite Ha, Hc', Hqc. }
    pose proof (Hconv lo ltac:(lia)) as Hz. unfold Loops.memory in Hz. rewrite Hcirc in Hz.
    rewrite for_from_M_S. unfold Loops.shot_body at 1.
    rewrite Ha, Hc', (Hagree lo a ltac:(lia) Ha), Hqc. cbv zeta.
    rewrite Hsub, Hz.
    set (w1 := mkWorld _ _ _).
    destruct (IH (S lo) (acc ++ zs lo) w1) as (h' & Hrun & Hlen' & Hin & Hout); try lia.
    + done.
    + subst w1. simpl. by rewrite length_insert.
    + subst w1. simpl. rewrite length_app. simpl. lia.
    + intros q a' Hq Ha'. subst w1. simpl.
      rewrite list_lookup_insert_ne; [apply (Hagree q); [lia|done]|].
      intros ->. assert (lo = q); [|lia].
      eapply NoDup_lookup; eauto.
    + intros q Hq. apply Hconv. lia.
    + exists h'. rewrite Hrun. subst w1. simpl. rewrite <- !app_assoc, Hcirc. simpl.
      split; [done|]. split; [done|]. split.
      * intros q a' Hq Ha'. destruct (decide (q = lo)) as [->|Hne].
        -- assert (a' = a) as -> by congruence.
           rewrite Hout.
           ++ simpl. rewrite list_lookup_insert_eq by lia. by rewrite Hcirc.
           ++ intros q Hq' Ha''. assert (q = lo); [|lia]. eapply NoDup_lookup; eauto.
        -- apply Hin; [lia|done].
      * intros a' Hnot. rewrite Hout by (intros q Hq; apply Hnot; lia).
        simpl. apply list_lookup_insert_ne. intros ->. by apply (Hnot lo ltac:(lia)).
Qed.

(** The whole loop. *)
Lemma shot_loop (zs : nat → list Z) (n : nat) (w : world) :
  NoDup message →
  n ≤ length message → n ≤ length choices →
  Forall (λ a, a < length (heap w)) message →
  (∀ q, q < n → conv (memory (heap w) (length (submitted w)) q) = Ok (zs q)) →
  ∃ h', for_range n body [] w
        = Ok (flat_map zs (seq 0 n),
              mkWorld h' (submitted w ++ Loops.run_circuits message choices ops (heap w) n)
                      (draws w))
      ∧ length h' = length (heap w)
      ∧ (∀ q a, q < n → message !! q = Some a → h' !! a = Some (circuit (heap w) q))
      ∧ (∀ a, (∀ q, q < n → message !! q ≠ Some a) → h' !! a = heap w !! a).
Proof.
  intros Hnd Hm Hc Hv Hconv.
  destruct (shot_from (heap w) zs (length (submitted w)) n 0 [] w) as (h' & Hrun & Hlen & Hin & Hout);
    try done; try lia.
  - intros q Hq. apply Hconv. lia.
  - exists h'. split; [exact Hrun|]. split; [done|]. split.
    + intros q a Hq. apply Hin. lia.
    + intros a Hnot. apply Hout. intros q Hq. apply Hnot. lia.
Qed.

(** A shorter message or choice sequence stops the loop at the first missing
    position. *)
Lemma shot_loop_raise (n : nat) (w : world) :
  Forall (λ a, a < length (heap w)) message →
  (∀ k qc, ∃ zs, conv (backend k qc) = Ok zs) →
  length message < n ∨ length choices < n →
  for_range n body [] w = Raise IndexError.
Proof.
  intros Hv Hconv Hshort.
  set (k := Nat.min (length message) (length choices)).
  assert (Hinv : ∀ m lo acc w', length (heap w') = length (heap w) → lo ≤ k → k < lo + m →
                 for_from lo m body acc w' = Raise IndexError).
  { induction m as [|m IH]; intros lo acc w' Hlen Hlo Hk; [lia|].
    rewrite for_from_M_S. unfold Loops.shot_body at 1.
    destruct (message !! lo) as [a|] eqn:Ha; [|done].
    destruct (choices !! lo) as [c|] eqn:Hc; [|done].
    assert (Hva : a < length (heap w)).
    { eapply Forall_forall in Hv; [exact Hv|]. apply list_elem_of_lookup. eauto. }
    destruct (lookup_lt_is_Some_2 (heap w') a ltac:(lia)) as [qc ->]. cbv zeta.
    destruct (Hconv (length (submitted w')) (extend qc (ops c))) as [zs ->].
    apply lookup_lt_Some in Ha, Hc.
    apply IH; [simpl; by rewrite length_insert|lia|lia]. }
  apply Hinv; [done|lia|lia].
Qed.

End ShotLoop.

(** ** The scripts' loops are these loops *)

Lemma lookup_fresh {A} (h : list A) (x : A) : (h ++ [x]) !! length h = Some x.
Proof. by rewrite list_lookup_middle. Qed.

Lemma insert_fresh {A} (h : list A) (x y : A) : <[length h := y]> (h ++ [x]) = h ++ [y].
Proof.
  replace (length h) with (length h + 0) by lia.
  by rewrite insert_app_r.
Qed.

Lemma emit_fresh (h : list QuantumCircuit) (qc : QuantumCircuit) (g : instr)
    (s : list QuantumCircuit) (d : nat) :
  emit (length h) g (mkWorld (h ++ [qc]) s d)
  = Ok (tt, mkWorld (h ++ [append_instr qc g]) s d).
Proof. unfold emit. simpl. by rewrite lookup_fresh, insert_fresh. Qed.

Lemma emit_at (h : list QuantumCircuit) (a : nat) (qc : QuantumCircuit) (g : instr)
    (s : list QuantumCircuit) (d : nat) :
  a < length h →
  emit a g (mkWorld (<[a := qc]> h) s d)
  = Ok (tt, mkWorld (<[a := append_instr qc g]> h) s d).
Proof.
  intros Ha. unfold emit. simpl.
  by rewrite list_lookup_insert_eq, list_insert_insert_eq.
Qed.

Lemma run_shot_at (backend : nat → QuantumCircuit → string) (h : list QuantumCircuit)
    (a : nat) (qc : QuantumCircuit) (s : list QuantumCircuit) (d : nat) :
  a < length h →
  run_shot backend a (mkWorld (<[a := qc]> h) s d)
  = Ok (backend (length s) qc, mkWorld (<[a := qc]> h) (s ++ [qc]) d).
Proof. intros Ha. unfold run_shot. simpl. by rewrite list_lookup_insert_eq. Qed.

Lemma extend_nil (qc : QuantumCircuit) : extend qc [] = qc.
Proof. destruct qc. unfold extend. simpl. by rewrite app_nil_r. Qed.

Lemma append_extend (qc : QuantumCircuit) (gs : list instr) (g : instr) :
  append_instr (extend qc gs) g = extend qc (gs ++ [g]).
Proof. unfold append_instr, extend. simpl. by rewrite <- app_assoc. Qed.

Lemma append_new (nq nc : nat) (gs : list instr) (g : instr) :
  append_instr (mkQC nq nc gs) g = mkQC nq nc (gs ++ [g]).
Proof. reflexivity. Qed.

Lemma BB84_encode_message_loop (numBits : nat) (bits bases : list Z) (w : world) :
  BB84Ideal.encode_message numBits bits bases w
  = for_range numBits (Loops.alloc_body 1 1 (Loops.BB84_gen bits bases)) [] w.
Proof.
  unfold BB84Ideal.encode_message, for_range. apply for_from_M_ext.
  intros i message [h s d] _.
  unfold Loops.alloc_body, Loops.BB84_gen, BB84Ideal.encoding, mbind, M_bind, new_circuit, lift.
  simpl heap. simpl submitted. simpl draws.
  destruct (index bases i) as [basis|e1]; [|reflexivity]. simpl.
  destruct (decide (basis = 0%Z)); destruct (index bits i) as [bit|e2]; simpl; try reflexivity;
    destruct (decide (bit = 0%Z)); simpl;
    rewrite ?emit_fresh; simpl; rewrite ?emit_fresh; simpl; rewrite ?emit_fresh; reflexivity.
Qed.

Lemma emit_lookup (h : list QuantumCircuit) (a : nat) (qc : QuantumCircuit) (g : instr)
    (s : list QuantumCircuit) (d : nat) :
  h !! a = Some qc →
  emit a g (mkWorld h s d) = Ok (tt, mkWorld (<[a := append_instr qc g]> h) s d).
Proof. intros Ha. unfold emit. simpl. by rewrite Ha. Qed.

Lemma emit_None (h : list QuantumCircuit) (a : nat) (g : instr)
    (s : list QuantumCircuit) (d : nat) :
  h !! a = None → emit a g (mkWorld h s d) = Raise NoSuchObject.
Proof. intros Ha. unfold emit. simpl. by rewrite Ha. Qed.

Lemma run_shot_lookup (backend : nat → QuantumCircuit → string) (h : list QuantumCircuit)
    (a : nat) (qc : QuantumCircuit) (s : list QuantumCircuit) (d : nat) :
  h !! a = Some qc →
  run_shot backend a (mkWorld h s d) = Ok (backend (length s) qc, mkWorld h (s ++ [qc]) d).
Proof. intros Ha. unfold run_shot. simpl. by rewrite Ha. Qed.

Lemma run_shot_None (backend : nat → QuantumCircuit → string) (h : list QuantumCircuit)
    (a : nat) (s : list QuantumCircuit) (d : nat) :
  h !! a = None → run_shot backend a (mkWorld h s d) = Raise NoSuchObject.
Proof. intros Ha. unfold run_shot. simpl. by rewrite Ha. Qed.

Lemma BB84_measure_message_loop (backend : nat → QuantumCircuit → string) (numBits : nat)
    (message : list nat) (bases : list Z) (w : world) :
  BB84Ideal.measure_message backend numBits message bases w
  = for_range numBits
      (Loops.shot_body backend message bases BB84Ideal.measuring Loops.BB84_conv) [] w.
Proof.
  unfold BB84Ideal.measure_message, for_range. apply for_from_M_ext.
  intros q acc [h s d] _.
  unfold Loops.shot_body, Loops.BB84_conv, BB84Ideal.measuring, mbind, M_bind, lift, index.
  simpl heap. simpl submitted. simpl draws.
  destruct (message !! q) as [a|]; [|reflexivity].
  destruct (bases !! q) as [basis|]; [|reflexivity].
  destruct (h !! a) as [qc|] eqn:Hqc.
  - assert (Ha : a < length h) by (by apply lookup_lt_Some in Hqc).
    cbv zeta.
    destruct (decide (basis = 0%Z)) as [->|H0]; [|destruct (decide (basis = 1%Z)) as [->|H1]].
    + rewrite (emit_lookup h a qc (Measure 0 0) s d Hqc). simpl.
      rewrite (run_shot_at backend h a _ s d Ha). unfold extend, append_instr. simpl.
      destruct (py_int _); reflexivity.
    + simpl. rewrite (emit_lookup h a qc (Gate_h 0) s d Hqc).
      rewrite (emit_at h a _ (Measure 0 0) s d Ha). rewrite (run_shot_at backend h a _ s d Ha).
      unfold extend, append_instr. simpl. rewrite <- app_assoc. simpl.
      destruct (py_int _); reflexivity.
    + simpl. rewrite (run_shot_lookup backend h a qc s d Hqc).
      rewrite extend_nil, (list_insert_id _ _ _ Hqc).
      destruct (py_int _); reflexivity.
  - destruct (decide (basis = 0%Z)) as [->|H0]; [|destruct (decide (basis = 1%Z)) as [->|H1]].
    + by rewrite (emit_None h a (Measure 0 0) s d Hqc).
    + simpl. by rewrite (emit_None h a (Gate_h 0) s d Hqc).
    + simpl. by rewrite (run_shot_None backend h a s d Hqc).
Qed.

Lemma Ent_decodeMessage_loop (backend : nat → QuantumCircuit → string) (numPairings : nat)
    (message : list nat) (pairs : list Z) (w : world) :
  EntanglementBasedProtocol.decodeMessage backend numPairings message pairs w
  = for_range numPairings
      (Loops.shot_body backend message pairs EntanglementBasedProtocol.measuring
                       Loops.Ent_conv) [] w.
Proof.
  unfold EntanglementBasedProtocol.decodeMessage, for_range. apply for_from_M_ext.
  intros q acc [h s d] _.
  unfold Loops.shot_body, Loops.Ent_conv, EntanglementBasedProtocol.measuring,
    mbind, M_bind, lift, index.
  simpl heap. simpl submitted. simpl draws.
  destruct (message !! q) as [a|]; [|reflexivity].
  destruct (pairs !! q) as [label|]; [|reflexivity].
  destruct (EntanglementBasedProtocol.pairing label) as [[p1a p1b] [p2a p2b]].
  destruct (h !! a) as [qc|] eqn:Hqc.
  - assert (Ha : a < length h) by (by apply lookup_lt_Some in Hqc).
    cbv zeta. simpl fst. simpl snd.
    rewrite (emit_lookup h a qc (Gate_cx p1a p1b) s d Hqc).
    rewrite (emit_at h a _ (Gate_h p1a) s d Ha), (emit_at h a _ (Gate_cx p2a p2b) s d Ha),
      (emit_at h a _ (Gate_h p2a) s d Ha), (emit_at h a _ (Measure p1a 3) s d Ha),
      (emit_at h a _ (Measure p1b 2) s d Ha), (emit_at h a _ (Measure p2a 1) s d Ha),
      (emit_at h a _ (Measure p2b 0) s d Ha).
    rewrite (run_shot_at backend h a _ s d Ha).
    unfold extend, append_instr. simpl. rewrite <- !app_assoc. reflexivity.
  - simpl fst. simpl snd. by rewrite (emit_None h a (Gate_cx p1a p1b) s d Hqc).
Qed.

Lemma Ent_encodeMessage_loop (numPairings : nat) (bits pairs : list Z) (w : world) :
  EntanglementBasedProtocol.encodeMessage numPairings bits pairs w
  = for_range numPairings (Loops.alloc_body 4 4 (Loops.Ent_gen bits pairs)) [] w.
Proof.
  unfold EntanglementBasedProtocol.encodeMessage, for_range. apply for_from_M_ext.
  intros i message [h s d] _.
  unfold Loops.alloc_body, Loops.Ent_gen, Loops.Ent_conversion,
    EntanglementBasedProtocol.bell_preparation, EntanglementBasedProtocol.createBellState,
    mbind, M_bind, new_circuit, lift.
  simpl heap. simpl submitted. simpl draws.
  destruct (index pairs i) as [label|e0]; [|reflexivity]. simpl.
  destruct (EntanglementBasedProtocol.pairing label) as [[p1a p1b] [p2a p2b]].
  simpl fst. simpl snd.
  rewrite (emit_fresh h _ (Gate_h p1a) s d). simpl.
  rewrite (emit_fresh h _ (Gate_cx p1a p1b) s d). simpl.
  rewrite (emit_fresh h _ (Gate_h p2a) s d). simpl.
  rewrite (emit_fresh h _ (Gate_cx p2a p2b) s d). simpl.
  rewrite (emit_fresh h _ Barrier s d). simpl.
  destruct (EntanglementBasedProtocol.block_is bits i 0 0) as [[|]|e1]; simpl; [| |reflexivity].
  { rewrite (emit_fresh h _ (Gate_x p2a) s d). simpl.
    rewrite (emit_fresh h _ Barrier s d). reflexivity. }
  destruct (EntanglementBasedProtocol.block_is bits i 0 1) as [[|]|e2]; simpl; [| |reflexivity].
  { rewrite (emit_fresh h _ (Gate_x p1a) s d). simpl.
    rewrite (emit_fresh h _ Barrier s d). reflexivity. }
  destruct (EntanglementBasedProtocol.block_is bits i 1 0) as [[|]|e3]; simpl; [| |reflexivity].
  { rewrite (emit_fresh h _ (Gate_z p1b) s d). simpl.
    rewrite (emit_fresh h _ (Gate_z p2a) s d). simpl.
    rewrite (emit_fresh h _ (Gate_x p2b) s d). simpl.
    rewrite (emit_fresh h _ Barrier s d). reflexivity. }
  destruct (EntanglementBasedProtocol.block_is bits i 1 1) as [[|]|e4]; simpl; [| |reflexivity].
  { rewrite (emit_fresh h _ (Gate_z p1a) s d). simpl.
    rewrite (emit_fresh h _ (Gate_x p1b) s d). simpl.
    rewrite (emit_fresh h _ (Gate_z p2b) s d). simpl.
    rewrite (emit_fresh h _ Barrier s d). reflexivity. }
  rewrite (emit_fresh h _ Barrier s d). reflexivity.
Qed.

(** On a block of two bits that are there, the chain selects the gates of
    [bell_conversion]. *)
Lemma Ent_gen_Some (bits pairs : list Z) (i : nat) (b0 b1 label : Z) :
  bits !! (2 * i) = Some b0 → bits !! (2 * i + 1) = Some b1 → pairs !! i = Some label →
  Loops.Ent_gen bits pairs i = Ok (EntanglementBasedProtocol.encoding b0 b1 label).
Proof.
  intros H0 H1 Hl.
  unfold Loops.Ent_gen, Loops.Ent_conversion, EntanglementBasedProtocol.encoding,
    EntanglementBasedProtocol.bell_conversion, EntanglementBasedProtocol.block_is.
  rewrite (index_Some _ _ _ Hl), (index_Some _ _ _ H0), (index_Some _ _ _ H1).
  simpl. destruct (EntanglementBasedProtocol.pairing label) as [p1 p2].
  destruct (decide (b0 = 0%Z)) as [->|N0]; simpl.
  - destruct (decide (b1 = 0%Z)) as [->|N1]; simpl; [reflexivity|].
    rewrite bool_decide_false by done. simpl.
    destruct (decide (b1 = 1%Z)) as [->|N2]; simpl; [reflexivity|].
    rewrite bool_decide_false by done. simpl.
    repeat (rewrite decide_False by (intros [? ?]; done)). reflexivity.
  - destruct (decide (b0 = 1%Z)) as [->|N1]; simpl.
    + destruct (decide (b1 = 0%Z)) as [->|N2]; simpl; [reflexivity|].
      rewrite bool_decide_false by done. simpl.
      destruct (decide (b1 = 1%Z)) as [->|N3]; simpl; [reflexivity|].
      rewrite bool_decide_false by done. simpl.
      repeat (rewrite decide_False by (intros [? ?]; done)). reflexivity.
    + repeat (rewrite decide_False by (intros [? ?]; done)). reflexivity.
Qed.

Lemma BB84_gen_Some (bits bases : list Z) (i : nat) (bit basis : Z) :
  bits !! i = Some bit → bases !! i = Some basis →
  Loops.BB84_gen bits bases i = Ok (BB84Ideal.encoding bit basis).
Proof.
  intros Hb Hs. unfold Loops.BB84_gen.
  by rewrite (index_Some _ _ _ Hb), (index_Some _ _ _ Hs).
Qed.

(** ** The encoders and decoders as a whole *)

Lemma nth_lookup_lt (l : list Z) (i : nat) : i < length l → l !! i = Some (nth i l 0%Z).
Proof. apply lookup_at. Qed.

Lemma BB84_encode_message_spec (n : nat) (bits bases : list Z) (w : world) :
  n ≤ length bits → n ≤ length bases →
  BB84Ideal.encode_message n bits bases w
  = Ok (seq (length (heap w)) n,
        mkWorld (heap w ++ Loops.BB84_circuits n bits bases) (submitted w) (draws w)).
Proof.
  intros Hb Hs. rewrite BB84_encode_message_loop. unfold for_range.
  rewrite (alloc_loop 1 1 _ (λ i, BB84Ideal.encoding (nth i bits 0%Z) (nth i bases 0%Z))).
  - reflexivity.
  - intros i Hi. apply BB84_gen_Some; apply nth_lookup_lt; lia.
Qed.

Lemma Ent_encodeMessage_spec (n : nat) (bits pairs : list Z) (w : world) :
  2 * n ≤ length bits → n ≤ length pairs →
  EntanglementBasedProtocol.encodeMessage n bits pairs w
  = Ok (seq (length (heap w)) n,
        mkWorld (heap w ++ Loops.Ent_circuits n bits pairs) (submitted w) (draws w)).
Proof.
  intros Hb Hs. rewrite Ent_encodeMessage_loop. unfold for_range.
  rewrite (alloc_loop 4 4 _ (λ i, EntanglementBasedProtocol.encoding
             (nth (2 * i) bits 0%Z) (nth (2 * i + 1) bits 0%Z) (nth i pairs 0%Z))).
  - reflexivity.
  - intros i Hi. apply Ent_gen_Some; apply nth_lookup_lt; lia.
Qed.

Section FreshMessage.
Variable backend : nat → QuantumCircuit → string.
Variable choices : list Z.
Variable ops : Z → list instr.
Variable conv : string → result (list Z).

(** A decoder loop over a message of [n] fresh circuits [cs]. *)
Lemma shot_loop_fresh (zs : nat → list Z) (h cs s : list QuantumCircuit) (d n : nat) :
  length cs = n → n ≤ length choices →
  (∀ q qc, cs !! q = Some qc →
     conv (backend (length s + q) (extend qc (ops (nth q choices 0%Z)))) = Ok (zs q)) →
  ∃ h', for_range n (Loops.shot_body backend (seq (length h) n) choices ops conv) []
          (mkWorld (h ++ cs) s d)
        = Ok (flat_map zs (seq 0 n), mkWorld h' (s ++ Loops.measured ops cs choices) d)
      ∧ length h' = length h + n.
Proof.
  intros Hcs Hch Hconv.
  assert (Hcirc : ∀ q qc, cs !! q = Some qc →
            Loops.run_circuit (seq (length h) n) choices ops (h ++ cs) q
            = extend qc (ops (nth q choices 0%Z))).
  { intros q qc Hq. unfold Loops.run_circuit.
    assert (q < n) by (apply lookup_lt_Some in Hq; lia).
    rewrite lookup_seq_lt by done. rewrite (nth_lookup_lt choices q) by lia.
    rewrite lookup_app_r by lia.
    replace (length h + q - length h) with q by lia. by rewrite Hq. }
  destruct (shot_loop backend (seq (length h) n) choices ops conv zs n (mkWorld (h ++ cs) s d))
    as (h' & Hrun & Hlen & _ & _).
  - apply NoDup_seq.
  - by rewrite length_seq.
  - done.
  - simpl. apply Forall_forall. intros a Ha. apply elem_of_seq in Ha.
    rewrite length_app. lia.
  - intros q Hq. simpl. unfold Loops.memory.
    destruct (lookup_lt_is_Some_2 cs q ltac:(lia)) as [qc Hqc].
    rewrite (Hcirc q qc Hqc). by apply Hconv.
  - exists h'. simpl in Hrun, Hlen. rewrite length_app in Hlen. split; [|lia].
    rewrite Hrun. do 4 f_equal.
    unfold Loops.run_circuits, Loops.measured. apply list_eq. intros q.
    rewrite list_lookup_fmap, list_lookup_imap.
    destruct (cs !! q) as [qc|] eqn:Hqc; simpl.
    + assert (q < n) by (apply lookup_lt_Some in Hqc; lia).
      rewrite lookup_seq_lt by done. simpl. by rewrite (Hcirc q qc Hqc).
    + apply lookup_ge_None in Hqc. by rewrite lookup_seq_ge by lia.
Qed.
End FreshMessage.

Lemma take_as_map (l : list Z) (n : nat) :
  n ≤ length l → map (λ i, nth i l 0%Z) (seq 0 n) = take n l.
Proof.
  induction n as [|n IH]; intros Hn; [done|].
  rewrite seq_S, map_app, IH by lia. simpl.
  by rewrite (take_S_r l n (nth n l 0%Z)) by (apply nth_lookup_lt; lia).
Qed.

Lemma take_as_blocks (l : list Z) (n : nat) :
  2 * n ≤ length l →
  flat_map (λ i, [nth (2 * i) l 0%Z; nth (2 * i + 1) l 0%Z]) (seq 0 n) = take (2 * n) l.
Proof.
  induction n as [|n IH]; intros Hn; [done|].
  rewrite seq_S, flat_map_app, IH by lia. cbn [flat_map]. rewrite app_nil_r.
  replace (2 * S n) with (S (S (2 * n))) by lia.
  rewrite (take_S_r l (S (2 * n)) (nth (2 * n + 1) l 0%Z)).
  - rewrite (take_S_r l (2 * n) (nth (2 * n) l 0%Z)) by (apply nth_lookup_lt; lia).
    rewrite <- app_assoc. reflexivity.
  - replace (S (2 * n)) with (2 * n + 1) by lia. apply nth_lookup_lt. lia.
Qed.

(** ** One shot of an encoded circuit, decoded with the sender's choice *)

Lemma pairing_cases (label : Z) :
  EntanglementBasedProtocol.pairing label = ((0, 1), (2, 3))
  ∨ EntanglementBasedProtocol.pairing label = ((0, 2), (1, 3))
  ∨ EntanglementBasedProtocol.pairing label = ((0, 3), (1, 2)).
Proof.
  unfold EntanglementBasedProtocol.pairing.
  destruct (decide (label = 0%Z)); [by left|].
  destruct (decide (label = 1%Z)); [right; by left|right; by right].
Qed.

Lemma BB84_matching_outcome (bit basis : Z) :
  is_bit bit → is_bit basis →
  outcomes (extend (mkQC 1 1 (BB84Ideal.encoding bit basis)) (BB84Ideal.measuring basis))
  = [if decide (bit = 0%Z) then "0" else "1"].
Proof. intros [-> | ->] [-> | ->]; vm_compute; reflexivity. Qed.

Lemma Ent_matching_outcome (b0 b1 label : Z) :
  is_bit b0 → is_bit b1 →
  ∃ s, outcomes (extend (mkQC 4 4 (EntanglementBasedProtocol.encoding b0 b1 label))
                        (EntanglementBasedProtocol.measuring label)) = [s]
       ∧ EntanglementBasedProtocol.decode_lookup s = [b0; b1].
Proof.
  intros H0 H1.
  unfold EntanglementBasedProtocol.encoding, EntanglementBasedProtocol.measuring.
  destruct (pairing_cases label) as [-> | [-> | ->]];
    destruct H0 as [-> | ->]; destruct H1 as [-> | ->];
    eexists; split; vm_compute; reflexivity.
Qed.

Lemma ideal_single (backend : nat → QuantumCircuit → string) (k : nat)
    (qc : QuantumCircuit) (s : string) :
  ideal backend → outcomes qc = [s] → backend k qc = s.
Proof.
  intros Hid Hs. specialize (Hid k qc). rewrite Hs in Hid.
  apply list_elem_of_singleton. by apply Hid.
Qed.

Lemma first_outcome_ideal : ideal first_outcome.
Proof.
  intros k qc Hne. unfold first_outcome.
  destruct (outcomes qc) as [|s l]; [done|]. apply list_elem_of_here.
Qed.

Lemma Forall_nth_bit (l : list Z) (i : nat) :
  Forall is_bit l → i < length l → is_bit (nth i l 0%Z).
Proof.
  intros Hl Hi. eapply Forall_forall in Hl; [exact Hl|].
  apply list_elem_of_lookup. exists i. by apply nth_lookup_lt.
Qed.

Lemma BB84_round_trip (backend : nat → QuantumCircuit → string) (n : nat)
    (bits bases : list Z) (w : world) :
  ideal backend → Forall is_bit bits → Forall is_bit bases →
  n ≤ length bits → n ≤ length bases →
  ∃ h', BB84Ideal.measure_message backend n (seq (length (heap w)) n) bases
          (mkWorld (heap w ++ Loops.BB84_circuits n bits bases) (submitted w) (draws w))
        = Ok (take n bits,
              mkWorld h' (submitted w
                          ++ Loops.measured BB84Ideal.measuring
                               (Loops.BB84_circuits n bits bases) bases) (draws w)).
Proof.
  intros Hid Hbits Hbases Hb Hs. rewrite BB84_measure_message_loop.
  destruct (shot_loop_fresh backend bases BB84Ideal.measuring Loops.BB84_conv
              (λ q, [nth q bits 0%Z]) (heap w) (Loops.BB84_circuits n bits bases)
              (submitted w) (draws w) n) as (h' & Hrun & _).
  - unfold Loops.BB84_circuits. by rewrite length_map, length_seq.
  - done.
  - intros q qc Hq. unfold Loops.BB84_circuits in Hq.
    change (map ?f ?l) with (f <$> l) in Hq.
    rewrite list_lookup_fmap in Hq.
    destruct (seq 0 n !! q) as [i|] eqn:Hi; [|done].
    apply lookup_seq in Hi as [-> Hlt]. simpl in Hq. injection Hq as <-.
    pose proof (Forall_nth_bit bits q Hbits ltac:(lia)) as Hbit.
    pose proof (Forall_nth_bit bases q Hbases ltac:(lia)) as Hbasis.
    rewrite (ideal_single backend _ _ _ Hid (BB84_matching_outcome _ _ Hbit Hbasis)).
    destruct Hbit as [-> | ->]; reflexivity.
  - exists h'. rewrite Hrun. by rewrite flat_map_singleton, take_as_map.
Qed.

Lemma Ent_round_trip (backend : nat → QuantumCircuit → string) (n : nat)
    (bits pairs : list Z) (w : world) :
  ideal backend → Forall is_bit bits →
  2 * n ≤ length bits → n ≤ length pairs →
  ∃ h', EntanglementBasedProtocol.decodeMessage backend n (seq (length (heap w)) n) pairs
          (mkWorld (heap w ++ Loops.Ent_circuits n bits pairs) (submitted w) (draws w))
        = Ok (take (2 * n) bits,
              mkWorld h' (submitted w
                          ++ Loops.measured EntanglementBasedProtocol.measuring
                               (Loops.Ent_circuits n bits pairs) pairs) (draws w)).
Proof.
  intros Hid Hbits Hb Hs. rewrite Ent_decodeMessage_loop.
  destruct (shot_loop_fresh backend pairs EntanglementBasedProtocol.measuring Loops.Ent_conv
              (λ q, [nth (2 * q) bits 0%Z; nth (2 * q + 1) bits 0%Z]) (heap w)
              (Loops.Ent_circuits n bits pairs) (submitted w) (draws w) n) as (h' & Hrun & _).
  - unfold Loops.Ent_circuits. by rewrite length_map, length_seq.
  - done.
  - intros q qc Hq. unfold Loops.Ent_circuits in Hq.
    change (map ?f ?l) with (f <$> l) in Hq.
    rewrite list_lookup_fmap in Hq.
    destruct (seq 0 n !! q) as [i|] eqn:Hi; [|done].
    apply lookup_seq in Hi as [-> Hlt]. simpl in Hq. injection Hq as <-.
    replace (q + (q + 0)) with (2 * q) by lia.
    pose proof (Forall_nth_bit bits (2 * q) Hbits ltac:(lia)) as Hb0.
    pose proof (Forall_nth_bit bits (2 * q + 1) Hbits ltac:(lia)) as Hb1.
    destruct (Ent_matching_outcome _ _ (nth q pairs 0%Z) Hb0 Hb1) as (s & Hs1 & Hs2).
    unfold Loops.Ent_conv.
    by rewrite (ideal_single backend _ _ _ Hid Hs1), Hs2.
  - exists h'. rewrite Hrun. by rewrite take_as_blocks.
Qed.

(** [measureBER]: one minus the float share of the blocks in which both
    bits agree. *)
Lemma Ent_measureBER_value (n : nat) (aliceBits results : list Z) :
  2 * n ≤ length aliceBits → 2 * n ≤ length results → n ≠ 0 →
  EntanglementBasedProtocol.measureBER n aliceBits results
  = Ok (PyFloat (float_error_rate (length (filter
           (λ k, aliceBits !! (2 * k) = results !! (2 * k)
                 ∧ aliceBits !! (2 * k + 1) = results !! (2 * k + 1))
           (seq 0 n))) n)).
Proof.
  intros Ha Hr Hn. unfold EntanglementBasedProtocol.measureBER, for_range.
  rewrite (for_from_count
    (λ k, aliceBits !! (2 * k) = results !! (2 * k)
          ∧ aliceBits !! (2 * k + 1) = results !! (2 * k + 1))).
  - simpl. destruct (Nat.eqb_spec n 0); [done|reflexivity].
  - intros k acc Hk. apply Ent_measureQBER_body; lia.
Qed.

Lemma Ent_measureBER_zero (n : nat) (aliceBits : list Z) :
  2 * n ≤ length aliceBits → n ≠ 0 →
  ∃ q, EntanglementBasedProtocol.measureBER n aliceBits (take (2 * n) aliceBits)
       = Ok (PyFloat q) ∧ q == 0.
Proof.
  intros Ha Hn. eexists. split.
  - apply Ent_measureBER_value; [done| |done]. rewrite length_take. lia.
  - rewrite filter_all.
    + rewrite length_seq. by apply float_error_rate_all.
    + apply Forall_forall. intros k Hk. apply elem_of_seq in Hk.
      rewrite !lookup_take_lt by lia. done.
Qed.

(** C7: on a noiseless backend and with no eavesdropper, encoding a bit
    sequence and decoding it with the sender's own choices returns the
    sender's bits at every position, in BB84 and in the entanglement
    protocol; there the block error rate of the decoded sequence is 0, as
    for the block (0,0) under pairing 0. *)
Theorem matching_choices_round_trip (backend : nat → QuantumCircuit → string) (n : nat)
    (bits choices : list Z) (w : world) :
  ideal backend → Forall is_bit bits → n ≤ length choices →
  (n ≤ length bits → Forall is_bit choices →
   ∃ message w1 w2,
     BB84Ideal.encode_message n bits choices w = Ok (message, w1)
     ∧ BB84Ideal.measure_message backend n message choices w1 = Ok (take n bits, w2))
  ∧ (2 * n ≤ length bits →
     ∃ message w1 w2,
       EntanglementBasedProtocol.encodeMessage n bits choices w = Ok (message, w1)
       ∧ EntanglementBasedProtocol.decodeMessage backend n message choices w1
         = Ok (take (2 * n) bits, w2)
       ∧ (n ≠ 0 →
          ∃ q, EntanglementBasedProtocol.measureBER n bits (take (2 * n) bits) = Ok (PyFloat q)
               ∧ q == 0)).
Proof.
  intros Hid Hbits Hc. split.
  - intros Hb Hch.
    destruct (BB84_round_trip backend n bits choices w Hid Hbits Hch Hb Hc) as [h' Hrun].
    eexists _, _, _. split; [by apply BB84_encode_message_spec|exact Hrun].
  - intros Hb.
    destruct (Ent_round_trip backend n bits choices w Hid Hbits Hb Hc) as [h' Hrun].
    eexists _, _, _. split; [by apply Ent_encodeMessage_spec|]. split; [exact Hrun|].
    intros Hn. by apply Ent_measureBER_zero.
Qed.

Lemma matching_choices_round_trip_witness :
  (∃ message w1 w2,
     BB84Ideal.encode_message 1 [0; 0]%Z [0]%Z (mkWorld [] [] 0) = Ok (message, w1)
     ∧ BB84Ideal.measure_message first_outcome 1 message [0]%Z w1 = Ok ([0]%Z, w2))
  ∧ (∃ message w1 w2,
       EntanglementBasedProtocol.encodeMessage 1 [0; 0]%Z [0]%Z (mkWorld [] [] 0)
       = Ok (message, w1)
       ∧ EntanglementBasedProtocol.decodeMessage first_outcome 1 message [0]%Z w1
         = Ok ([0; 0]%Z, w2)
       ∧ ∃ q, EntanglementBasedProtocol.measureBER 1 [0; 0]%Z [0; 0]%Z = Ok (PyFloat q)
              ∧ q == 0).
Proof.
  destruct (matching_choices_round_trip first_outcome 1 [0; 0]%Z [0]%Z (mkWorld [] [] 0))
    as [H1 H2].
  - exact first_outcome_ideal.
  - repeat constructor.
  - simpl. lia.
  - split.
    + apply H1; [simpl; lia|repeat constructor].
    + destruct H2 as (message & w1 & w2 & He & Hd & Hber); [simpl; lia|].
      exists message, w1, w2. split; [exact He|]. split; [exact Hd|].
      apply Hber. discriminate.
Defined.

(** ** The decode lookup *)

(** C4: the lookup at the end of [decodeMessage]'s loop body is defined on
    every memory string: "0001" gives (0,0), "0100" gives (0,1), "1011" gives
    (1,0), and every other string, so each of the 13 other 4-bit strings,
    gives (1,1); the loop appends the two bits of exactly one of the four
    results for every shot. *)
Theorem decode_lookup_total :
  EntanglementBasedProtocol.decode_lookup "0001" = [0; 0]%Z
  ∧ EntanglementBasedProtocol.decode_lookup "0100" = [0; 1]%Z
  ∧ EntanglementBasedProtocol.decode_lookup "1011" = [1; 0]%Z
  ∧ (∀ s, s ∉ ["0001"; "0100"; "1011"] →
          EntanglementBasedProtocol.decode_lookup s = [1; 1]%Z)
  ∧ (∀ s, EntanglementBasedProtocol.decode_lookup s ∈ [[0; 0]; [0; 1]; [1; 0]; [1; 1]]%Z)
  ∧ length (bitstrings 4) = 16
  ∧ NoDup (bitstrings 4)
  ∧ Forall (λ s, String.length s = 4) (bitstrings 4)
  ∧ length (filter (λ s, EntanglementBasedProtocol.decode_lookup s = [1; 1]%Z) (bitstrings 4)) = 13
  ∧ (∀ backend numPairings message pairs w,
       EntanglementBasedProtocol.decodeMessage backend numPairings message pairs w
       = for_range numPairings
           (Loops.shot_body backend message pairs EntanglementBasedProtocol.measuring
              (λ s, Ok (EntanglementBasedProtocol.decode_lookup s))) [] w).
Proof.
  split; [reflexivity|]. split; [reflexivity|]. split; [reflexivity|].
  split.
  { intros s Hs. unfold EntanglementBasedProtocol.decode_lookup.
    destruct (String.eqb_spec s "0001") as [->|_]; [exfalso; apply Hs; repeat constructor|].
    destruct (String.eqb_spec s "0100") as [->|_]; [exfalso; apply Hs; repeat constructor|].
    destruct (String.eqb_spec s "1011") as [->|_]; [exfalso; apply Hs; repeat constructor|].
    reflexivity. }
  split.
  { intros s. unfold EntanglementBasedProtocol.decode_lookup.
    destruct (String.eqb s "0001"); [repeat constructor|].
    destruct (String.eqb s "0100"); [repeat constructor|].
    destruct (String.eqb s "1011"); repeat constructor. }
  split; [reflexivity|].
  split; [compute_done|].
  split; [compute_done|].
  split; [vm_compute; reflexivity|].
  intros. apply Ent_decodeMessage_loop.
Qed.

Lemma decode_lookup_total_witness :
  EntanglementBasedProtocol.decode_lookup "1110" = [1; 1]%Z.
Proof.
  destruct decode_lookup_total as (_ & _ & _ & H & _).
  apply H. compute_done.
Defined.

(** ** No out-of-range access on inputs of the configured size *)

Section ShotLoopTotal.
Variable backend : nat → QuantumCircuit → string.
Variable message : list nat.
Variable choices : list Z.
Variable ops : Z → list instr.
Variable conv : string → result (list Z).
Variable m : nat.
Hypothesis conv_total : ∀ k qc, ∃ zs, conv (backend k qc) = Ok zs ∧ length zs = m.

(** With references into the heap, a decoder's loop over [n] positions
    returns [m] values a position. *)
Lemma shot_loop_ok (n : nat) (w : world) :
  Forall (λ a, a < length (heap w)) message →
  n ≤ length message → n ≤ length choices →
  ∃ res w', for_range n (Loops.shot_body backend message choices ops conv) [] w = Ok (res, w')
            ∧ length res = m * n.
Proof.
  intros Hv Hm Hc.
  assert (Hinv : ∀ k lo acc w', length (heap w') = length (heap w) → lo + k ≤ n →
            ∃ res w'', for_from lo k (Loops.shot_body backend message choices ops conv) acc w'
                       = Ok (res, w'')
                       ∧ length res = length acc + m * k).
  { induction k as [|k IH]; intros lo acc w' Hlen Hlo.
    - exists acc, w'. split; [reflexivity|lia].
    - rewrite for_from_M_S. unfold Loops.shot_body at 1.
      destruct (lookup_lt_is_Some_2 message lo ltac:(lia)) as [a Ha].
      destruct (lookup_lt_is_Some_2 choices lo ltac:(lia)) as [c Hc'].
      rewrite Ha, Hc'.
      assert (Hva : a < length (heap w)).
      { eapply Forall_forall in Hv; [exact Hv|]. apply list_elem_of_lookup. eauto. }
      destruct (lookup_lt_is_Some_2 (heap w') a ltac:(lia)) as [qc ->]. cbv zeta.
      destruct (conv_total (length (submitted w')) (extend qc (ops c))) as (zs & -> & Hzs).
      destruct (IH (S lo) (acc ++ zs)
                  (mkWorld (<[a := extend qc (ops c)]> (heap w'))
                           (submitted w' ++ [extend qc (ops c)]) (draws w')))
        as (res & w'' & Hrun & Hres).
      + simpl. by rewrite length_insert.
      + lia.
      + exists res, w''. split; [exact Hrun|]. rewrite Hres, length_app. lia. }
  destruct (Hinv n 0 [] w eq_refl ltac:(lia)) as (res & w' & Hrun & Hres).
  exists res, w'. split; [exact Hrun|]. simpl in Hres. lia.
Qed.

(** With distinct references, it leaves each circuit of the message with the
    receiver's instructions appended, and these are the circuits it ran. *)
Lemma shot_loop_total (n : nat) (w : world) :
  NoDup message →
  Forall (λ a, a < length (heap w)) message →
  n ≤ length message → n ≤ length choices →
  ∃ res h', for_range n (Loops.shot_body backend message choices ops conv) [] w
            = Ok (res, mkWorld h' (submitted w
                                   ++ Loops.run_circuits message choices ops (heap w) n)
                               (draws w))
          ∧ length h' = length (heap w)
          ∧ (∀ q a, q < n → message !! q = Some a →
               h' !! a = Some (Loops.run_circuit message choices ops (heap w) q))
          ∧ (∀ a, (∀ q, q < n → message !! q ≠ Some a) → h' !! a = heap w !! a).
Proof.
  intros Hnd Hv Hm Hc.
  set (zs := λ q, match conv (Loops.memory backend message choices ops (heap w)
                                 (length (submitted w)) q) with
                  | Ok z => z
                  | Raise _ => []
                  end).
  destruct (shot_loop backend message choices ops conv zs n w) as (h' & Hrun & Hrest);
    try done.
  - intros q Hq. unfold zs, Loops.memory.
    by destruct (conv_total (length (submitted w) + q)
                   (Loops.run_circuit message choices ops (heap w) q)) as (z & -> & _).
  - by exists (flat_map zs (seq 0 n)), h'.
Qed.
End ShotLoopTotal.

Lemma BB84_conv_total (backend : nat → QuantumCircuit → string) :
  (∀ k qc, backend k qc = "0" ∨ backend k qc = "1") →
  ∀ k qc, ∃ zs, Loops.BB84_conv (backend k qc) = Ok zs ∧ length zs = 1.
Proof.
  intros Hb k qc. unfold Loops.BB84_conv. destruct (Hb k qc) as [-> | ->]; eauto.
Qed.

Lemma Ent_conv_total (backend : nat → QuantumCircuit → string) :
  ∀ k qc, ∃ zs, Loops.Ent_conv (backend k qc) = Ok zs ∧ length zs = 2.
Proof.
  intros k qc. unfold Loops.Ent_conv, EntanglementBasedProtocol.decode_lookup.
  eexists. split; [reflexivity|]. by repeat destruct (String.eqb _ _).
Qed.

Lemma index_cases {A} (l : list A) (i : nat) :
  (∃ x, index l i = Ok x) ∨ index l i = Raise IndexError.
Proof. unfold index. destruct (l !! i); eauto. Qed.

Lemma BB84_gen_cases (bits bases : list Z) (i : nat) :
  (∃ gs, Loops.BB84_gen bits bases i = Ok gs) ∨ Loops.BB84_gen bits bases i = Raise IndexError.
Proof.
  unfold Loops.BB84_gen.
  destruct (index_cases bases i) as [[x ->]| ->]; [|by right]. simpl.
  destruct (index_cases bits i) as [[y ->]| ->]; [|by right]. simpl. eauto.
Qed.

Lemma BB84_encode_message_short (n : nat) (bits bases : list Z) (w : world) :
  length bits < n ∨ length bases < n →
  BB84Ideal.encode_message n bits bases w = Raise IndexError.
Proof.
  intros Hshort. rewrite BB84_encode_message_loop.
  apply (alloc_loop_raise 1 1 _ n (Nat.min (length bits) (length bases))).
  - intros i _. apply BB84_gen_cases.
  - lia.
  - unfold Loops.BB84_gen.
    destruct (index_cases bases (Nat.min (length bits) (length bases))) as [[x Hx]| ->]; [|done].
    rewrite Hx. simpl. rewrite (index_ge bits); [done|].
    unfold index in Hx. destruct (bases !! _) eqn:E; [|done].
    apply lookup_lt_Some in E. lia.
Qed.

Lemma Ent_encodeMessage_short (n : nat) (bits pairs : list Z) (w : world) :
  2 * n ≤ length bits → length pairs < n →
  EntanglementBasedProtocol.encodeMessage n bits pairs w = Raise IndexError.
Proof.
  intros Hb Hshort. rewrite Ent_encodeMessage_loop.
  apply (alloc_loop_raise 4 4 _ n (length pairs)).
  - intros i Hi. destruct (decide (i < length pairs)) as [Hlt|Hge].
    + left. eexists. apply Ent_gen_Some; apply nth_lookup_lt; lia.
    + right. unfold Loops.Ent_gen. rewrite index_ge by lia. done.
  - done.
  - unfold Loops.Ent_gen. by rewrite index_ge.
Qed.

Lemma discardBits_body_cases (results aliceBits aliceBases bobBases : list Z) (i : nat)
    (acc : list Z * list Z) :
  let body := λ (i : nat) '(newResults, newAliceBits),
    a ← index aliceBases i;
    b ← index bobBases i;
    if decide (a = b) then
      r ← index results i;
      x ← index aliceBits i;
      mret (newResults ++ [r], newAliceBits ++ [x])
    else mret (newResults, newAliceBits) in
  (∃ s', body i acc = Ok s') ∨ body i acc = Raise IndexError.
Proof.
  destruct acc as [nr na]. simpl.
  destruct (index_cases aliceBases i) as [[a ->]| ->]; [|by right]. simpl.
  destruct (index_cases bobBases i) as [[b ->]| ->]; [|by right]. simpl.
  destruct (decide (a = b)); [|eauto].
  destruct (index_cases results i) as [[r ->]| ->]; [|by right]. simpl.
  destruct (index_cases aliceBits i) as [[x ->]| ->]; [|by right]. simpl. eauto.
Qed.

Lemma BB84_discardBits_short (n : nat) (results aliceBits aliceBases bobBases : list Z) :
  length aliceBases < n ∨ length bobBases < n →
  BB84Ideal.discardBits n results aliceBits aliceBases bobBases = Raise IndexError.
Proof.
  intros Hshort. unfold BB84Ideal.discardBits, for_range.
  apply (for_from_raise _ n 0 (Nat.min (length aliceBases) (length bobBases))).
  - intros i s _. apply discardBits_body_cases.
  - lia.
  - intros [nr na].
    destruct (index_cases aliceBases (Nat.min (length aliceBases) (length bobBases)))
      as [[x Hx]| ->]; [|done].
    rewrite Hx. simpl. rewrite (index_ge bobBases); [done|].
    unfold index in Hx. destruct (aliceBases !! _) eqn:E; [|done].
    apply lookup_lt_Some in E. lia.
Qed.

Lemma Ent_discardBits_short (n : nat) (results aliceBits alicePairs bobPairs : list Z) :
  length alicePairs < n ∨ length bobPairs < n →
  EntanglementBasedProtocol.discardBits n results aliceBits alicePairs bobPairs
  = Raise IndexError.
Proof.
  intros Hshort. unfold EntanglementBasedProtocol.discardBits, for_range.
  apply (for_from_raise _ n 0 (Nat.min (length alicePairs) (length bobPairs))).
  - intros i [nr na] _.
    destruct (index_cases alicePairs i) as [[a ->]| ->]; [|by right]. simpl.
    destruct (index_cases bobPairs i) as [[b ->]| ->]; [|by right]. simpl.
    destruct (decide (a = b)); [|eauto].
    destruct (index_cases results (i + (i + 0))) as [[r0 ->]| ->]; [|by right]. simpl.
    destruct (index_cases results (i + (i + 0) + 1)) as [[r1 ->]| ->]; [|by right]. simpl.
    destruct (index_cases aliceBits (i + (i + 0))) as [[x0 ->]| ->]; [|by right]. simpl.
    destruct (index_cases aliceBits (i + (i + 0) + 1)) as [[x1 ->]| ->]; [|by right]. simpl.
    eauto.
  - lia.
  - intros [nr na].
    destruct (index_cases alicePairs (Nat.min (length alicePairs) (length bobPairs)))
      as [[x Hx]| ->]; [|done].
    rewrite Hx. simpl. rewrite (index_ge bobPairs); [done|].
    unfold index in Hx. destruct (alicePairs !! _) eqn:E; [|done].
    apply lookup_lt_Some in E. lia.
Qed.

(** C9, as stated, on sifting and on the block error rate with one
    position configured: no result is read where the bases differ, and the
    second bit of a block is not read when the first bits differ, so inputs
    shorter than the configured size pass without an index error. *)
Lemma short_inputs_without_index_error :
  ¬ (∀ n results aliceBits aliceBases bobBases,
       length results < n →
       BB84Ideal.discardBits n results aliceBits aliceBases bobBases = Raise IndexError)
  ∧ ¬ (∀ n aliceBits results,
         length results < 2 * n →
         EntanglementBasedProtocol.measureBER n aliceBits results = Raise IndexError).
Proof.
  split.
  - intros H. specialize (H 1 [] [] [0%Z] [1%Z]). simpl in H. discriminate H. lia.
  - intros H. specialize (H 1 [0%Z] [1%Z]). simpl in H. discriminate H. lia.
Qed.

(** C9 (amended): the encoders, decoders, sifting and the block error rate
    iterate over the configured number of positions, not over the lengths of
    their arguments.  On inputs at least that long (twice that for the
    entanglement bit sequences) they make no out-of-range access and return
    outputs of the configured size: [numBits] circuits or measurements in
    BB84, two decoded bits a block in the entanglement protocol.  A shorter
    basis or pairing sequence, a shorter message, and for BB84's encoder a
    shorter bit sequence, make an index access fail. *)
Theorem configured_size_loops (backend : nat → QuantumCircuit → string) (n : nat) (w : world)
    (message : list nat) (bits results aliceChoices bobChoices : list Z) :
  Forall (λ a, a < length (heap w)) message →
  n ≤ length aliceChoices → n ≤ length bobChoices → n ≤ length message →
  (* BB84, inputs of the configured size *)
  (n ≤ length bits →
   ∃ msg w', BB84Ideal.encode_message n bits aliceChoices w = Ok (msg, w')
             ∧ length msg = n ∧ length (heap w') = length (heap w) + n)
  ∧ ((∀ k qc, backend k qc = "0" ∨ backend k qc = "1") →
     ∃ res w', BB84Ideal.measure_message backend n message bobChoices w = Ok (res, w')
               ∧ length res = n)
  ∧ (n ≤ length results → n ≤ length bits →
     ∃ kept, BB84Ideal.discardBits n results bits aliceChoices bobChoices = Ok kept)
  (* entanglement, inputs of the configured size *)
  ∧ (2 * n ≤ length bits →
     ∃ msg w', EntanglementBasedProtocol.encodeMessage n bits aliceChoices w = Ok (msg, w')
               ∧ length msg = n ∧ length (heap w') = length (heap w) + n)
  ∧ (∃ res w', EntanglementBasedProtocol.decodeMessage backend n message bobChoices w
               = Ok (res, w')
               ∧ length res = 2 * n)
  ∧ (2 * n ≤ length bits → 2 * n ≤ length results → n ≠ 0 →
     ∃ BER, EntanglementBasedProtocol.measureBER n bits results = Ok BER)
  ∧ (2 * n ≤ length results → 2 * n ≤ length bits →
     ∃ kept, EntanglementBasedProtocol.discardBits n results bits aliceChoices bobChoices
             = Ok kept)
  (* shorter inputs *)
  ∧ (∀ bits' bases', length bits' < n ∨ length bases' < n →
       BB84Ideal.encode_message n bits' bases' w = Raise IndexError)
  ∧ (∀ message' bases',
       Forall (λ a, a < length (heap w)) message' →
       (∀ k qc, backend k qc = "0" ∨ backend k qc = "1") →
       length message' < n ∨ length bases' < n →
       BB84Ideal.measure_message backend n message' bases' w = Raise IndexError)
  ∧ (∀ results' bits' aliceBases' bobBases',
       length aliceBases' < n ∨ length bobBases' < n →
       BB84Ideal.discardBits n results' bits' aliceBases' bobBases' = Raise IndexError)
  ∧ (∀ pairs', 2 * n ≤ length bits → length pairs' < n →
       EntanglementBasedProtocol.encodeMessage n bits pairs' w = Raise IndexError)
  ∧ (∀ message' pairs',
       Forall (λ a, a < length (heap w)) message' →
       length message' < n ∨ length pairs' < n →
       EntanglementBasedProtocol.decodeMessage backend n message' pairs' w = Raise IndexError)
  ∧ (∀ results' bits' alicePairs' bobPairs',
       length alicePairs' < n ∨ length bobPairs' < n →
       EntanglementBasedProtocol.discardBits n results' bits' alicePairs' bobPairs'
       = Raise IndexError).
Proof.
  intros Hv Ha Hb Hm.
  split.
  { intros Hbits. eexists _, _. split; [by apply BB84_encode_message_spec|].
    simpl. rewrite length_seq, length_app. unfold Loops.BB84_circuits.
    by rewrite length_map, length_seq. }
  split.
  { intros Hbk. rewrite BB84_measure_message_loop.
    destruct (shot_loop_ok backend message bobChoices BB84Ideal.measuring Loops.BB84_conv 1
                (BB84_conv_total backend Hbk) n w Hv Hm Hb) as (res & w' & Hrun & Hres).
    exists res, w'. split; [done|lia]. }
  split.
  { intros Hr Hbits. eexists. by apply BB84_discardBits_spec. }
  split.
  { intros Hbits. eexists _, _. split; [by apply Ent_encodeMessage_spec|].
    simpl. rewrite length_seq, length_app. unfold Loops.Ent_circuits.
    by rewrite length_map, length_seq. }
  split.
  { rewrite Ent_decodeMessage_loop.
    destruct (shot_loop_ok backend message bobChoices EntanglementBasedProtocol.measuring
                Loops.Ent_conv 2 (Ent_conv_total backend) n w Hv Hm Hb)
      as (res & w' & Hrun & Hres).
    by exists res, w'. }
  split.
  { intros Hbits Hr Hn. eexists. by apply Ent_measureBER_value. }
  split.
  { intros Hr Hbits. eexists. by apply Ent_discardBits_spec. }
  split.
  { intros bits' bases' Hshort. by apply BB84_encode_message_short. }
  split.
  { intros message' bases' Hv' Hbk Hshort. rewrite BB84_measure_message_loop.
    apply shot_loop_raise; [done| |done].
    intros k qc. destruct (BB84_conv_total backend Hbk k qc) as (zs & Hzs & _). eauto. }
  split.
  { intros results' bits' aB bB Hshort. by apply BB84_discardBits_short. }
  split.
  { intros pairs' Hbits Hshort. by apply Ent_encodeMessage_short. }
  split.
  { intros message' pairs' Hv' Hshort. rewrite Ent_decodeMessage_loop.
    apply shot_loop_raise; [done| |done].
    intros k qc. destruct (Ent_conv_total backend k qc) as (zs & Hzs & _). eauto. }
  intros results' bits' aP bP Hshort. by apply Ent_discardBits_short.
Qed.

Lemma configured_size_loops_witness :
  (∃ msg w', BB84Ideal.encode_message 1 [0; 1]%Z [0]%Z (mkWorld [mkQC 1 1 []] [] 0) = Ok (msg, w')
             ∧ length msg = 1 ∧ length (heap w') = length (heap (mkWorld [mkQC 1 1 []] [] 0)) + 1)
  ∧ (∃ res w', BB84Ideal.measure_message (λ _ _, "0") 1 [0] [0]%Z (mkWorld [mkQC 1 1 []] [] 0) = Ok (res, w')
               ∧ length res = 1)
  ∧ (∃ kept, BB84Ideal.discardBits 1 [1; 0]%Z [0; 1]%Z [0]%Z [0]%Z = Ok kept)
  ∧ (∃ msg w', EntanglementBasedProtocol.encodeMessage 1 [0; 1]%Z [0]%Z (mkWorld [mkQC 1 1 []] [] 0) = Ok (msg, w')
               ∧ length msg = 1 ∧ length (heap w') = length (heap (mkWorld [mkQC 1 1 []] [] 0)) + 1)
  ∧ (∃ res w', EntanglementBasedProtocol.decodeMessage (λ _ _, "0") 1 [0] [0]%Z (mkWorld [mkQC 1 1 []] [] 0) = Ok (res, w')
               ∧ length res = 2 * 1)
  ∧ (∃ BER, EntanglementBasedProtocol.measureBER 1 [0; 1]%Z [1; 0]%Z = Ok BER)
  ∧ (∃ kept, EntanglementBasedProtocol.discardBits 1 [1; 0]%Z [0; 1]%Z [0]%Z [0]%Z = Ok kept)
  ∧ BB84Ideal.encode_message 1 [] [0]%Z (mkWorld [mkQC 1 1 []] [] 0) = Raise IndexError
  ∧ BB84Ideal.measure_message (λ _ _, "0") 1 [] [0]%Z (mkWorld [mkQC 1 1 []] [] 0) = Raise IndexError
  ∧ BB84Ideal.discardBits 1 [1; 0]%Z [0; 1]%Z [] [0]%Z = Raise IndexError
  ∧ EntanglementBasedProtocol.encodeMessage 1 [0; 1]%Z [] (mkWorld [mkQC 1 1 []] [] 0) = Raise IndexError
  ∧ EntanglementBasedProtocol.decodeMessage (λ _ _, "0") 1 [0] [] (mkWorld [mkQC 1 1 []] [] 0) = Raise IndexError
  ∧ EntanglementBasedProtocol.discardBits 1 [1; 0]%Z [0; 1]%Z [0]%Z [] = Raise IndexError.
Proof.
  destruct (configured_size_loops (λ _ _, "0") 1 (mkWorld [mkQC 1 1 []] [] 0) [0] [0; 1]%Z [1; 0]%Z [0]%Z [0]%Z)
    as (S1 & S2 & S3 & S4 & S5 & S6 & S7 & N1 & N2 & N3 & N4 & N5 & N6).
  - repeat constructor.
  - simpl. lia.
  - simpl. lia.
  - simpl. lia.
  - split; [apply S1; simpl; lia|].
    split; [apply S2; intros; by left|].
    split; [apply S3; simpl; lia|].
    split; [apply S4; simpl; lia|].
    split; [exact S5|].
    split; [apply S6; simpl; lia|].
    split; [apply S7; simpl; lia|].
    split; [apply N1; simpl; lia|].
    split; [apply N2; [constructor|intros; by left|simpl; lia]|].
    split; [apply N3; simpl; lia|].
    split; [apply N4; simpl; lia|].
    split; [apply N5; [repeat constructor|simpl; lia]|].
    apply N6; simpl; lia.
Defined.

(** ** Decoding changes the circuits of the message *)

Lemma run_circuit_eq (message : list nat) (choices : list Z) (ops : Z → list instr)
    (h : list QuantumCircuit) (q a : nat) (qc : QuantumCircuit) :
  q < length choices → message !! q = Some a → h !! a = Some qc →
  Loops.run_circuit message choices ops h q = extend qc (ops (nth q choices 0%Z)).
Proof.
  intros Hq Ha Hqc. unfold Loops.run_circuit.
  by rewrite Ha, (nth_lookup_lt choices q Hq), Hqc.
Qed.

Lemma run_circuits_lookup (message : list nat) (choices : list Z) (ops : Z → list instr)
    (h s : list QuantumCircuit) (n q : nat) :
  q < n →
  (s ++ Loops.run_circuits message choices ops h n) !! (length s + q)
  = Some (Loops.run_circuit message choices ops h q).
Proof.
  intros Hq. rewrite lookup_app_r by lia.
  replace (length s + q - length s) with q by lia.
  unfold Loops.run_circuits. change (map ?f ?l) with (f <$> l).
  by rewrite list_lookup_fmap, lookup_seq_lt.
Qed.

Section DecodeTwice.
Variable backend : nat → QuantumCircuit → string.
Variable message : list nat.
Variable ops : Z → list instr.
Variable conv : string → result (list Z).
Variable m : nat.
Hypothesis conv_total : ∀ k qc, ∃ zs, conv (backend k qc) = Ok zs ∧ length zs = m.

Lemma shot_loop_twice (choices choices2 : list Z) (n : nat) (w : world) :
  NoDup message →
  Forall (λ a, a < length (heap w)) message →
  n ≤ length message → n ≤ length choices → n ≤ length choices2 →
  ∃ res1 w1 res2 w2,
    for_range n (Loops.shot_body backend message choices ops conv) [] w = Ok (res1, w1)
    ∧ for_range n (Loops.shot_body backend message choices2 ops conv) [] w1 = Ok (res2, w2)
    ∧ (∀ a, (∀ q, q < n → message !! q ≠ Some a) → heap w1 !! a = heap w !! a)
    ∧ ∀ q a qc, q < n → message !! q = Some a → heap w !! a = Some qc →
        let qc1 := extend qc (ops (nth q choices 0%Z)) in
        let qc2 := extend qc1 (ops (nth q choices2 0%Z)) in
        heap w1 !! a = Some qc1
        ∧ submitted w1 !! (length (submitted w) + q) = Some qc1
        ∧ heap w2 !! a = Some qc2
        ∧ submitted w2 !! (length (submitted w1) + q) = Some qc2.
Proof.
  intros Hnd Hv Hm Hc Hc2.
  destruct (shot_loop_total backend message choices ops conv m conv_total n w Hnd Hv Hm Hc)
    as (res1 & h1 & Hrun1 & Hlen1 & Hin1 & Hout1).
  set (w1 := mkWorld h1 _ _) in Hrun1.
  assert (Hv1 : Forall (λ a, a < length (heap w1)) message) by (simpl; by rewrite Hlen1).
  destruct (shot_loop_total backend message choices2 ops conv m conv_total n w1 Hnd Hv1 Hm Hc2)
    as (res2 & h2 & Hrun2 & Hlen2 & Hin2 & Hout2).
  exists res1, w1, res2, (mkWorld h2 (submitted w1
                            ++ Loops.run_circuits message choices2 ops (heap w1) n) (draws w1)).
  split; [exact Hrun1|]. split; [exact Hrun2|]. split; [exact Hout1|].
  intros q a qc Hq Ha Hqc. cbv zeta.
  pose proof (run_circuit_eq message choices ops (heap w) q a qc ltac:(lia) Ha Hqc) as E1.
  assert (H1 : heap w1 !! a = Some (extend qc (ops (nth q choices 0%Z)))).
  { simpl. rewrite (Hin1 q a Hq Ha). by rewrite E1. }
  pose proof (run_circuit_eq message choices2 ops (heap w1) q a _ ltac:(lia) Ha H1) as E2.
  split; [exact H1|]. split.
  { subst w1. simpl. rewrite run_circuits_lookup by done. by rewrite E1. }
  split.
  { simpl. rewrite (Hin2 q a Hq Ha). by rewrite E2. }
  rewrite <- E2.
  apply (run_circuits_lookup message choices2 ops (heap w1) (submitted w1) n q Hq).
Qed.
End DecodeTwice.

(** C10: [measure_message] and [decodeMessage] change the circuits of the
    message they are given: each circuit gets the receiver's instructions
    appended (for BB84 a Hadamard gate in the X basis, then the measurement;
    for the entanglement protocol a CNOT and a Hadamard gate on each pair,
    then the four measurements), and is run as extended; the other objects
    of the store are untouched.  A second decoding of the same message
    therefore runs circuits that already hold the first decoding's
    measurements. *)
Theorem decoders_mutate_in_place (backend : nat → QuantumCircuit → string) (n : nat)
    (message : list nat) (choices choices2 : list Z) (w : world) :
  NoDup message →
  Forall (λ a, a < length (heap w)) message →
  n ≤ length message → n ≤ length choices → n ≤ length choices2 →
  ((∀ k qc, backend k qc = "0" ∨ backend k qc = "1") →
   ∃ res1 w1 res2 w2,
     BB84Ideal.measure_message backend n message choices w = Ok (res1, w1)
     ∧ BB84Ideal.measure_message backend n message choices2 w1 = Ok (res2, w2)
     ∧ (∀ a, (∀ q, q < n → message !! q ≠ Some a) → heap w1 !! a = heap w !! a)
     ∧ ∀ q a qc, q < n → message !! q = Some a → heap w !! a = Some qc →
         let qc1 := extend qc (BB84Ideal.measuring (nth q choices 0%Z)) in
         let qc2 := extend qc1 (BB84Ideal.measuring (nth q choices2 0%Z)) in
         heap w1 !! a = Some qc1
         ∧ submitted w1 !! (length (submitted w) + q) = Some qc1
         ∧ heap w2 !! a = Some qc2
         ∧ submitted w2 !! (length (submitted w1) + q) = Some qc2)
  ∧ (∃ res1 w1 res2 w2,
       EntanglementBasedProtocol.decodeMessage backend n message choices w = Ok (res1, w1)
       ∧ EntanglementBasedProtocol.decodeMessage backend n message choices2 w1 = Ok (res2, w2)
       ∧ (∀ a, (∀ q, q < n → message !! q ≠ Some a) → heap w1 !! a = heap w !! a)
       ∧ ∀ q a qc, q < n → message !! q = Some a → heap w !! a = Some qc →
           let qc1 := extend qc (EntanglementBasedProtocol.measuring (nth q choices 0%Z)) in
           let qc2 := extend qc1 (EntanglementBasedProtocol.measuring (nth q choices2 0%Z)) in
           heap w1 !! a = Some qc1
           ∧ submitted w1 !! (length (submitted w) + q) = Some qc1
           ∧ heap w2 !! a = Some qc2
           ∧ submitted w2 !! (length (submitted w1) + q) = Some qc2)
  ∧ BB84Ideal.measuring 0 = [Measure 0 0]
  ∧ BB84Ideal.measuring 1 = [Gate_h 0; Measure 0 0]
  ∧ ∀ label,
      EntanglementBasedProtocol.measuring label
      = let '(p1, p2) := EntanglementBasedProtocol.pairing label in
        [Gate_cx p1.1 p1.2; Gate_h p1.1; Gate_cx p2.1 p2.2; Gate_h p2.1;
         Measure p1.1 3; Measure p1.2 2; Measure p2.1 1; Measure p2.2 0].
Proof.
  intros Hnd Hv Hm Hc Hc2. split.
  { intros Hbk.
    destruct (shot_loop_twice backend message BB84Ideal.measuring Loops.BB84_conv 1
                (BB84_conv_total backend Hbk) choices choices2 n w Hnd Hv Hm Hc Hc2)
      as (res1 & w1 & res2 & w2 & H1 & H2 & H3 & H4).
    exists res1, w1, res2, w2. rewrite !BB84_measure_message_loop. done. }
  split.
  { destruct (shot_loop_twice backend message EntanglementBasedProtocol.measuring
                Loops.Ent_conv 2 (Ent_conv_total backend) choices choices2 n w Hnd Hv Hm Hc Hc2)
      as (res1 & w1 & res2 & w2 & H1 & H2 & H3 & H4).
    exists res1, w1, res2, w2. rewrite !Ent_decodeMessage_loop. done. }
  split; [reflexivity|]. split; [reflexivity|]. reflexivity.
Qed.

Lemma decoders_mutate_in_place_witness :
  ∃ res1 w1 res2 w2,
    BB84Ideal.measure_message (λ _ _, "0") 1 [0] [1]%Z
      (mkWorld [mkQC 1 1 [Gate_h 0; Barrier]] [] 0) = Ok (res1, w1)
    ∧ BB84Ideal.measure_message (λ _ _, "0") 1 [0] [0]%Z w1 = Ok (res2, w2)
    ∧ heap w1 !! 0 = Some (mkQC 1 1 [Gate_h 0; Barrier; Gate_h 0; Measure 0 0])
    ∧ submitted w1 !! 0 = Some (mkQC 1 1 [Gate_h 0; Barrier; Gate_h 0; Measure 0 0])
    ∧ heap w2 !! 0
      = Some (mkQC 1 1 [Gate_h 0; Barrier; Gate_h 0; Measure 0 0; Measure 0 0])
    ∧ submitted w2 !! 1
      = Some (mkQC 1 1 [Gate_h 0; Barrier; Gate_h 0; Measure 0 0; Measure 0 0]).
Proof.
  destruct (decoders_mutate_in_place (λ _ _, "0") 1 [0] [1]%Z [0]%Z
              (mkWorld [mkQC 1 1 [Gate_h 0; Barrier]] [] 0)) as (H & _).
  - repeat constructor; intros Hin; inversion Hin.
  - repeat constructor.
  - simpl. lia.
  - simpl. lia.
  - simpl. lia.
  - destruct H as (res1 & w1 & res2 & w2 & H1 & H2 & _ & H4); [intros; by left|].
    exists res1, w1, res2, w2. split; [exact H1|]. split; [exact H2|].
    destruct (H4 0 0 (mkQC 1 1 [Gate_h 0; Barrier])) as (A & B & C & D);
      [lia|reflexivity|reflexivity|].
    assert (Hs : length (submitted w1) = 1).
    { apply lookup_lt_Some in B as Hlt. simpl in Hlt.
      vm_compute in H1. injection H1 as _ <-. reflexivity. }
    rewrite Hs in D. auto.
Defined.

(** ** The Bell states of an encoded block *)


(** X19: what the gates of the encoder prepare.  For every 2-bit block and
    every pairing label, the encoder first prepares phi+ on both pairs
    (Hadamard on the pair's first qubit, then CNOT onto its partner) and then
    applies X and Z gates only; with the standard names of the Bell states,
    these gates leave the two pairs in (0,0): phi+, psi+; (0,1): psi+, phi+;
    (1,0): phi-, psi-; (1,1): psi-, phi-, which are not the states the
    script's comments name. *)
Theorem encoded_block_bell_states (b0 b1 label : Z) :
  is_bit b0 → is_bit b1 →
  let '(p1, p2) := EntanglementBasedProtocol.pairing label in
  EntanglementBasedProtocol.encoding b0 b1 label
  = [Gate_h p1.1; Gate_cx p1.1 p1.2; Gate_h p2.1; Gate_cx p2.1 p2.2] ++ [Barrier]
    ++ EntanglementBasedProtocol.bell_conversion p1 p2 b0 b1 ++ [Barrier]
  ∧ state_of 4 [Gate_h p1.1; Gate_cx p1.1 p1.2; Gate_h p2.1; Gate_cx p2.1 p2.2]
    = EntanglementBasedProtocol.bell_pairs p1 p2
        EntanglementBasedProtocol.PhiPlus EntanglementBasedProtocol.PhiPlus
  ∧ Forall (λ g, ∃ q, g = Gate_x q ∨ g = Gate_z q)
           (EntanglementBasedProtocol.bell_conversion p1 p2 b0 b1)
  ∧ state_of 4 (EntanglementBasedProtocol.encoding b0 b1 label)
    = EntanglementBasedProtocol.bell_pairs p1 p2
        (EntanglementBasedProtocol.prepared b0 b1).1
        (EntanglementBasedProtocol.prepared b0 b1).2
  ∧ ∀ n bits pairs w i,
      2 * n ≤ length bits → n ≤ length pairs → i < n →
      bits !! (2 * i) = Some b0 → bits !! (2 * i + 1) = Some b1 → pairs !! i = Some label →
      ∃ w', EntanglementBasedProtocol.encodeMessage n bits pairs w
            = Ok (seq (length (heap w)) n, w')
            ∧ heap w' !! (length (heap w) + i)
              = Some (mkQC 4 4 (EntanglementBasedProtocol.encoding b0 b1 label)).
Proof.
  intros H0 H1.
  assert (Hstore : ∀ n bits pairs w i,
      2 * n ≤ length bits → n ≤ length pairs → i < n →
      bits !! (2 * i) = Some b0 → bits !! (2 * i + 1) = Some b1 → pairs !! i = Some label →
      ∃ w', EntanglementBasedProtocol.encodeMessage n bits pairs w
            = Ok (seq (length (heap w)) n, w')
            ∧ heap w' !! (length (heap w) + i)
              = Some (mkQC 4 4 (EntanglementBasedProtocol.encoding b0 b1 label))).
  { intros n bits pairs w i Hb Hp Hi E0 E1 El.
    eexists. split; [by apply Ent_encodeMessage_spec|]. simpl.
    rewrite lookup_app_r by lia. replace (length (heap w) + i - length (heap w)) with i by lia.
    unfold Loops.Ent_circuits. change (map ?f ?l) with (f <$> l).
    rewrite list_lookup_fmap, lookup_seq_lt by done. simpl.
    replace (i + (i + 0)) with (2 * i) by lia.
    apply nth_lookup_Some with (d := 0%Z) in E0, E1, El. by rewrite E0, E1, El. }
  revert Hstore.
  unfold EntanglementBasedProtocol.encoding.
  destruct (pairing_cases label) as [-> | [-> | ->]];
    destruct H0 as [-> | ->]; destruct H1 as [-> | ->]; intros Hstore;
    (split; [reflexivity|]); (split; [vm_compute; reflexivity|]);
    (split; [repeat constructor; eauto|]); (split; [vm_compute; reflexivity|]);
    exact Hstore.
Qed.

Lemma encoded_block_bell_states_witness :
  state_of 4 (EntanglementBasedProtocol.encoding 1 0 2)
  = EntanglementBasedProtocol.bell_pairs (0, 3) (1, 2)
      EntanglementBasedProtocol.PhiMinus EntanglementBasedProtocol.PsiMinus
  ∧ ∃ w', EntanglementBasedProtocol.encodeMessage 1 [1; 0]%Z [2]%Z (mkWorld [] [] 0)
          = Ok ([0], w')
          ∧ heap w' !! 0 = Some (mkQC 4 4 (EntanglementBasedProtocol.encoding 1 0 2)).
Proof.
  pose proof (encoded_block_bell_states 1 0 2) as H. cbv beta iota zeta in H.
  change (EntanglementBasedProtocol.pairing 2) with ((0, 3), (1, 2)) in H.
  destruct H as (_ & _ & _ & Hstate & Hstore).
  - by right.
  - by left.
  - split; [exact Hstate|].
    apply (Hstore 1 [1; 0]%Z [2]%Z (mkWorld [] [] 0) 0); simpl; (lia || reflexivity).
Defined.

(** ** The BB84 driver *)

Section Driver.
Variable backend : nat → QuantumCircuit → string.
Variable rng : nat → Z → nat → list Z.
Variable numBits : nat.

Local Abbreviation runProtocol := (BB84Ideal.runProtocol backend rng numBits).
Local Abbreviation sifted_key := (BB84Ideal.sifted_key backend rng numBits).
Local Abbreviation retry := (BB84Ideal.retry backend rng numBits).
Local Abbreviation trial := (BB84Ideal.trial backend rng numBits).
Local Abbreviation tests := (BB84Ideal.tests backend rng numBits).
Local Abbreviation loggable := (BB84Ideal.loggable backend rng numBits).
Local Abbreviation driver_invariant := (BB84Ideal.driver_invariant backend rng numBits).

Lemma runProtocol_inv (v : value) (w w' : world) :
  runProtocol w = Ok (v, w') →
  ∃ newResults newAliceBits,
    sifted_key w = Ok ((newResults, newAliceBits), w')
    ∧ BB84Ideal.measureQBER newResults newAliceBits = Ok v.
Proof.
  unfold BB84Ideal.runProtocol, mbind, M_bind, lift.
  destruct (sifted_key w) as [[[nr na] w1]|e]; [|done].
  destruct (BB84Ideal.measureQBER nr na) as [v'|e] eqn:E; [|done].
  intros [= <- <-]. eauto.
Qed.

Lemma BB84_measureQBER_cases (nr na : list Z) (v : value) :
  BB84Ideal.measureQBER nr na = Ok v →
  (v = PyStr "null" ∧ nr = []) ∨ ((∃ q, v = PyFloat q) ∧ nr ≠ []).
Proof.
  unfold BB84Ideal.measureQBER. destruct nr as [|x nr]; simpl Nat.eqb; cbv iota.
  - intros [= <-]. by left.
  - destruct (for_range _ _ _); simpl; [|done]. intros [= <-]. right. eauto.
Qed.

Lemma py_eq_null (v : value) : py_eq v (PyStr "null") = true ↔ v = PyStr "null".
Proof.
  destruct v as [s| |]; simpl; try (split; discriminate).
  rewrite String.eqb_eq. split; congruence.
Qed.

Lemma runProtocol_loggable (v : value) (w w' : world) :
  runProtocol w = Ok (v, w') → py_eq v (PyStr "null") = false → loggable v.
Proof.
  intros Hrun Hne.
  assert (Hv : v ≠ PyStr "null").
  { intros Hv. apply py_eq_null in Hv. congruence. }
  destruct (runProtocol_inv v w w' Hrun) as (nr & na & Hkey & Hq).
  destruct (BB84_measureQBER_cases nr na v Hq) as [[? _]|[Hf Hnr]]; [done|].
  split; [done|]. split; [done|]. by exists w, w', nr, na.
Qed.

Lemma retry_loggable (fuel : nat) (QBER v : value) (w w' : world) :
  (py_eq QBER (PyStr "null") = false → loggable QBER) →
  retry fuel QBER w = Some (Ok (v, w')) → loggable v.
Proof.
  revert QBER w. induction fuel as [|fuel IH]; intros QBER w HQ; simpl;
    destruct (py_eq QBER (PyStr "null")) eqn:E.
  - done.
  - intros [= <- <-]. by apply HQ.
  - destruct (runProtocol w) as [[Q' w1]|e] eqn:Hrun; [|done].
    apply IH. intros HQ'. by apply (runProtocol_loggable Q' w w1).
  - intros [= <- <-]. by apply HQ.
Qed.

Lemma trial_loggable (fuel : nat) (v : value) (w w' : world) :
  trial fuel w = Some (Ok (v, w')) → loggable v.
Proof.
  unfold BB84Ideal.trial.
  destruct (runProtocol w) as [[Q w1]|e] eqn:Hrun; [|done].
  apply retry_loggable. intros HQ. by apply (runProtocol_loggable Q w w1).
Qed.

Lemma trial_retries (fuel : nat) (w w' : world) :
  runProtocol w = Ok (PyStr "null", w') → trial (S fuel) w = trial fuel w'.
Proof. intros Hrun. unfold BB84Ideal.trial. rewrite Hrun. reflexivity. Qed.

Lemma accumulate_snoc (l : list value) (v : value) :
  BB84Ideal.accumulate (l ++ [v]) = (total ← BB84Ideal.accumulate l; py_add total v).
Proof. unfold BB84Ideal.accumulate. by rewrite fold_left_app. Qed.

Lemma tests_invariant (fuel n : nat) (d : BB84Ideal.driver) (w : world) :
  driver_invariant d →
  driver_invariant (tests fuel n d w).2
  ∧ ((tests fuel n d w).1 = BB84Ideal.Finished →
     length (BB84Ideal.f (tests fuel n d w).2) = length (BB84Ideal.f d) + n).
Proof.
  revert d w. induction n as [|n IH]; intros d w Hd; simpl.
  - split; [done|]. intros _. lia.
  - destruct (trial fuel w) as [[[v w']|e]|] eqn:Ht; simpl; [| |]; try (split; [done|done]).
    destruct (py_add (BB84Ideal.avgQBER d) v) as [total|e] eqn:Hadd; [|by split].
    destruct Hd as (Hf & Hlog & Hacc).
    destruct (IH (BB84Ideal.mkDriver total (BB84Ideal.allQBER d ++ [v]) (BB84Ideal.f d ++ [v])) w')
      as [Hinv Hlen].
    + split; [simpl; by rewrite Hf|]. split.
      * simpl. apply Forall_app. split; [done|]. constructor; [|constructor].
        by apply (trial_loggable fuel v w w').
      * simpl. rewrite accumulate_snoc, Hacc. simpl. exact Hadd.
    + split; [exact Hinv|]. intros Hfin. rewrite (Hlen Hfin). simpl.
      rewrite length_app. simpl. lia.
Qed.

Lemma tests_enough_fuel (fuel n : nat) (d : BB84Ideal.driver) (w : world) :
  (∀ w0, trial fuel w0 ≠ None) → (tests fuel n d w).1 ≠ BB84Ideal.OutOfFuel.
Proof.
  intros Hfuel. revert d w. induction n as [|n IH]; intros d w; simpl; [done|].
  destruct (trial fuel w) as [[[v w']|e]|] eqn:Ht; simpl; [| |by apply Hfuel in Ht]; [|done].
  destruct (py_add (BB84Ideal.avgQBER d) v); [apply IH|done].
Qed.

Lemma runProtocol_no_bits (w : world) :
  numBits = 0 →
  runProtocol w = Ok (PyStr "null", mkWorld (heap w) (submitted w) (4 + draws w)).
Proof. intros Hn. unfold BB84Ideal.runProtocol, BB84Ideal.sifted_key. rewrite Hn. reflexivity. Qed.

Lemma trial_no_bits (fuel : nat) (w : world) : numBits = 0 → trial fuel w = None.
Proof.
  intros Hn. unfold BB84Ideal.trial. rewrite (runProtocol_no_bits w Hn).
  generalize (mkWorld (heap w) (submitted w) (4 + draws w)). clear w.
  induction fuel as [|fuel IH]; intros w; simpl; [done|].
  rewrite (runProtocol_no_bits w Hn). apply IH.
Qed.

End Driver.



(** ** One run of the protocol, with and without the eavesdropper *)

Section FreshTotal.
Variable backend : nat → QuantumCircuit → string.
Variable ops : Z → list instr.
Variable conv : string → result (list Z).
Variable m : nat.
Hypothesis conv_total : ∀ k qc, ∃ zs, conv (backend k qc) = Ok zs ∧ length zs = m.

Lemma shot_fresh_total (choices : list Z) (h cs s : list QuantumCircuit) (d n : nat) :
  length cs = n → n ≤ length choices →
  ∃ res h', for_range n (Loops.shot_body backend (seq (length h) n) choices ops conv) []
              (mkWorld (h ++ cs) s d)
            = Ok (res, mkWorld h' (s ++ Loops.measured ops cs choices) d)
          ∧ length h' = length h + n
          ∧ length res = m * n.
Proof.
  intros Hcs Hch.
  set (zs := λ q, match cs !! q with
                  | Some qc =>
                      match conv (backend (length s + q) (extend qc (ops (nth q choices 0%Z)))) with
                      | Ok z => z
                      | Raise _ => []
                      end
                  | None => []
                  end).
  destruct (shot_loop_fresh backend choices ops conv zs h cs s d n Hcs Hch) as (h' & Hrun & Hlen).
  { intros q qc Hq. unfold zs. rewrite Hq.
    by destruct (conv_total (length s + q) (extend qc (ops (nth q choices 0%Z)))) as (z & -> & _). }
  destruct (shot_loop_ok backend (seq (length h) n) choices ops conv m conv_total n
              (mkWorld (h ++ cs) s d)) as (res & w' & Hrun' & Hres).
  { simpl. apply Forall_forall. intros a Ha. apply elem_of_seq in Ha. rewrite length_app. lia. }
  { by rewrite length_seq. }
  { done. }
  rewrite Hrun in Hrun'. injection Hrun' as <- <-.
  eauto.
Qed.
End FreshTotal.

Lemma Ent_measureQBER_ok (r a : list Z) :
  length r = length a → Nat.even (length r) = true →
  ∃ v, EntanglementBasedProtocol.measureQBER r a = Ok v.
Proof.
  intros Hlen Hev. destruct (decide (r = [])) as [->|Hne]; [by exists (PyInt 1)|].
  eexists. by apply Ent_measureQBER_value.
Qed.

Lemma Ent_sift_and_score (n : nat) (results aliceBits alicePairs bobPairs : list Z) :
  2 * n ≤ length results → 2 * n ≤ length aliceBits →
  n ≤ length alicePairs → n ≤ length bobPairs → n ≠ 0 →
  ∃ BER kept QBER,
    EntanglementBasedProtocol.measureBER n aliceBits results = Ok BER
    ∧ EntanglementBasedProtocol.discardBits n results aliceBits alicePairs bobPairs = Ok kept
    ∧ EntanglementBasedProtocol.measureQBER kept.1 kept.2 = Ok QBER.
Proof.
  intros Hr Ha Hap Hbp Hn.
  destruct (Ent_measureQBER_ok
              (flat_map (block_at results) (kept n alicePairs bobPairs))
              (flat_map (block_at aliceBits) (kept n alicePairs bobPairs))) as [QBER HQ].
  { unfold block_at. by rewrite !blocks_length. }
  { unfold block_at. rewrite blocks_length. apply Nat.even_spec. by eexists. }
  eexists _, _, QBER. split; [by apply Ent_measureBER_value|].
  split; [by apply Ent_discardBits_spec|]. exact HQ.
Qed.

Section EntTrial.
Variable backend : nat → QuantumCircuit → string.
Variable rng : nat → Z → nat → list Z.
Variable n : nat.
Hypothesis rng_sized : ∀ k high size, length (rng k high size) = size.
Hypothesis n_pos : n ≠ 0.

Lemma Ent_decode_fresh (pairs : list Z) (h cs s : list QuantumCircuit) (d : nat) :
  length cs = n → n ≤ length pairs →
  ∃ res h', EntanglementBasedProtocol.decodeMessage backend n (seq (length h) n) pairs
              (mkWorld (h ++ cs) s d)
            = Ok (res, mkWorld h' (s ++ Loops.measured EntanglementBasedProtocol.measuring cs pairs) d)
          ∧ length h' = length h + n
          ∧ length res = 2 * n.
Proof.
  intros Hcs Hp. rewrite Ent_decodeMessage_loop.
  apply (shot_fresh_total backend EntanglementBasedProtocol.measuring Loops.Ent_conv 2
           (Ent_conv_total backend)); done.
Qed.

Lemma Ent_circuits_length (bits pairs : list Z) : length (Loops.Ent_circuits n bits pairs) = n.
Proof. unfold Loops.Ent_circuits. by rewrite length_map, length_seq. Qed.

(** The tail of [runProtocol], from the receiver's results on. *)
Lemma Ent_score_tail (results aliceBits alicePairs bobPairs : list Z) (w : world) :
  length results = 2 * n → length aliceBits = 2 * n →
  length alicePairs = n → length bobPairs = n →
  ∃ QBER newResults newAliceBits,
    (BER ← lift (EntanglementBasedProtocol.measureBER n aliceBits results);
     '(newResults, newAliceBits) ←
        lift (EntanglementBasedProtocol.discardBits n results aliceBits alicePairs bobPairs);
     QBER ← lift (EntanglementBasedProtocol.measureQBER newResults newAliceBits);
     mret QBER) w = Ok (QBER, w)
    ∧ EntanglementBasedProtocol.discardBits n results aliceBits alicePairs bobPairs
      = Ok (newResults, newAliceBits)
    ∧ EntanglementBasedProtocol.measureQBER newResults newAliceBits = Ok QBER.
Proof.
  intros Hr Ha Hap Hbp.
  destruct (Ent_sift_and_score n results aliceBits alicePairs bobPairs)
    as (BER & [nr na] & QBER & HB & HK & HQ); try lia.
  exists QBER, nr, na. split; [|split; [exact HK|exact HQ]].
  unfold mbind, M_bind, lift. rewrite HB, HK. simpl in HQ. by rewrite HQ.
Qed.

(** Without the eavesdropper the receiver decodes the sender's circuits,
    and the trial scores what he decoded. *)
Lemma Ent_runProtocol_no_eve (w : world) :
  ∃ QBER w' bobResults newResults newAliceBits,
    EntanglementBasedProtocol.runProtocol backend rng n false w = Ok (QBER, w')
    ∧ EntanglementBasedProtocol.decodeMessage backend n (seq (length (heap w)) n)
        (rng (S (S (draws w))) 3 n)
        (mkWorld (heap w ++ Loops.Ent_circuits n (rng (draws w) 2 (2 * n))
                              (rng (S (draws w)) 3 n))
                 (submitted w) (S (S (S (draws w)))))
      = Ok (bobResults, w')
    ∧ EntanglementBasedProtocol.discardBits n bobResults (rng (draws w) 2 (2 * n))
        (rng (S (draws w)) 3 n) (rng (S (S (draws w))) 3 n)
      = Ok (newResults, newAliceBits)
    ∧ EntanglementBasedProtocol.measureQBER newResults newAliceBits = Ok QBER
    ∧ submitted w'
      = submitted w
        ++ Loops.measured EntanglementBasedProtocol.measuring
             (Loops.Ent_circuits n (rng (draws w) 2 (2 * n)) (rng (S (draws w)) 3 n))
             (rng (S (S (draws w))) 3 n).
Proof.
  destruct w as [h s d]. unfold EntanglementBasedProtocol.runProtocol.
  unfold mbind, M_bind, randint.
  cbn [heap submitted draws].
  rewrite Ent_encodeMessage_spec by (rewrite rng_sized; lia).
  cbn [heap submitted draws mret M_ret].
  destruct (Ent_decode_fresh (rng (S (S d)) 3 n) h
              (Loops.Ent_circuits n (rng d 2 (2 * n)) (rng (S d) 3 n)) s (S (S (S d))))
    as (res & h' & Hrun & Hlen & Hres).
  { apply Ent_circuits_length. }
  { by rewrite rng_sized. }
  rewrite Hrun.
  destruct (Ent_score_tail res (rng d 2 (2 * n)) (rng (S d) 3 n) (rng (S (S d)) 3 n)
              (mkWorld h' (s ++ Loops.measured EntanglementBasedProtocol.measuring
                                 (Loops.Ent_circuits n (rng d 2 (2 * n)) (rng (S d) 3 n))
                                 (rng (S (S d)) 3 n)) (S (S (S d)))))
    as (QBER & nr & na & HQ & HK & HS); rewrite ?rng_sized; try done.
  eexists QBER, _, res, nr, na. split; [exact HQ|]. split; [reflexivity|].
  split; [exact HK|]. split; [exact HS|reflexivity].
Qed.

(** With the eavesdropper, she decodes the sender's circuits, the receiver
    decodes the circuits she encodes from what she decoded, and the trial
    scores what he decoded. *)
Lemma Ent_runProtocol_eve (w : world) :
  ∃ QBER w' eveResults w1 bobResults newResults newAliceBits,
    EntanglementBasedProtocol.runProtocol backend rng n true w = Ok (QBER, w')
    ∧ EntanglementBasedProtocol.decodeMessage backend n (seq (length (heap w)) n)
        (rng (S (S (draws w))) 3 n)
        (mkWorld (heap w ++ Loops.Ent_circuits n (rng (draws w) 2 (2 * n))
                              (rng (S (draws w)) 3 n))
                 (submitted w) (S (S (S (draws w)))))
      = Ok (eveResults, w1)
    ∧ EntanglementBasedProtocol.decodeMessage backend n (seq (length (heap w1)) n)
        (rng (S (S (S (draws w)))) 3 n)
        (mkWorld (heap w1 ++ Loops.Ent_circuits n eveResults (rng (S (S (draws w))) 3 n))
                 (submitted w1) (S (S (S (S (draws w))))))
      = Ok (bobResults, w')
    ∧ EntanglementBasedProtocol.discardBits n bobResults (rng (draws w) 2 (2 * n))
        (rng (S (draws w)) 3 n) (rng (S (S (S (draws w)))) 3 n)
      = Ok (newResults, newAliceBits)
    ∧ EntanglementBasedProtocol.measureQBER newResults newAliceBits = Ok QBER
    ∧ length eveResults = 2 * n
    ∧ submitted w'
      = submitted w
        ++ Loops.measured EntanglementBasedProtocol.measuring
             (Loops.Ent_circuits n (rng (draws w) 2 (2 * n)) (rng (S (draws w)) 3 n))
             (rng (S (S (draws w))) 3 n)
        ++ Loops.measured EntanglementBasedProtocol.measuring
             (Loops.Ent_circuits n eveResults (rng (S (S (draws w))) 3 n))
             (rng (S (S (S (draws w)))) 3 n).
Proof.
  destruct w as [h s d]. unfold EntanglementBasedProtocol.runProtocol.
  unfold mbind, M_bind, randint.
  cbn [heap submitted draws].
  rewrite Ent_encodeMessage_spec by (rewrite rng_sized; lia).
  cbn [heap submitted draws mret M_ret].
  unfold EntanglementBasedProtocol.eveMeasureAndDecode.
  unfold mbind, M_bind, randint.
  cbn [heap submitted draws].
  destruct (Ent_decode_fresh (rng (S (S d)) 3 n) h
              (Loops.Ent_circuits n (rng d 2 (2 * n)) (rng (S d) 3 n)) s (S (S (S d))))
    as (eveResults & h1 & Hrun1 & Hlen1 & Hres1).
  { apply Ent_circuits_length. }
  { by rewrite rng_sized. }
  rewrite Hrun1.
  rewrite Ent_encodeMessage_spec by (rewrite ?rng_sized; lia).
  cbn [heap submitted draws mret M_ret].
  destruct (Ent_decode_fresh (rng (S (S (S d))) 3 n) h1
              (Loops.Ent_circuits n eveResults (rng (S (S d)) 3 n))
              (s ++ Loops.measured EntanglementBasedProtocol.measuring
                      (Loops.Ent_circuits n (rng d 2 (2 * n)) (rng (S d) 3 n))
                      (rng (S (S d)) 3 n)) (S (S (S (S d)))))
    as (res & h2 & Hrun2 & Hlen2 & Hres2).
  { apply Ent_circuits_length. }
  { by rewrite rng_sized. }
  rewrite Hrun2.
  destruct (Ent_score_tail res (rng d 2 (2 * n)) (rng (S d) 3 n) (rng (S (S (S d))) 3 n)
              (mkWorld h2 ((s ++ Loops.measured EntanglementBasedProtocol.measuring
                                 (Loops.Ent_circuits n (rng d 2 (2 * n)) (rng (S d) 3 n))
                                 (rng (S (S d)) 3 n))
                           ++ Loops.measured EntanglementBasedProtocol.measuring
                                (Loops.Ent_circuits n eveResults (rng (S (S d)) 3 n))
                                (rng (S (S (S d))) 3 n)) (S (S (S (S d))))))
    as (QBER & nr & na & HQ & HK & HS); rewrite ?rng_sized; try done.
  eexists QBER, _, eveResults, _, res, nr, na. split; [exact HQ|].
  split; [reflexivity|]. split; [exact Hrun2|]. split; [exact HK|]. split; [exact HS|].
  split; [done|]. cbn [submitted]. by rewrite <- app_assoc.
Qed.
End EntTrial.

Section BB84Trial.
Variable backend : nat → QuantumCircuit → string.
Variable rng : nat → Z → nat → list Z.
Variable n : nat.
Hypothesis rng_sized : ∀ k high size, length (rng k high size) = size.
Hypothesis backend_bit : ∀ k qc, backend k qc = "0" ∨ backend k qc = "1".

Lemma BB84_decode_fresh (bases : list Z) (h cs s : list QuantumCircuit) (d : nat) :
  length cs = n → n ≤ length bases →
  ∃ res h', BB84Ideal.measure_message backend n (seq (length h) n) bases
              (mkWorld (h ++ cs) s d)
            = Ok (res, mkWorld h' (s ++ Loops.measured BB84Ideal.measuring cs bases) d)
          ∧ length h' = length h + n
          ∧ length res = 1 * n.
Proof.
  intros Hcs Hp. rewrite BB84_measure_message_loop.
  apply (shot_fresh_total backend BB84Ideal.measuring Loops.BB84_conv 1
           (BB84_conv_total backend backend_bit)); done.
Qed.

Lemma BB84_circuits_length (bits bases : list Z) : length (Loops.BB84_circuits n bits bases) = n.
Proof. unfold Loops.BB84_circuits. by rewrite length_map, length_seq. Qed.

Lemma BB84_measureQBER_ok (r a : list Z) :
  length r = length a → ∃ v, BB84Ideal.measureQBER r a = Ok v.
Proof.
  intros Hlen. destruct (decide (r = [])) as [->|Hne]; [by exists (PyStr "null")|].
  eexists. by apply BB84_measureQBER_rate.
Qed.

(** BB84's [runProtocol] has no branch: the eavesdropper measures the
    sender's circuits, the receiver measures the circuits she encodes from
    what she measured, and the trial scores what he measured. *)
Lemma BB84_runProtocol_intercepts (w : world) :
  ∃ QBER w' eveResults w1 bobResults newResults newAliceBits,
    BB84Ideal.runProtocol backend rng n w = Ok (QBER, w')
    ∧ BB84Ideal.measure_message backend n (seq (length (heap w)) n)
        (rng (S (S (draws w))) 2 n)
        (mkWorld (heap w ++ Loops.BB84_circuits n (rng (draws w) 2 n) (rng (S (draws w)) 2 n))
                 (submitted w) (S (S (S (draws w)))))
      = Ok (eveResults, w1)
    ∧ BB84Ideal.measure_message backend n (seq (length (heap w1)) n)
        (rng (S (S (S (draws w)))) 2 n)
        (mkWorld (heap w1 ++ Loops.BB84_circuits n eveResults (rng (S (S (draws w))) 2 n))
                 (submitted w1) (S (S (S (S (draws w))))))
      = Ok (bobResults, w')
    ∧ BB84Ideal.discardBits n bobResults (rng (draws w) 2 n)
        (rng (S (draws w)) 2 n) (rng (S (S (S (draws w)))) 2 n)
      = Ok (newResults, newAliceBits)
    ∧ BB84Ideal.measureQBER newResults newAliceBits = Ok QBER
    ∧ length eveResults = n
    ∧ submitted w'
      = submitted w
        ++ Loops.measured BB84Ideal.measuring
             (Loops.BB84_circuits n (rng (draws w) 2 n) (rng (S (draws w)) 2 n))
             (rng (S (S (draws w))) 2 n)
        ++ Loops.measured BB84Ideal.measuring
             (Loops.BB84_circuits n eveResults (rng (S (S (draws w))) 2 n))
             (rng (S (S (S (draws w)))) 2 n).
Proof.
  destruct w as [h s d]. unfold BB84Ideal.runProtocol, BB84Ideal.sifted_key.
  unfold mbind, M_bind, randint.
  cbn [heap submitted draws].
  rewrite BB84_encode_message_spec by (rewrite rng_sized; lia).
  cbn [heap submitted draws mret M_ret].
  destruct (BB84_decode_fresh (rng (S (S d)) 2 n) h
              (Loops.BB84_circuits n (rng d 2 n) (rng (S d) 2 n)) s (S (S (S d))))
    as (eveResults & h1 & Hrun1 & Hlen1 & Hres1).
  { apply BB84_circuits_length. }
  { by rewrite rng_sized. }
  rewrite Hrun1.
  rewrite BB84_encode_message_spec by (rewrite ?rng_sized; lia).
  cbn [heap submitted draws mret M_ret].
  destruct (BB84_decode_fresh (rng (S (S (S d))) 2 n) h1
              (Loops.BB84_circuits n eveResults (rng (S (S d)) 2 n))
              (s ++ Loops.measured BB84Ideal.measuring
                      (Loops.BB84_circuits n (rng d 2 n) (rng (S d) 2 n))
                      (rng (S (S d)) 2 n)) (S (S (S (S d)))))
    as (res & h2 & Hrun2 & Hlen2 & Hres2).
  { apply BB84_circuits_length. }
  { by rewrite rng_sized. }
  rewrite Hrun2. unfold lift.
  rewrite BB84_discardBits_spec by (rewrite ?rng_sized; lia).
  destruct (BB84_measureQBER_ok
              (map (at_ res) (kept n (rng (S d) 2 n) (rng (S (S (S d))) 2 n)))
              (map (at_ (rng d 2 n)) (kept n (rng (S d) 2 n) (rng (S (S (S d))) 2 n))))
    as [QBER HQ].
  { by rewrite !length_map. }
  rewrite HQ.
  eexists QBER, _, eveResults, _, res, _, _. split; [reflexivity|].
  split; [reflexivity|]. split; [exact Hrun2|].
  split; [apply BB84_discardBits_spec; rewrite ?rng_sized; lia|].
  split; [exact HQ|]. split; [lia|].
  cbn [submitted]. by rewrite <- app_assoc.
Qed.
End BB84Trial.

(** C8, as stated, on one BB84 trial of one bit: the script has no toggle,
    and whatever value one gives it, the backend runs the eavesdropper's shot
    before the receiver's, so the circuits run are not just the sender's
    circuit as the receiver measures it. *)
Lemma BB84_intercepts_with_toggle_off :
  ¬ (∀ evePresent : bool,
       ∃ QBER w',
         BB84Ideal.runProtocol (λ _ _, "0") (λ _ _ n, replicate n 0%Z) 1 (mkWorld [] [] 0)
         = Ok (QBER, w')
         ∧ (evePresent = false →
            submitted w'
            = Loops.measured BB84Ideal.measuring
                (Loops.BB84_circuits 1 [0%Z] [0%Z]) [0%Z])).
Proof.
  intros H. destruct (H false) as (QBER & w' & Hrun & Hs).
  vm_compute in Hrun. injection Hrun as _ <-.
  specialize (Hs eq_refl). vm_compute in Hs. discriminate Hs.
Qed.

(** C8 (amended): in the entanglement scripts the module constant
    [evePresent] decides, in every trial, whether the intercept-and-resend
    stage runs.  When it is off, the receiver decodes the sender's circuits
    themselves, the only circuits run are these with his decoding appended,
    and the trial scores what he decoded against the sender's bits.  When it
    is on, the eavesdropper decodes the sender's circuits first, the receiver
    decodes the circuits she encodes, with her pairings, from what she
    decoded, and the trial scores what he decoded.  The BB84 script has no
    such constant: its trial always runs the intercept-and-resend stage, in
    the same way. *)
Theorem eavesdropper_stage (backend : nat → QuantumCircuit → string)
    (rng : nat → Z → nat → list Z) (n : nat) (w : world) :
  (∀ k high size, length (rng k high size) = size) → n ≠ 0 →
  (∃ QBER w' bobResults newResults newAliceBits,
     EntanglementBasedProtocol.runProtocol backend rng n false w = Ok (QBER, w')
     ∧ EntanglementBasedProtocol.decodeMessage backend n (seq (length (heap w)) n)
         (rng (S (S (draws w))) 3%Z n)
         (mkWorld (heap w ++ Loops.Ent_circuits n (rng (draws w) 2%Z (2 * n))
                               (rng (S (draws w)) 3%Z n))
                  (submitted w) (S (S (S (draws w)))))
       = Ok (bobResults, w')
     ∧ EntanglementBasedProtocol.discardBits n bobResults (rng (draws w) 2%Z (2 * n))
         (rng (S (draws w)) 3%Z n) (rng (S (S (draws w))) 3%Z n)
       = Ok (newResults, newAliceBits)
     ∧ EntanglementBasedProtocol.measureQBER newResults newAliceBits = Ok QBER
     ∧ submitted w'
       = submitted w
         ++ Loops.measured EntanglementBasedProtocol.measuring
              (Loops.Ent_circuits n (rng (draws w) 2%Z (2 * n)) (rng (S (draws w)) 3%Z n))
              (rng (S (S (draws w))) 3%Z n))
  ∧ (∃ QBER w' eveResults w1 bobResults newResults newAliceBits,
       EntanglementBasedProtocol.runProtocol backend rng n true w = Ok (QBER, w')
       ∧ EntanglementBasedProtocol.decodeMessage backend n (seq (length (heap w)) n)
           (rng (S (S (draws w))) 3%Z n)
           (mkWorld (heap w ++ Loops.Ent_circuits n (rng (draws w) 2%Z (2 * n))
                                 (rng (S (draws w)) 3%Z n))
                    (submitted w) (S (S (S (draws w)))))
         = Ok (eveResults, w1)
       ∧ EntanglementBasedProtocol.decodeMessage backend n (seq (length (heap w1)) n)
           (rng (S (S (S (draws w)))) 3%Z n)
           (mkWorld (heap w1 ++ Loops.Ent_circuits n eveResults (rng (S (S (draws w))) 3%Z n))
                    (submitted w1) (S (S (S (S (draws w))))))
         = Ok (bobResults, w')
       ∧ EntanglementBasedProtocol.discardBits n bobResults (rng (draws w) 2%Z (2 * n))
           (rng (S (draws w)) 3%Z n) (rng (S (S (S (draws w)))) 3%Z n)
         = Ok (newResults, newAliceBits)
       ∧ EntanglementBasedProtocol.measureQBER newResults newAliceBits = Ok QBER
       ∧ length eveResults = 2 * n
       ∧ submitted w'
         = submitted w
           ++ Loops.measured EntanglementBasedProtocol.measuring
                (Loops.Ent_circuits n (rng (draws w) 2%Z (2 * n)) (rng (S (draws w)) 3%Z n))
                (rng (S (S (draws w))) 3%Z n)
           ++ Loops.measured EntanglementBasedProtocol.measuring
                (Loops.Ent_circuits n eveResults (rng (S (S (draws w))) 3%Z n))
                (rng (S (S (S (draws w)))) 3%Z n))
  ∧ ((∀ k qc, backend k qc = "0" ∨ backend k qc = "1") →
     ∃ QBER w' eveResults w1 bobResults newResults newAliceBits,
       BB84Ideal.runProtocol backend rng n w = Ok (QBER, w')
       ∧ BB84Ideal.measure_message backend n (seq (length (heap w)) n)
           (rng (S (S (draws w))) 2%Z n)
           (mkWorld (heap w ++ Loops.BB84_circuits n (rng (draws w) 2%Z n)
                                 (rng (S (draws w)) 2%Z n))
                    (submitted w) (S (S (S (draws w)))))
         = Ok (eveResults, w1)
       ∧ BB84Ideal.measure_message backend n (seq (length (heap w1)) n)
           (rng (S (S (S (draws w)))) 2%Z n)
           (mkWorld (heap w1 ++ Loops.BB84_circuits n eveResults (rng (S (S (draws w))) 2%Z n))
                    (submitted w1) (S (S (S (S (draws w))))))
         = Ok (bobResults, w')
       ∧ BB84Ideal.discardBits n bobResults (rng (draws w) 2%Z n)
           (rng (S (draws w)) 2%Z n) (rng (S (S (S (draws w)))) 2%Z n)
         = Ok (newResults, newAliceBits)
       ∧ BB84Ideal.measureQBER newResults newAliceBits = Ok QBER
       ∧ length eveResults = n
       ∧ submitted w'
         = submitted w
           ++ Loops.measured BB84Ideal.measuring
                (Loops.BB84_circuits n (rng (draws w) 2%Z n) (rng (S (draws w)) 2%Z n))
                (rng (S (S (draws w))) 2%Z n)
           ++ Loops.measured BB84Ideal.measuring
                (Loops.BB84_circuits n eveResults (rng (S (S (draws w))) 2%Z n))
                (rng (S (S (S (draws w)))) 2%Z n)).
Proof.
  intros Hrng Hn. split; [by apply Ent_runProtocol_no_eve|].
  split; [by apply Ent_runProtocol_eve|].
  intros Hbk. by apply BB84_runProtocol_intercepts.
Qed.

(** One pairing, one bit, every draw 0 and a backend that answers "0": in
    BB84 the eavesdropper measures 0 on the sender's circuit and the
    receiver measures the circuit she encodes from it. *)
Lemma eavesdropper_stage_witness :
  (∃ QBER w' bobResults,
     EntanglementBasedProtocol.runProtocol (λ _ _, "0") (λ _ _ n, replicate n 0%Z) 1 false
       (mkWorld [] [] 0) = Ok (QBER, w')
     ∧ EntanglementBasedProtocol.decodeMessage (λ _ _, "0") 1 [0] [0%Z]
         (mkWorld [mkQC 4 4 (EntanglementBasedProtocol.encoding 0 0 0)] [] 3)
       = Ok (bobResults, w')
     ∧ submitted w'
       = [mkQC 4 4 (EntanglementBasedProtocol.encoding 0 0 0
                    ++ EntanglementBasedProtocol.measuring 0)])
  ∧ (∃ QBER w' eveResults w1 bobResults,
       BB84Ideal.runProtocol (λ _ _, "0") (λ _ _ n, replicate n 0%Z) 1 (mkWorld [] [] 0)
       = Ok (QBER, w')
       ∧ BB84Ideal.measure_message (λ _ _, "0") 1 [0] [0%Z]
           (mkWorld [mkQC 1 1 (BB84Ideal.encoding 0 0)] [] 3)
         = Ok (eveResults, w1)
       ∧ BB84Ideal.measure_message (λ _ _, "0") 1 (seq (length (heap w1)) 1) [0%Z]
           (mkWorld (heap w1 ++ Loops.BB84_circuits 1 eveResults [0%Z]) (submitted w1) 4)
         = Ok (bobResults, w')
       ∧ eveResults = [0%Z]
       ∧ submitted w'
         = [mkQC 1 1 (BB84Ideal.encoding 0 0 ++ BB84Ideal.measuring 0)]
           ++ Loops.measured BB84Ideal.measuring
                (Loops.BB84_circuits 1 eveResults [0%Z]) [0%Z]).
Proof.
  destruct (eavesdropper_stage (λ _ _, "0") (λ _ _ n, replicate n 0%Z) 1 (mkWorld [] [] 0))
    as (Hoff & _ & Hbb84).
  - intros k high size. apply length_replicate.
  - discriminate.
  - split.
    + destruct Hoff as (QBER & w' & res & nr & na & Hrun & Hdec & _ & _ & Hsub).
      exists QBER, w', res. split; [exact Hrun|]. split; [exact Hdec|exact Hsub].
    + destruct Hbb84 as (QBER & w' & eve & w1 & res & nr & na & Hrun & He & Hb & _ & _ & _ & Hsub).
      { intros; by left. }
      exists QBER, w', eve, w1, res. split; [exact Hrun|]. split; [exact He|].
      split; [exact Hb|]. split; [|exact Hsub].
      vm_compute in He. by injection He as <- _.
Defined.

(** * Further properties of the scripts *)

(** ** The error rates lie between 0 and 1 *)

(** A loop that adds one or nothing at each pass ends at most [n] higher. *)
Lemma for_from_count_range (body : nat → Z → result Z) (n lo : nat) (acc res : Z) :
  (∀ i acc r, body i acc = Ok r → r = acc ∨ r = (acc + 1)%Z) →
  for_from lo n body acc = Ok res → (acc ≤ res ≤ acc + Z.of_nat n)%Z.
Proof.
  intros Hb. revert lo acc. induction n as [|n IH]; intros lo acc.
  - simpl. intros [= <-]. lia.
  - rewrite for_from_S. destruct (body lo acc) as [r|e] eqn:E; [|done].
    intros Hrun. apply IH in Hrun. destruct (Hb lo acc r E) as [-> | ->]; lia.
Qed.

Lemma ratio_range (c n : Z) :
  (0 ≤ c ≤ n)%Z → (0 < n)%Z →
  (0 <= inject_Z c / inject_Z n)%Q ∧ (inject_Z c / inject_Z n <= 1)%Q.
Proof.
  intros [H0 H1] Hn.
  assert (Hn' : (0 < inject_Z n)%Q) by (change 0%Q with (inject_Z 0); by rewrite <- Zlt_Qlt).
  split.
  - apply Qle_shift_div_l; [done|]. rewrite Qmult_0_l.
    change 0%Q with (inject_Z 0). by rewrite <- Zle_Qle.
  - apply Qle_shift_div_r; [done|]. rewrite Qmult_1_l. by rewrite <- Zle_Qle.
Qed.

Lemma half_ratio_range (c : Z) (len : nat) :
  (0 ≤ c ≤ Z.of_nat (len / 2))%Z → len ≠ 0 →
  (0 <= 1 - inject_Z c / (inject_Z (Z.of_nat len) / 2))%Q
  ∧ (1 - inject_Z c / (inject_Z (Z.of_nat len) / 2) <= 1)%Q.
Proof.
  intros [H0 H1] Hlen.
  assert (H2 : (2 * c ≤ Z.of_nat len)%Z).
  { pose proof (Nat.div_mod_eq len 2) as Hd.
    pose proof (Nat.mod_upper_bound len 2 ltac:(lia)). lia. }
  assert (Hc0 : (0 <= inject_Z c)%Q) by (change 0%Q with (inject_Z 0); by rewrite <- Zle_Qle).
  assert (Hc2 : (2 * inject_Z c <= inject_Z (Z.of_nat len))%Q).
  { change 2%Q with (inject_Z 2). rewrite <- inject_Z_mult. by rewrite <- Zle_Qle. }
  assert (Hd : (0 < inject_Z (Z.of_nat len) / 2)%Q).
  { apply Qlt_shift_div_l; [reflexivity|]. rewrite Qmult_0_l.
    change 0%Q with (inject_Z 0). rewrite <- Zlt_Qlt. lia. }
  assert (Hr0 : (0 <= inject_Z c / (inject_Z (Z.of_nat len) / 2))%Q).
  { apply Qle_shift_div_l; [done|]. by rewrite Qmult_0_l. }
  assert (Hr1 : (inject_Z c / (inject_Z (Z.of_nat len) / 2) <= 1)%Q).
  { apply Qle_shift_div_r; [done|]. rewrite Qmult_1_l.
    apply Qle_shift_div_l; [reflexivity|]. by rewrite Qmult_comm. }
  split; lra.
Qed.

Lemma BB84_count_step (r a : list Z) (i : nat) (acc res : Z) :
  (x ← index r i; y ← index a i;
   if decide (x ≠ y) then mret (acc + 1)%Z else mret acc) = Ok res →
  res = acc ∨ res = (acc + 1)%Z.
Proof.
  destruct (index r i) as [x|e1]; [|done]. simpl.
  destruct (index a i) as [y|e2]; [|done]. simpl.
  destruct (decide (x ≠ y)); intros [= <-]; auto.
Qed.

Lemma block_count_step (r a : list Z) (j0 j1 : nat) (acc res : Z) :
  (r0 ← index r j0; a0 ← index a j0;
   if decide (r0 = a0) then
     r1 ← index r j1; a1 ← index a j1;
     if decide (r1 = a1) then mret (acc + 1)%Z else mret acc
   else mret acc) = Ok res →
  res = acc ∨ res = (acc + 1)%Z.
Proof.
  destruct (index r j0) as [x0|e3]; [|done]. simpl.
  destruct (index a j0) as [y0|e4]; [|done]. simpl.
  destruct (decide (x0 = y0)); [|intros [= <-]; auto].
  destruct (index r j1) as [x1|e5]; [|done]. simpl.
  destruct (index a j1) as [y1|e6]; [|done]. simpl.
  destruct (decide (x1 = y1)); intros [= <-]; auto.
Qed.

Lemma BB84_measureQBER_unit (newResults newAliceBits : list Z) (v : value) :
  newResults ≠ [] →
  BB84Ideal.measureQBER newResults newAliceBits = Ok v →
  ∃ q, v = PyFloat q ∧ (0 <= q)%Q ∧ (q <= 1)%Q.
Proof.
  unfold BB84Ideal.measureQBER.
  destruct newResults as [|x r]; [done|]. intros _.
  simpl Nat.eqb. cbv iota.
  destruct (for_range _ _ _) as [c|e] eqn:Hloop; simpl; [|done].
  intros [= <-]. eexists. split; [reflexivity|].
  unfold for_range in Hloop.
  apply for_from_count_range in Hloop; [|intros i acc res; apply BB84_count_step].
  apply ratio_range; simpl length in *; lia.
Qed.

(** X1: whatever its arguments, BB84's [measureQBER] returns either the
    string "null", and then the key is empty, or a float between 0 and 1. *)
Theorem BB84_measureQBER_in_unit_interval (newResults newAliceBits : list Z) (v : value) :
  BB84Ideal.measureQBER newResults newAliceBits = Ok v →
  (v = PyStr "null" ∧ newResults = [])
  ∨ (newResults ≠ [] ∧ ∃ q, v = PyFloat q ∧ (0 <= q)%Q ∧ (q <= 1)%Q).
Proof.
  intros Hrun. destruct (decide (newResults = [])) as [Hnil|Hne].
  - left. split; [|done]. rewrite Hnil in Hrun. by injection Hrun as <-.
  - right. split; [done|]. by apply (BB84_measureQBER_unit newResults newAliceBits).
Qed.

Lemma BB84_measureQBER_in_unit_interval_witness :
  (PyFloat (1 # 3) = PyStr "null" ∧ [0; 1; 1]%Z = [])
  ∨ ([0; 1; 1]%Z ≠ [] ∧ ∃ q, PyFloat (1 # 3) = PyFloat q ∧ (0 <= q)%Q ∧ (q <= 1)%Q).
Proof.
  apply (BB84_measureQBER_in_unit_interval [0; 1; 1]%Z [0; 0; 1]%Z). reflexivity.
Defined.

Lemma Ent_measureQBER_unit (results reference : list Z) (v : value) :
  EntanglementBasedProtocol.measureQBER results reference = Ok v → unit_value v.
Proof.
  unfold EntanglementBasedProtocol.measureQBER.
  destruct (Nat.eqb_spec (length results) 0) as [H0|Hne].
  { intros [= <-]. exists 1%Q. split; [reflexivity|]. split; discriminate. }
  destruct (for_range _ _ _) as [c|e] eqn:Hloop; simpl; [|done].
  intros [= <-]. eexists. split; [reflexivity|].
  unfold for_range in Hloop.
  apply for_from_count_range in Hloop; [|intros i acc res; apply block_count_step].
  destruct (half_ratio_range c (length results)) as [A B]; [lia|done|].
  remember (inject_Z c / (inject_Z (Z.of_nat (length results)) / 2))%Q as x eqn:Ex. clear Ex.
  destruct (round64_unit x) as [R0 R1]; [lra|lra|]. split; lra.
Qed.

(** X2: whatever their arguments, the entanglement [measureQBER] and
    [measureBER] return a number between 0 and 1 when they return;
    [measureBER] raises [ZeroDivisionError] when no pairing is configured. *)
Theorem entanglement_rates_in_unit_interval (n : nat) (results reference : list Z) (v : value) :
  (EntanglementBasedProtocol.measureQBER results reference = Ok v → unit_value v)
  ∧ (EntanglementBasedProtocol.measureBER n reference results = Ok v → unit_value v ∧ n ≠ 0)
  ∧ (n = 0 → EntanglementBasedProtocol.measureBER n reference results = Raise ZeroDivisionError).
Proof.
  split; [|split].
  - apply Ent_measureQBER_unit.
  - unfold EntanglementBasedProtocol.measureBER.
    destruct (for_range _ _ _) as [c|e] eqn:Hloop; simpl; [|done].
    destruct (Nat.eqb_spec n 0) as [H0|Hne]; [done|].
    intros [= <-]. split; [|done]. eexists. split; [reflexivity|].
    unfold for_range in Hloop.
    apply for_from_count_range in Hloop; [|intros i acc res; apply block_count_step].
    destruct (ratio_range c (Z.of_nat n)) as [H1 H2]; [lia|lia|].
    remember (inject_Z c / inject_Z (Z.of_nat n))%Q as x eqn:Ex. clear Ex.
    destruct (round64_unit x) as [R0 R1]; [lra|lra|]. split; lra.
  - intros ->. reflexivity.
Qed.

Lemma entanglement_rates_in_unit_interval_witness :
  unit_value (PyFloat (1 - round64 (1 / (4 / 2))))
  ∧ unit_value (PyFloat (1 - round64 (1 / 2))).
Proof.
  destruct (entanglement_rates_in_unit_interval 2 [0; 1; 1; 0]%Z [0; 0; 1; 0]%Z
              (PyFloat (1 - round64 (1 / (4 / 2))))) as (H1 & _ & _).
  destruct (entanglement_rates_in_unit_interval 2 [0; 1; 1; 0]%Z [0; 0; 1; 0]%Z
              (PyFloat (1 - round64 (1 / 2)))) as (_ & H2 & _).
  split; [apply H1; reflexivity|apply H2; reflexivity].
Defined.

(** ** What [measureQBER] reads of the reference *)

Lemma BB84_measureQBER_take (r a : list Z) :
  length r ≤ length a →
  BB84Ideal.measureQBER r a = BB84Ideal.measureQBER r (take (length r) a).
Proof.
  intros Hlen. unfold BB84Ideal.measureQBER.
  destruct (Nat.eqb (length r) 0); [reflexivity|].
  unfold for_range.
  rewrite (for_from_ext _ (λ i (QBER : Z),
             x ← index r i; y ← index (take (length r) a) i;
             if decide (x ≠ y) then mret (QBER + 1)%Z else mret QBER)); [reflexivity|].
  intros i acc Hi. destruct (index r i) as [x|e]; [|done]. simpl.
  unfold index. by rewrite lookup_take_lt by lia.
Qed.

(** X3: on a non-empty key, BB84's [measureQBER] raises [IndexError] exactly
    when the reference is shorter than the key; of a longer reference it
    reads the first [len(newResults)] entries only. *)
Theorem BB84_measureQBER_reference_length (newResults newAliceBits : list Z) :
  newResults ≠ [] →
  (BB84Ideal.measureQBER newResults newAliceBits = Raise IndexError
   ↔ length newAliceBits < length newResults)
  ∧ (length newResults ≤ length newAliceBits →
     BB84Ideal.measureQBER newResults newAliceBits
     = Ok (PyFloat (bit_error_rate newResults (take (length newResults) newAliceBits)))).
Proof.
  intros Hne.
  assert (Hlong : length newResults ≤ length newAliceBits →
     BB84Ideal.measureQBER newResults newAliceBits
     = Ok (PyFloat (bit_error_rate newResults (take (length newResults) newAliceBits)))).
  { intros Hlen. rewrite BB84_measureQBER_take by done.
    apply BB84_measureQBER_rate; [|done]. rewrite length_take. lia. }
  split; [|exact Hlong]. split.
  - intros Hraise. destruct (decide (length newAliceBits < length newResults)); [done|].
    rewrite Hlong in Hraise by lia. discriminate.
  - intros Hshort. unfold BB84Ideal.measureQBER.
    destruct (Nat.eqb_spec (length newResults) 0) as [H0|_].
    { destruct newResults; [done|discriminate]. }
    unfold for_range.
    rewrite (for_from_raise _ (length newResults) 0 (length newAliceBits)); [reflexivity| |lia|].
    + intros i acc _.
      destruct (index_cases newResults i) as [[x ->]| ->]; [|by right]. simpl.
      destruct (index_cases newAliceBits i) as [[y ->]| ->]; [|by right]. simpl.
      left. destruct (decide (x ≠ y)); eauto.
    + intros acc.
      destruct (index_lt newResults (length newAliceBits) Hshort) as (x & _ & ->). simpl.
      by rewrite index_ge.
Qed.

Lemma BB84_measureQBER_reference_length_witness :
  (BB84Ideal.measureQBER [0; 1]%Z [0]%Z = Raise IndexError ↔ length [0]%Z < length [0; 1]%Z)
  ∧ BB84Ideal.measureQBER [0; 1]%Z [0; 0; 1]%Z
    = Ok (PyFloat (bit_error_rate [0; 1]%Z (take (length [0; 1]%Z) [0; 0; 1]%Z))).
Proof.
  destruct (BB84_measureQBER_reference_length [0; 1]%Z [0]%Z) as [H1 _]; [discriminate|].
  destruct (BB84_measureQBER_reference_length [0; 1]%Z [0; 0; 1]%Z) as [_ H2]; [discriminate|].
  split; [exact H1|]. apply H2. simpl. lia.
Defined.

(** ** Sifting, then scoring *)

Lemma filter_ext_elem {A} (P Q : A → Prop) `{!∀ x, Decision (P x), !∀ x, Decision (Q x)}
    (l : list A) :
  (∀ x, x ∈ l → (P x ↔ Q x)) → filter P l = filter Q l.
Proof.
  induction l as [|x l IH]; intros Hext; [done|].
  rewrite !filter_cons.
  assert (Hx : P x ↔ Q x) by (apply Hext; apply list_elem_of_here).
  rewrite IH by (intros y Hy; apply Hext; by apply list_elem_of_further).
  destruct (decide (P x)), (decide (Q x)); tauto || done.
Qed.

Lemma filter_seq_shift (P : nat → Prop) `{!∀ i, Decision (P i)} (n lo : nat) :
  length (filter P (seq (S lo) n)) = length (filter (λ j, P (S j)) (seq lo n)).
Proof.
  revert lo. induction n as [|n IH]; intros lo; [done|].
  cbn [seq]. rewrite !filter_cons.
  destruct (decide (P (S lo))); simpl; by rewrite IH.
Qed.

Lemma filter_seq_shift_iff (P Q : nat → Prop)
    `{!∀ i, Decision (P i), !∀ i, Decision (Q i)} (n lo : nat) :
  (∀ j, P (S j) ↔ Q j) →
  length (filter P (seq (S lo) n)) = length (filter Q (seq lo n)).
Proof.
  intros Hext. revert lo. induction n as [|n IH]; intros lo; [done|].
  cbn [seq]. rewrite !filter_cons. specialize (Hext lo).
  destruct (decide (P (S lo))), (decide (Q lo)); simpl; rewrite IH; tauto || done.
Qed.

Lemma mismatches_cons (x y : Z) (r a : list Z) :
  length (mismatches (x :: r) (y :: a))
  = (if decide (x = y) then 0 else 1) + length (mismatches r a).
Proof.
  unfold mismatches. simpl (length (x :: r)). cbn [seq]. rewrite filter_cons.
  pose proof (filter_seq_shift (λ i, (x :: r) !! i ≠ (y :: a) !! i) (length r) 0) as Hs.
  destruct (decide (x = y)) as [->|Hn].
  - rewrite decide_False by (simpl; tauto). by rewrite Hs.
  - rewrite decide_True by (simpl; congruence). simpl length. by rewrite Hs.
Qed.

Lemma mismatches_map (g1 g2 : nat → Z) (K : list nat) :
  length (mismatches (map g1 K) (map g2 K)) = length (filter (λ i, g1 i ≠ g2 i) K).
Proof.
  induction K as [|i K IH]; [done|].
  simpl map. rewrite mismatches_cons, IH, filter_cons.
  destruct (decide (g1 i = g2 i)) as [E|Hn].
  - rewrite decide_False by tauto. done.
  - rewrite decide_True by done. done.
Qed.

Lemma wrong_blocks_cons (x0 x1 y0 y1 : Z) (r a : list Z) :
  length (wrong_blocks (x0 :: x1 :: r) (y0 :: y1 :: a))
  = (if decide (x0 = y0 ∧ x1 = y1) then 0 else 1) + length (wrong_blocks r a).
Proof.
  unfold wrong_blocks.
  replace (length (x0 :: x1 :: r) / 2) with (S (length r / 2)).
  2:{ simpl length. change (S (S (length r))) with (1 * 2 + length r).
      rewrite Nat.div_add_l by lia. lia. }
  cbn [seq]. rewrite filter_cons.
  pose proof (filter_seq_shift_iff
    (λ k, ¬ ((x0 :: x1 :: r) !! (2 * k) = (y0 :: y1 :: a) !! (2 * k)
             ∧ (x0 :: x1 :: r) !! (2 * k + 1) = (y0 :: y1 :: a) !! (2 * k + 1)))
    (λ k, ¬ (r !! (2 * k) = a !! (2 * k) ∧ r !! (2 * k + 1) = a !! (2 * k + 1)))
    (length r / 2) 0) as Hs.
  specialize (Hs ltac:(intros k; cbv beta; replace (2 * S k) with (S (S (2 * k))) by lia;
                       replace (S (S (2 * k)) + 1) with (S (S (2 * k + 1))) by lia;
                       reflexivity)).
  destruct (decide (x0 = y0 ∧ x1 = y1)) as [[-> ->]|Hn].
  - rewrite decide_False by (simpl; tauto). by rewrite Hs.
  - rewrite decide_True.
    + change (length (0 :: ?l)) with (S (length l)). by rewrite Hs.
    + simpl. intros [? ?]. apply Hn. split; congruence.
Qed.

Lemma wrong_blocks_flat_map (g0 g1 h0 h1 : nat → Z) (K : list nat) :
  length (wrong_blocks (flat_map (λ i, [g0 i; g1 i]) K) (flat_map (λ i, [h0 i; h1 i]) K))
  = length (filter (λ i, ¬ (g0 i = h0 i ∧ g1 i = h1 i)) K).
Proof.
  induction K as [|i K IH]; [done|].
  simpl flat_map. rewrite wrong_blocks_cons, IH, filter_cons.
  destruct (decide (g0 i = h0 i ∧ g1 i = h1 i)) as [E|Hn].
  - rewrite decide_False by tauto. done.
  - rewrite decide_True by done. done.
Qed.

Lemma kept_lt (n : nat) (alice bob : list Z) (i : nat) : i ∈ kept n alice bob → i < n.
Proof. intros Hi. by apply kept_spec in Hi as [? _]. Qed.

(** X4: on BB84 inputs of the configured size, scoring the sifted key
    gives "null" when the bases agree nowhere, and otherwise the number of
    agreeing positions at which the receiver's result differs from the
    sender's bit, divided by the number of agreeing positions. *)
Theorem BB84_sift_then_score (n : nat) (results aliceBits aliceBases bobBases : list Z) :
  n ≤ length results → n ≤ length aliceBits →
  n ≤ length aliceBases → n ≤ length bobBases →
  ∃ newResults newAliceBits,
    BB84Ideal.discardBits n results aliceBits aliceBases bobBases
    = Ok (newResults, newAliceBits)
    ∧ (kept n aliceBases bobBases = [] →
       BB84Ideal.measureQBER newResults newAliceBits = Ok (PyStr "null"))
    ∧ (kept n aliceBases bobBases ≠ [] →
       BB84Ideal.measureQBER newResults newAliceBits
       = Ok (PyFloat (inject_Z (Z.of_nat (length (differing results aliceBits
                                                     (kept n aliceBases bobBases))))
                      / inject_Z (Z.of_nat (length (kept n aliceBases bobBases)))))).
Proof.
  intros Hr Ha Hab Hbb. eexists _, _. split; [by apply BB84_discardBits_spec|].
  split.
  - intros ->. reflexivity.
  - intros Hne.
    rewrite BB84_measureQBER_rate.
    + unfold bit_error_rate, differing. rewrite mismatches_map, length_map.
      rewrite (filter_ext_elem (λ i, at_ results i ≠ at_ aliceBits i)
                 (λ i, results !! i ≠ aliceBits !! i)); [reflexivity|].
      intros i Hi. apply kept_lt in Hi.
      rewrite !lookup_at by lia. split; congruence.
    + by rewrite !length_map.
    + by destruct (kept n aliceBases bobBases).
Qed.

Lemma BB84_sift_then_score_witness :
  ∃ newResults newAliceBits,
    BB84Ideal.discardBits 3 [1; 0; 1]%Z [1; 1; 1]%Z [0; 1; 1]%Z [0; 0; 1]%Z
    = Ok (newResults, newAliceBits)
    ∧ BB84Ideal.measureQBER newResults newAliceBits
      = Ok (PyFloat (inject_Z (Z.of_nat (length (differing [1; 0; 1]%Z [1; 1; 1]%Z
                                   (kept 3 [0; 1; 1]%Z [0; 0; 1]%Z))))
                     / inject_Z (Z.of_nat (length (kept 3 [0; 1; 1]%Z [0; 0; 1]%Z))))).
Proof.
  destruct (BB84_sift_then_score 3 [1; 0; 1]%Z [1; 1; 1]%Z [0; 1; 1]%Z [0; 0; 1]%Z)
    as (nr & na & Hd & _ & Hq); simpl; try lia.
  exists nr, na. split; [exact Hd|]. apply Hq. discriminate.
Defined.

Lemma right_blocks_flat_map (g0 g1 h0 h1 : nat → Z) (K : list nat) :
  length (right_blocks (flat_map (λ i, [g0 i; g1 i]) K) (flat_map (λ i, [h0 i; h1 i]) K))
  = length (filter (λ i, g0 i = h0 i ∧ g1 i = h1 i) K).
Proof.
  pose proof (right_wrong_blocks (flat_map (λ i, [g0 i; g1 i]) K)
                (flat_map (λ i, [h0 i; h1 i]) K)) as Hc.
  rewrite wrong_blocks_flat_map, blocks_length in Hc.
  rewrite (Nat.mul_comm 2 (length K)), Nat.div_mul in Hc by lia.
  pose proof (filter_complement_length (λ i, g0 i = h0 i ∧ g1 i = h1 i) K). lia.
Qed.

(** The score of the blocks sifted from two sequences. *)
Lemma Ent_score_kept (n : nat) (results aliceBits alicePairs bobPairs : list Z) :
  2 * n ≤ length results → 2 * n ≤ length aliceBits →
  kept n alicePairs bobPairs ≠ [] →
  ∃ q, EntanglementBasedProtocol.measureQBER
         (flat_map (block_at results) (kept n alicePairs bobPairs))
         (flat_map (block_at aliceBits) (kept n alicePairs bobPairs)) = Ok (PyFloat q)
       ∧ q == float_error_rate
                (length (agreeing_blocks results aliceBits (kept n alicePairs bobPairs)))
                (length (kept n alicePairs bobPairs))
       ∧ length (agreeing_blocks results aliceBits (kept n alicePairs bobPairs))
         + length (differing_blocks results aliceBits (kept n alicePairs bobPairs))
         = length (kept n alicePairs bobPairs).
Proof.
  intros Hr Ha Hne.
  destruct (Ent_measureQBER_rate
              (flat_map (block_at results) (kept n alicePairs bobPairs))
              (flat_map (block_at aliceBits) (kept n alicePairs bobPairs)))
    as (q & Hq & E).
  - unfold block_at. by rewrite !blocks_length.
  - unfold block_at. destruct (kept n alicePairs bobPairs); [done|discriminate].
  - unfold block_at. rewrite blocks_length. apply Nat.even_spec. by eexists.
  - exists q. split; [exact Hq|]. split.
    + rewrite E. unfold block_at. rewrite right_blocks_flat_map, blocks_length.
      rewrite (Nat.mul_comm 2 (length _)), Nat.div_mul by lia.
      unfold agreeing_blocks.
      rewrite (filter_ext_elem _ (λ k, results !! (2 * k) = aliceBits !! (2 * k)
                 ∧ results !! (2 * k + 1) = aliceBits !! (2 * k + 1))); [reflexivity|].
      intros i Hi. apply kept_lt in Hi.
      rewrite !lookup_at by lia. split; intros [? ?]; split; congruence.
    + apply filter_complement_length.
Qed.



(** X6: when the two parties chose the same pairing for every block,
    sifting discards nothing and the QBER of the sifted key equals the block
    error rate measured before sifting. *)
Theorem all_pairings_agree_QBER_is_BER (n : nat)
    (results aliceBits alicePairs bobPairs : list Z) :
  2 * n ≤ length results → 2 * n ≤ length aliceBits →
  n ≤ length alicePairs → n ≤ length bobPairs → n ≠ 0 →
  (∀ i, i < n → alicePairs !! i = bobPairs !! i) →
  ∃ q b,
    EntanglementBasedProtocol.discardBits n results aliceBits alicePairs bobPairs
    = Ok (take (2 * n) results, take (2 * n) aliceBits)
    ∧ EntanglementBasedProtocol.measureQBER (take (2 * n) results) (take (2 * n) aliceBits)
      = Ok (PyFloat q)
    ∧ EntanglementBasedProtocol.measureBER n aliceBits results = Ok (PyFloat b)
    ∧ q == b.
Proof.
  intros Hr Ha Hap Hbp Hn Hagree.
  assert (HK : kept n alicePairs bobPairs = seq 0 n).
  { unfold kept. apply filter_all. apply Forall_forall. intros i Hi.
    apply elem_of_seq in Hi. apply Hagree. lia. }
  assert (Hlen : length (take (2 * n) results) = 2 * n) by (rewrite length_take; lia).
  eexists _, _. split; [|split; [|split]].
  - rewrite Ent_discardBits_spec, HK by done. unfold block_at, at_.
    by rewrite !take_as_blocks.
  - apply Ent_measureQBER_value.
    + rewrite !length_take. lia.
    + intros E. rewrite E in Hlen. simpl in Hlen. lia.
    + rewrite Hlen. apply Nat.even_spec. by eexists.
  - by apply Ent_measureBER_value.
  - unfold float_error_rate, right_blocks.
    rewrite Hlen, (Nat.mul_comm 2 n), Nat.div_mul by lia.
    rewrite (filter_ext_elem _ (λ k, aliceBits !! (2 * k) = results !! (2 * k)
               ∧ aliceBits !! (2 * k + 1) = results !! (2 * k + 1))).
    2:{ intros k Hk. apply elem_of_seq in Hk.
        rewrite !lookup_take_lt by lia. split; intros [? ?]; split; congruence. }
    apply Qplus_comp; [reflexivity|]. apply Qopp_comp. apply round64_comp.
    rewrite Nat2Z.inj_mul, inject_Z_mult. simpl (Z.of_nat 2).
    assert (Hq : ¬ inject_Z (Z.of_nat n) == 0).
    { change 0%Q with (inject_Z 0). rewrite inject_Z_injective. lia. }
    change (inject_Z 2) with 2%Q. field. exact Hq.
Qed.

Lemma all_pairings_agree_QBER_is_BER_witness :
  ∃ q b,
    EntanglementBasedProtocol.discardBits 2 [1; 0; 1; 1]%Z [1; 1; 1; 1]%Z [0; 2]%Z [0; 2]%Z
    = Ok (take (2 * 2) [1; 0; 1; 1]%Z, take (2 * 2) [1; 1; 1; 1]%Z)
    ∧ EntanglementBasedProtocol.measureQBER (take (2 * 2) [1; 0; 1; 1]%Z)
        (take (2 * 2) [1; 1; 1; 1]%Z) = Ok (PyFloat q)
    ∧ EntanglementBasedProtocol.measureBER 2 [1; 1; 1; 1]%Z [1; 0; 1; 1]%Z = Ok (PyFloat b)
    ∧ q == b.
Proof.
  apply (all_pairings_agree_QBER_is_BER 2 [1; 0; 1; 1]%Z [1; 1; 1; 1]%Z [0; 2]%Z [0; 2]%Z);
    simpl; try lia. reflexivity.
Defined.

(** ** What the encoders and decoders leave in the store *)

(** X7: on inputs of the configured size, the two encoders return
    references to as many new circuits, all distinct, each holding the
    instructions of its position; the objects that were in the store stay as
    they were, no circuit is run and no random number is drawn. *)
Theorem encoders_allocate_fresh_circuits (n : nat) (bits choices : list Z) (w : world) :
  n ≤ length choices →
  (n ≤ length bits →
   ∃ message w',
     BB84Ideal.encode_message n bits choices w = Ok (message, w')
     ∧ NoDup message ∧ length message = n
     ∧ Forall (λ a, length (heap w) ≤ a < length (heap w')) message
     ∧ take (length (heap w)) (heap w') = heap w
     ∧ submitted w' = submitted w ∧ draws w' = draws w
     ∧ ∀ i a, message !! i = Some a →
         heap w' !! a = Some (mkQC 1 1 (BB84Ideal.encoding (at_ bits i) (at_ choices i))))
  ∧ (2 * n ≤ length bits →
     ∃ message w',
       EntanglementBasedProtocol.encodeMessage n bits choices w = Ok (message, w')
       ∧ NoDup message ∧ length message = n
       ∧ Forall (λ a, length (heap w) ≤ a < length (heap w')) message
       ∧ take (length (heap w)) (heap w') = heap w
       ∧ submitted w' = submitted w ∧ draws w' = draws w
       ∧ ∀ i a, message !! i = Some a →
           heap w' !! a
           = Some (mkQC 4 4 (EntanglementBasedProtocol.encoding
                               (at_ bits (2 * i)) (at_ bits (2 * i + 1)) (at_ choices i)))).
Proof.
  intros Hc. split.
  - intros Hb. eexists _, _. split; [by apply BB84_encode_message_spec|].
    simpl. rewrite length_app, length_seq. unfold Loops.BB84_circuits.
    rewrite length_map, length_seq.
    split; [apply NoDup_seq|]. split; [done|]. split.
    { apply Forall_forall. intros a Hin. apply elem_of_seq in Hin. lia. }
    split; [by rewrite take_app_length|]. split; [done|]. split; [done|].
    intros i a Hi. apply lookup_seq in Hi as [-> Hi].
    rewrite lookup_app_r by lia. replace (length (heap w) + i - length (heap w)) with i by lia.
    change (map ?f ?l) with (f <$> l). by rewrite list_lookup_fmap, lookup_seq_lt.
  - intros Hb. eexists _, _. split; [by apply Ent_encodeMessage_spec|].
    simpl. rewrite length_app, length_seq. unfold Loops.Ent_circuits.
    rewrite length_map, length_seq.
    split; [apply NoDup_seq|]. split; [done|]. split.
    { apply Forall_forall. intros a Hin. apply elem_of_seq in Hin. lia. }
    split; [by rewrite take_app_length|]. split; [done|]. split; [done|].
    intros i a Hi. apply lookup_seq in Hi as [-> Hi].
    rewrite lookup_app_r by lia. replace (length (heap w) + i - length (heap w)) with i by lia.
    change (map ?f ?l) with (f <$> l). by rewrite list_lookup_fmap, lookup_seq_lt.
Qed.

Lemma encoders_allocate_fresh_circuits_witness :
  ∃ message w',
    BB84Ideal.encode_message 2 [0; 1]%Z [1; 0]%Z (mkWorld [mkQC 4 4 []] [] 0) = Ok (message, w')
    ∧ NoDup message ∧ length message = 2
    ∧ Forall (λ a, length (heap (mkWorld [mkQC 4 4 []] [] 0)) ≤ a < length (heap w')) message
    ∧ take (length (heap (mkWorld [mkQC 4 4 []] [] 0))) (heap w')
      = heap (mkWorld [mkQC 4 4 []] [] 0)
    ∧ submitted w' = submitted (mkWorld [mkQC 4 4 []] [] 0)
    ∧ draws w' = draws (mkWorld [mkQC 4 4 []] [] 0)
    ∧ ∀ i a, message !! i = Some a →
        heap w' !! a
        = Some (mkQC 1 1 (BB84Ideal.encoding (at_ [0; 1]%Z i) (at_ [1; 0]%Z i))).
Proof.
  destruct (encoders_allocate_fresh_circuits 2 [0; 1]%Z [1; 0]%Z (mkWorld [mkQC 4 4 []] [] 0))
    as [H _]; [simpl; lia|].
  apply H. simpl. lia.
Defined.

Section DecodedValues.
Variable backend : nat → QuantumCircuit → string.
Variable message : list nat.
Variable choices : list Z.
Variable ops : Z → list instr.
Variable conv : string → result (list Z).
Variable P : Z → Prop.
Variable m : nat.
Hypothesis conv_values : ∀ k qc zs, conv (backend k qc) = Ok zs → Forall P zs ∧ length zs = m.

Lemma shot_loop_values (n lo : nat) (acc res : list Z) (w w' : world) :
  for_from lo n (Loops.shot_body backend message choices ops conv) acc w = Ok (res, w') →
  Forall P acc → Forall P res ∧ length res = length acc + m * n.
Proof.
  revert lo acc w. induction n as [|n IH]; intros lo acc w.
  - simpl. intros [= <- <-] Hacc. split; [done|lia].
  - rewrite for_from_M_S. unfold Loops.shot_body at 1.
    destruct (message !! lo) as [a|]; [|done].
    destruct (choices !! lo) as [c|]; [|done].
    destruct (heap w !! a) as [qc|]; [|done]. cbv zeta.
    destruct (conv _) as [zs|e] eqn:Hconv; [|done].
    apply conv_values in Hconv as [Hzs Hlen].
    intros Hrun Hacc. apply IH in Hrun as [Hres Hl].
    + split; [done|]. rewrite Hl, length_app. lia.
    + apply Forall_app. by split.
Qed.
End DecodedValues.

(** X8: whatever the backend returns, noisy or not, the sequence that
    [decodeMessage] returns consists of bits, two a block; so does the one
    [measure_message] returns, one a position, when the memory strings are
    "0" or "1". *)
Theorem decoded_values_are_bits (backend : nat → QuantumCircuit → string) (n : nat)
    (message : list nat) (choices : list Z) (w w' : world) (res : list Z) :
  (EntanglementBasedProtocol.decodeMessage backend n message choices w = Ok (res, w') →
   Forall is_bit res ∧ length res = 2 * n)
  ∧ ((∀ k qc, backend k qc = "0" ∨ backend k qc = "1") →
     BB84Ideal.measure_message backend n message choices w = Ok (res, w') →
     Forall is_bit res ∧ length res = n).
Proof.
  split.
  - rewrite Ent_decodeMessage_loop. intros Hrun.
    apply (shot_loop_values backend message choices _ Loops.Ent_conv is_bit 2) in Hrun;
      [done| |constructor].
    intros k qc zs [= <-]. unfold EntanglementBasedProtocol.decode_lookup.
    repeat destruct (String.eqb _ _); (split; [|done]); repeat constructor;
      (by left) || (by right).
  - intros Hbk. rewrite BB84_measure_message_loop. intros Hrun.
    apply (shot_loop_values backend message choices _ Loops.BB84_conv is_bit 1) in Hrun.
    + destruct Hrun as [? Hl]. split; [done|]. simpl in Hl. lia.
    + intros k qc zs. unfold Loops.BB84_conv.
      destruct (Hbk k qc) as [-> | ->]; intros [= <-]; (split; [|done]); repeat constructor;
        (by left) || (by right).
    + constructor.
Qed.

Lemma decoded_values_are_bits_witness :
  (Forall is_bit [1; 1]%Z ∧ length [1; 1]%Z = 2 * 1)
  ∧ (Forall is_bit [0]%Z ∧ length [0]%Z = 1).
Proof.
  split.
  - destruct (decoded_values_are_bits (λ _ _, "0") 1 [0] [0]%Z
                (mkWorld [mkQC 4 4 []] [] 0)
                (mkWorld [mkQC 4 4 (EntanglementBasedProtocol.measuring 0)]
                         [mkQC 4 4 (EntanglementBasedProtocol.measuring 0)] 0) [1; 1]%Z)
      as [H _].
    apply H. reflexivity.
  - destruct (decoded_values_are_bits (λ _ _, "0") 1 [0] [0]%Z
                (mkWorld [mkQC 1 1 []] [] 0)
                (mkWorld [mkQC 1 1 (BB84Ideal.measuring 0)]
                         [mkQC 1 1 (BB84Ideal.measuring 0)] 0) [0]%Z)
      as [_ H].
    apply H; [intros; by left|reflexivity].
Defined.

(** ** The states the circuits prepare and the outcomes of their shots *)

(** X9: BB84's encoder prepares |0> and |1> for the bits 0 and 1 in the Z
    basis, |+> and |-> in the X basis. *)
Theorem BB84_encoded_states (bit basis : Z) :
  is_bit bit → is_bit basis →
  state_of 1 (BB84Ideal.encoding bit basis) = BB84_state bit basis.
Proof. intros [-> | ->] [-> | ->]; vm_compute; reflexivity. Qed.

Lemma BB84_encoded_states_witness :
  state_of 1 (BB84Ideal.encoding 1 1) = BB84_state 1 1.
Proof. apply BB84_encoded_states; by right. Defined.

Lemma BB84_outcomes_cases (bit basis basis' : Z) :
  is_bit bit → is_bit basis → is_bit basis' →
  outcomes (extend (mkQC 1 1 (BB84Ideal.encoding bit basis)) (BB84Ideal.measuring basis'))
  = if decide (basis = basis')
    then [if decide (bit = 0%Z) then "0" else "1"]
    else ["0"; "1"].
Proof. intros [-> | ->] [-> | ->] [-> | ->]; vm_compute; reflexivity. Qed.

(** X10: a shot of a BB84 circuit measured in the basis it was encoded in
    gives the encoded bit; measured in the other basis, both "0" and "1" have
    non-zero probability. *)
Theorem BB84_shot_outcomes (bit basis basis' : Z) :
  is_bit bit → is_bit basis → is_bit basis' →
  outcomes (extend (mkQC 1 1 (BB84Ideal.encoding bit basis)) (BB84Ideal.measuring basis'))
  = if decide (basis = basis')
    then [if decide (bit = 0%Z) then "0" else "1"]
    else ["0"; "1"].
Proof. intros [-> | ->] [-> | ->] [-> | ->]; vm_compute; reflexivity. Qed.

Lemma BB84_shot_outcomes_witness :
  outcomes (extend (mkQC 1 1 (BB84Ideal.encoding 1 0)) (BB84Ideal.measuring 1)) = ["0"; "1"].
Proof. apply (BB84_shot_outcomes 1 0 1); (by left) || (by right). Defined.

(** X11: the instructions that [decodeMessage] appends are a Bell
    measurement of the two pairs of the receiver's pairing: from any two Bell
    states on these pairs a shot gives one memory string, phase bit then
    parity bit of the first pair, then of the second pair. *)
Theorem decoder_measures_bell_states (label : Z) (s1 s2 : EntanglementBasedProtocol.bell) :
  outcomes_from 4 4
    (EntanglementBasedProtocol.bell_pairs
       (EntanglementBasedProtocol.pairing label).1
       (EntanglementBasedProtocol.pairing label).2 s1 s2)
    (EntanglementBasedProtocol.measuring label)
  = [(bell_code s1 ++ bell_code s2)%string].
Proof.
  unfold EntanglementBasedProtocol.measuring.
  destruct (pairing_cases label) as [-> | [-> | ->]]; destruct s1, s2; vm_compute; reflexivity.
Qed.

(** X12: on a noiseless backend a shot of an encoded block, decoded with
    any pairing, gives one of the four memory strings 0001, 0100, 1011, 1110,
    which the lookup sends to the four blocks: the string of the sender's
    block only, when the receiver's pairing is the sender's, and each of the
    four with non-zero probability when it is another one. *)
Theorem encoded_block_shot_outcomes (b0 b1 alicePair bobPair : Z) :
  is_bit b0 → is_bit b1 →
  map EntanglementBasedProtocol.decode_lookup codewords
  = [[0; 0]; [0; 1]; [1; 0]; [1; 1]]%Z
  ∧ Forall (λ s, s ∈ codewords)
      (outcomes (extend (mkQC 4 4 (EntanglementBasedProtocol.encoding b0 b1 alicePair))
                        (EntanglementBasedProtocol.measuring bobPair)))
  ∧ (EntanglementBasedProtocol.pairing alicePair = EntanglementBasedProtocol.pairing bobPair →
     ∃ s, outcomes (extend (mkQC 4 4 (EntanglementBasedProtocol.encoding b0 b1 alicePair))
                           (EntanglementBasedProtocol.measuring bobPair)) = [s]
          ∧ EntanglementBasedProtocol.decode_lookup s = [b0; b1])
  ∧ (EntanglementBasedProtocol.pairing alicePair ≠ EntanglementBasedProtocol.pairing bobPair →
     outcomes (extend (mkQC 4 4 (EntanglementBasedProtocol.encoding b0 b1 alicePair))
                      (EntanglementBasedProtocol.measuring bobPair)) = codewords).
Proof.
  intros H0 H1. split; [reflexivity|].
  unfold EntanglementBasedProtocol.encoding, EntanglementBasedProtocol.measuring.
  destruct (pairing_cases alicePair) as [-> | [-> | ->]];
    destruct (pairing_cases bobPair) as [-> | [-> | ->]];
    destruct H0 as [-> | ->]; destruct H1 as [-> | ->];
    (split; [compute_done|]);
    (split; [intros He; first [discriminate He | eexists; split; vm_compute; reflexivity]
            |intros Hne; first [vm_compute; reflexivity | exfalso; by apply Hne]]).
Qed.

Lemma encoded_block_shot_outcomes_witness :
  outcomes (extend (mkQC 4 4 (EntanglementBasedProtocol.encoding 1 0 0))
                   (EntanglementBasedProtocol.measuring 2)) = codewords.
Proof.
  destruct (encoded_block_shot_outcomes 1 0 0 2) as (_ & _ & _ & H); [by right|by left|].
  apply H. discriminate.
Defined.

(** ** Trials on a noiseless backend *)

Lemma flat_map_ext_elem {A B} (g1 g2 : A → list B) (l : list A) :
  (∀ x, x ∈ l → g1 x = g2 x) → flat_map g1 l = flat_map g2 l.
Proof.
  induction l as [|x l IH]; intros Hext; [done|]. simpl.
  rewrite (Hext x) by apply list_elem_of_here.
  by rewrite IH by (intros y Hy; apply Hext; by apply list_elem_of_further).
Qed.

Lemma filter_none {A} (P : A → Prop) `{!∀ x, Decision (P x)} (l : list A) :
  (∀ x, ¬ P x) → filter P l = [].
Proof.
  intros Hno. induction l as [|x l IH]; [done|].
  rewrite filter_cons, decide_False by apply Hno. exact IH.
Qed.

Lemma zero_ratio (d : Q) : inject_Z (Z.of_nat 0) / d == 0.
Proof. unfold Qdiv. simpl. apply Qmult_0_l. Qed.

(** A sifted key that equals its reference scores 0. *)
Lemma Ent_measureQBER_same (x : list Z) :
  x ≠ [] → Nat.even (length x) = true →
  ∃ q, EntanglementBasedProtocol.measureQBER x x = Ok (PyFloat q) ∧ q == 0.
Proof.
  intros Hne Hev. destruct (Ent_measureQBER_rate x x eq_refl Hne Hev) as (q & Hq & E).
  exists q. split; [exact Hq|]. rewrite E. unfold right_blocks.
  rewrite filter_all by (apply Forall_forall; done). rewrite length_seq.
  apply float_error_rate_all. by apply blocks_pos.
Qed.

Lemma BB84_measureQBER_same (x : list Z) :
  x ≠ [] → ∃ q, BB84Ideal.measureQBER x x = Ok (PyFloat q) ∧ q == 0.
Proof.
  intros Hne. eexists. split; [by apply BB84_measureQBER_rate|].
  unfold bit_error_rate, mismatches.
  rewrite filter_none by (intros k H; apply H; done). apply zero_ratio.
Qed.

Lemma decode_lookup_pair (s : string) :
  EntanglementBasedProtocol.decode_lookup s
  = [nth 0 (EntanglementBasedProtocol.decode_lookup s) 0%Z;
     nth 1 (EntanglementBasedProtocol.decode_lookup s) 0%Z].
Proof.
  unfold EntanglementBasedProtocol.decode_lookup. by repeat destruct (String.eqb _ _).
Qed.

Lemma Ent_circuits_lookup (n : nat) (bits pairs : list Z) (q : nat) :
  q < n →
  Loops.Ent_circuits n bits pairs !! q
  = Some (mkQC 4 4 (EntanglementBasedProtocol.encoding
                      (nth (2 * q) bits 0%Z) (nth (2 * q + 1) bits 0%Z) (nth q pairs 0%Z))).
Proof.
  intros Hq. unfold Loops.Ent_circuits. change (map ?f ?l) with (f <$> l).
  by rewrite list_lookup_fmap, lookup_seq_lt.
Qed.

Lemma BB84_circuits_lookup (n : nat) (bits bases : list Z) (q : nat) :
  q < n →
  Loops.BB84_circuits n bits bases !! q
  = Some (mkQC 1 1 (BB84Ideal.encoding (nth q bits 0%Z) (nth q bases 0%Z))).
Proof.
  intros Hq. unfold Loops.BB84_circuits. change (map ?f ?l) with (f <$> l).
  by rewrite list_lookup_fmap, lookup_seq_lt.
Qed.

Lemma Ent_circuits_take (n : nat) (bits pairs : list Z) :
  Loops.Ent_circuits n (take (2 * n) bits) pairs = Loops.Ent_circuits n bits pairs.
Proof.
  unfold Loops.Ent_circuits. apply map_ext_in. intros i Hi. apply in_seq in Hi.
  by rewrite !nth_lookup, !lookup_take_lt by lia.
Qed.

Section IdealEntanglement.
Variable backend : nat → QuantumCircuit → string.
Variable rng : nat → Z → nat → list Z.
Variable n : nat.
Hypothesis backend_ideal : ideal backend.
Hypothesis rng_sized : ∀ k high size, length (rng k high size) = size.

(** What the receiver decodes from the sender's circuits, position by
    position. *)
Lemma Ent_decode_sent (bits alicePairs bobPairs : list Z) (h s : list QuantumCircuit) (d : nat) :
  n ≤ length bobPairs →
  ∃ results h',
    EntanglementBasedProtocol.decodeMessage backend n (seq (length h) n) bobPairs
      (mkWorld (h ++ Loops.Ent_circuits n bits alicePairs) s d)
    = Ok (results,
          mkWorld h' (s ++ Loops.measured EntanglementBasedProtocol.measuring
                             (Loops.Ent_circuits n bits alicePairs) bobPairs) d)
    ∧ length h' = length h + n
    ∧ length results = 2 * n
    ∧ ∀ i, i < n → is_bit (nth (2 * i) bits 0%Z) → is_bit (nth (2 * i + 1) bits 0%Z) →
        nth i alicePairs 0%Z = nth i bobPairs 0%Z →
        block_at results i = [nth (2 * i) bits 0%Z; nth (2 * i + 1) bits 0%Z].
Proof.
  intros Hbp. rewrite Ent_decodeMessage_loop.
  set (mem := λ q, backend (length s + q)
                (extend (mkQC 4 4 (EntanglementBasedProtocol.encoding
                           (nth (2 * q) bits 0%Z) (nth (2 * q + 1) bits 0%Z)
                           (nth q alicePairs 0%Z)))
                        (EntanglementBasedProtocol.measuring (nth q bobPairs 0%Z)))).
  destruct (shot_loop_fresh backend bobPairs EntanglementBasedProtocol.measuring Loops.Ent_conv
              (λ q, [nth 0 (EntanglementBasedProtocol.decode_lookup (mem q)) 0%Z;
                     nth 1 (EntanglementBasedProtocol.decode_lookup (mem q)) 0%Z])
              h (Loops.Ent_circuits n bits alicePairs) s d n) as (h' & Hrun & Hlen).
  - unfold Loops.Ent_circuits. by rewrite length_map, length_seq.
  - done.
  - intros q qc Hq.
    assert (Hlt : q < n).
    { apply lookup_lt_Some in Hq. unfold Loops.Ent_circuits in Hq.
      by rewrite length_map, length_seq in Hq. }
    rewrite Ent_circuits_lookup in Hq by done. injection Hq as <-.
    unfold Loops.Ent_conv. by rewrite <- decode_lookup_pair.
  - eexists _, h'. split; [exact Hrun|]. split; [done|].
    split; [by rewrite blocks_length, length_seq|].
    intros i Hi Hb0 Hb1 Hlabel. unfold block_at.
    destruct (blocks_lookup
                (λ q, nth 0 (EntanglementBasedProtocol.decode_lookup (mem q)) 0%Z)
                (λ q, nth 1 (EntanglementBasedProtocol.decode_lookup (mem q)) 0%Z)
                (seq 0 n) i i (lookup_seq_lt 0 n i Hi)) as [E0 E1].
    rewrite (at_lookup _ _ _ E0), (at_lookup _ _ _ E1), <- decode_lookup_pair.
    destruct (Ent_matching_outcome _ _ (nth i alicePairs 0%Z) Hb0 Hb1) as (c & Hc1 & Hc2).
    unfold mem. rewrite <- Hlabel.
    by rewrite (ideal_single backend _ _ _ backend_ideal Hc1).
Qed.

Lemma Ent_runProtocol_ideal_no_eve (w : world) :
  Forall is_bit (rng (draws w) 2 (2 * n)) → n ≠ 0 →
  ∃ QBER w',
    EntanglementBasedProtocol.runProtocol backend rng n false w = Ok (QBER, w')
    ∧ (kept n (rng (S (draws w)) 3 n) (rng (S (S (draws w))) 3 n) = [] → QBER = PyInt 1)
    ∧ (kept n (rng (S (draws w)) 3 n) (rng (S (S (draws w))) 3 n) ≠ [] →
       ∃ q, QBER = PyFloat q ∧ q == 0).
Proof.
  intros Hbits Hn. destruct w as [h s d]. cbn [draws] in *.
  unfold EntanglementBasedProtocol.runProtocol. unfold mbind, M_bind, randint.
  cbn [heap submitted draws].
  rewrite Ent_encodeMessage_spec by (rewrite rng_sized; lia).
  cbn [heap submitted draws mret M_ret].
  destruct (Ent_decode_sent (rng d 2 (2 * n)) (rng (S d) 3 n) (rng (S (S d)) 3 n) h s
              (S (S (S d)))) as (res & h' & Hrun & Hlen & Hres & Hval).
  { by rewrite rng_sized. }
  rewrite Hrun.
  unfold lift. rewrite Ent_measureBER_value by (rewrite ?rng_sized; lia).
  rewrite Ent_discardBits_spec by (rewrite ?rng_sized; lia).
  set (K := kept n (rng (S d) 3 n) (rng (S (S d)) 3 n)).
  assert (Hsame : flat_map (block_at res) K = flat_map (block_at (rng d 2 (2 * n))) K).
  { apply flat_map_ext_elem. intros i Hi.
    pose proof (kept_lt _ _ _ _ Hi) as Hlt.
    apply kept_spec in Hi as [_ Hi].
    rewrite (Hval i Hlt).
    - reflexivity.
    - apply Forall_nth_bit; [done|]. rewrite rng_sized. lia.
    - apply Forall_nth_bit; [done|]. rewrite rng_sized. lia.
    - rewrite !nth_lookup. by rewrite Hi. }
  rewrite Hsame.
  destruct (decide (K = [])) as [HK|HK].
  - rewrite HK. simpl. eexists _, _. split; [reflexivity|]. split; [done|]. by intros [].
  - destruct (Ent_measureQBER_same (flat_map (block_at (rng d 2 (2 * n))) K))
      as (q & Hq & E).
    + destruct K; [done|discriminate].
    + unfold block_at. rewrite blocks_length. apply Nat.even_spec. by eexists.
    + rewrite Hq. eexists _, _. split; [reflexivity|]. split; [done|]. intros _. eauto.
Qed.

(** The eavesdropper who draws the sender's pairings. *)
Lemma Ent_eve_transparent (bits pairs : list Z) (h s : list QuantumCircuit) (d : nat) :
  Forall is_bit bits → 2 * n ≤ length bits → rng d 3 n = pairs →
  ∃ h',
    EntanglementBasedProtocol.eveMeasureAndDecode backend rng n (seq (length h) n)
      (mkWorld (h ++ Loops.Ent_circuits n bits pairs) s d)
    = Ok (seq (length h') n,
          mkWorld (h' ++ Loops.Ent_circuits n bits pairs)
                  (s ++ Loops.measured EntanglementBasedProtocol.measuring
                          (Loops.Ent_circuits n bits pairs) pairs) (S d))
    ∧ length h' = length h + n.
Proof.
  intros Hbits Hlen Hdraw.
  assert (Hp : length pairs = n) by (rewrite <- Hdraw; apply rng_sized).
  unfold EntanglementBasedProtocol.eveMeasureAndDecode, mbind, M_bind, randint.
  cbn [heap submitted draws]. rewrite Hdraw.
  destruct (Ent_round_trip backend n bits pairs (mkWorld h s (S d)) backend_ideal Hbits Hlen
              ltac:(lia)) as [h' Hrun].
  cbn [heap submitted draws] in Hrun. rewrite Hrun.
  assert (Hh' : length h' = length h + n).
  { destruct (Ent_decode_sent bits pairs pairs h s (S d) ltac:(lia))
      as (res & h2 & Hrun2 & Hl2 & _).
    rewrite Hrun in Hrun2. by injection Hrun2 as _ <-. }
  rewrite Ent_encodeMessage_spec by (rewrite ?length_take; lia).
  cbn [heap submitted draws mret M_ret]. rewrite Ent_circuits_take.
  by exists h'.
Qed.

End IdealEntanglement.

(** X13: An eavesdropper who happens to draw the sender's pairings is
    invisible on a noiseless backend: [eveMeasureAndDecode] reads the
    sender's bits and forwards [n] new circuits that hold exactly the
    instructions of the circuits it received, one random draw later. *)
Theorem eavesdropper_with_sender_pairings_forwards_same_circuits
    (backend : nat → QuantumCircuit → string) (rng : nat → Z → nat → list Z)
    (n : nat) (bits pairs : list Z) (h s : list QuantumCircuit) (d : nat) :
  ideal backend →
  (∀ k high size, length (rng k high size) = size) →
  Forall is_bit bits → 2 * n ≤ length bits → rng d 3%Z n = pairs →
  ∃ h',
    EntanglementBasedProtocol.eveMeasureAndDecode backend rng n (seq (length h) n)
      (mkWorld (h ++ Loops.Ent_circuits n bits pairs) s d)
    = Ok (seq (length h') n,
          mkWorld (h' ++ Loops.Ent_circuits n bits pairs)
                  (s ++ Loops.measured EntanglementBasedProtocol.measuring
                          (Loops.Ent_circuits n bits pairs) pairs) (S d))
    ∧ length h' = length h + n.
Proof.
  intros Hideal Hsized. by apply Ent_eve_transparent.
Qed.

Lemma eavesdropper_with_sender_pairings_forwards_same_circuits_witness :
  ∃ h',
    EntanglementBasedProtocol.eveMeasureAndDecode first_outcome (λ _ _ n, replicate n 0%Z) 1
      (seq 0 1) (mkWorld ([] ++ Loops.Ent_circuits 1 [0; 0]%Z [0]%Z) [] 0)
    = Ok (seq (length h') 1,
          mkWorld (h' ++ Loops.Ent_circuits 1 [0; 0]%Z [0]%Z)
                  ([] ++ Loops.measured EntanglementBasedProtocol.measuring
                           (Loops.Ent_circuits 1 [0; 0]%Z [0]%Z) [0]%Z) 1)
    ∧ length h' = 0 + 1.
Proof.
  apply (eavesdropper_with_sender_pairings_forwards_same_circuits
           first_outcome (λ _ _ n, replicate n 0%Z) 1 [0; 0]%Z [0]%Z [] [] 0).
  - exact first_outcome_ideal.
  - intros k high size. apply length_replicate.
  - repeat constructor.
  - simpl. lia.
  - reflexivity.
Defined.

(** X14: A trial of the entanglement protocol without eavesdropper on a
    noiseless backend never reports an error: it returns the sentinel 1
    when no pairing of the receiver agrees with the sender's, and a rate
    equal to 0 otherwise. *)
Theorem noiseless_trial_without_eavesdropper
    (backend : nat → QuantumCircuit → string) (rng : nat → Z → nat → list Z)
    (n : nat) (w : world) :
  ideal backend →
  (∀ k high size, length (rng k high size) = size) →
  Forall is_bit (rng (draws w) 2%Z (2 * n)) → n ≠ 0 →
  ∃ QBER w',
    EntanglementBasedProtocol.runProtocol backend rng n false w = Ok (QBER, w')
    ∧ (kept n (rng (S (draws w)) 3%Z n) (rng (S (S (draws w))) 3%Z n) = [] →
       QBER = PyInt 1)
    ∧ (kept n (rng (S (draws w)) 3%Z n) (rng (S (S (draws w))) 3%Z n) ≠ [] →
       ∃ q, QBER = PyFloat q ∧ q == 0).
Proof.
  intros Hideal Hsized. by apply Ent_runProtocol_ideal_no_eve.
Qed.

Lemma noiseless_trial_without_eavesdropper_witness :
  ∃ QBER w',
    EntanglementBasedProtocol.runProtocol first_outcome (λ _ _ n, replicate n 0%Z) 1 false
      (mkWorld [] [] 0) = Ok (QBER, w')
    ∧ (kept 1 [0]%Z [0]%Z = [] → QBER = PyInt 1)
    ∧ (kept 1 [0]%Z [0]%Z ≠ [] → ∃ q, QBER = PyFloat q ∧ q == 0).
Proof.
  apply (noiseless_trial_without_eavesdropper
           first_outcome (λ _ _ n, replicate n 0%Z) 1 (mkWorld [] [] 0)).
  - exact first_outcome_ideal.
  - intros k high size. apply length_replicate.
  - repeat constructor.
  - discriminate.
Defined.

Lemma filter_length_mono {A} (P Q : A → Prop) `{!∀ x, Decision (P x)} `{!∀ x, Decision (Q x)}
    (l : list A) :
  (∀ x, x ∈ l → P x → Q x) → length (filter P l) ≤ length (filter Q l).
Proof.
  induction l as [|x l IH]; intros Himp; [done|].
  assert (IH' : length (filter P l) ≤ length (filter Q l)).
  { apply IH. intros y Hy. apply Himp. by apply list_elem_of_further. }
  rewrite !filter_cons. destruct (decide (P x)) as [HP|HP].
  - rewrite decide_True by (apply Himp; [apply list_elem_of_here|done]). simpl. lia.
  - destruct (decide (Q x)); simpl; lia.
Qed.

Lemma ratio_mono (a b n : nat) :
  a ≤ b → n ≠ 0 →
  (inject_Z (Z.of_nat a) / inject_Z (Z.of_nat n)
   <= inject_Z (Z.of_nat b) / inject_Z (Z.of_nat n))%Q.
Proof.
  intros Hab Hn.
  assert (Hn' : (0 < inject_Z (Z.of_nat n))%Q).
  { change 0%Q with (inject_Z 0). rewrite <- Zlt_Qlt. lia. }
  apply Qle_shift_div_l; [done|]. unfold Qdiv.
  rewrite <- Qmult_assoc, (Qmult_comm (/ _)), Qmult_inv_r, Qmult_1_r.
  - rewrite <- Zle_Qle. lia.
  - intros E. rewrite E in Hn'. by apply Qlt_irrefl in Hn'.
Qed.

Lemma float_error_rate_mono (c0 c m : nat) :
  c0 ≤ c → c ≤ m → m ≠ 0 → (float_error_rate c m <= float_error_rate c0 m)%Q.
Proof.
  intros H0 Hc Hm. unfold float_error_rate.
  destruct (count_ratio_unit c0 m ltac:(lia) Hm) as [L0 _].
  pose proof (ratio_mono c0 c m H0 Hm) as Hr.
  pose proof (round64_mono _ _ L0 Hr) as Hround.
  remember (round64 (inject_Z (Z.of_nat c0) / inject_Z (Z.of_nat m))) as x eqn:Ex. clear Ex.
  remember (round64 (inject_Z (Z.of_nat c) / inject_Z (Z.of_nat m))) as y eqn:Ey. clear Ey.
  lra.
Qed.

Section IdealBB84.
Variable backend : nat → QuantumCircuit → string.
Variable rng : nat → Z → nat → list Z.
Variable n : nat.
Hypothesis backend_ideal : ideal backend.
Hypothesis rng_sized : ∀ k high size, length (rng k high size) = size.

(** One noiseless shot on an encoded bit: a bit, and the encoded one when
    the bases agree. *)
Lemma BB84_conv_ideal (k : nat) (bit basis basis' : Z) :
  is_bit bit → is_bit basis → is_bit basis' →
  ∃ z, Loops.BB84_conv (backend k (extend (mkQC 1 1 (BB84Ideal.encoding bit basis))
                                          (BB84Ideal.measuring basis')))
       = Ok [z]
     ∧ is_bit z ∧ (basis = basis' → z = bit).
Proof.
  intros Hb Hs Hs'.
  pose proof (BB84_outcomes_cases bit basis basis' Hb Hs Hs') as Hout.
  destruct (decide (basis = basis')) as [E|E].
  - rewrite (ideal_single backend k _ _ backend_ideal Hout).
    destruct Hb as [-> | ->]; [exists 0%Z|exists 1%Z];
      (split; [reflexivity|]); (split; [(by left) || (by right)|done]).
  - pose proof (backend_ideal k (extend (mkQC 1 1 (BB84Ideal.encoding bit basis))
                                        (BB84Ideal.measuring basis'))) as Hin.
    rewrite Hout in Hin. specialize (Hin ltac:(discriminate)).
    apply elem_of_cons in Hin as [-> | Hin].
    + exists 0%Z. split; [reflexivity|]. split; [by left|done].
    + apply list_elem_of_singleton in Hin as ->.
      exists 1%Z. split; [reflexivity|]. split; [by right|done].
Qed.

Lemma BB84_decode_sent (bits bases bases' : list Z) (h s : list QuantumCircuit) (d : nat) :
  Forall is_bit bits → Forall is_bit bases → Forall is_bit bases' →
  n ≤ length bits → n ≤ length bases → n ≤ length bases' →
  ∃ res h',
    BB84Ideal.measure_message backend n (seq (length h) n) bases'
      (mkWorld (h ++ Loops.BB84_circuits n bits bases) s d)
    = Ok (res, mkWorld h' (s ++ Loops.measured BB84Ideal.measuring
                                  (Loops.BB84_circuits n bits bases) bases') d)
    ∧ length h' = length h + n
    ∧ length res = n
    ∧ Forall is_bit res
    ∧ ∀ i, i < n → bases !! i = bases' !! i → res !! i = bits !! i.
Proof.
  intros Hbits Hbases Hbases' Hlb Hls Hls'. rewrite BB84_measure_message_loop.
  set (zf := λ q, match py_int (backend (length s + q)
                     (extend (mkQC 1 1 (BB84Ideal.encoding (nth q bits 0%Z) (nth q bases 0%Z)))
                             (BB84Ideal.measuring (nth q bases' 0%Z)))) with
                  | Ok z => z
                  | Raise _ => 0%Z
                  end).
  assert (Hz : ∀ q, q < n →
            Loops.BB84_conv (backend (length s + q)
              (extend (mkQC 1 1 (BB84Ideal.encoding (nth q bits 0%Z) (nth q bases 0%Z)))
                      (BB84Ideal.measuring (nth q bases' 0%Z)))) = Ok [zf q]
            ∧ is_bit (zf q)
            ∧ (nth q bases 0%Z = nth q bases' 0%Z → zf q = nth q bits 0%Z)).
  { intros q Hq.
    destruct (BB84_conv_ideal (length s + q) (nth q bits 0%Z) (nth q bases 0%Z)
                (nth q bases' 0%Z)) as (z & Hc & Hzb & Hzeq);
      try (apply Forall_nth_bit; [done|lia]).
    assert (zf q = z) as ->.
    { unfold zf. unfold Loops.BB84_conv in Hc.
      destruct (py_int _) as [z'|e]; [|discriminate].
      simpl in Hc. by injection Hc. }
    done. }
  destruct (shot_loop_fresh backend bases' BB84Ideal.measuring Loops.BB84_conv
              (λ q, [zf q]) h (Loops.BB84_circuits n bits bases) s d n)
    as (h' & Hrun & Hlen).
  - unfold Loops.BB84_circuits. by rewrite length_map, length_seq.
  - done.
  - intros q qc Hq.
    assert (Hlt : q < n).
    { apply lookup_lt_Some in Hq. unfold Loops.BB84_circuits in Hq.
      by rewrite length_map, length_seq in Hq. }
    rewrite BB84_circuits_lookup in Hq by done. injection Hq as <-.
    by apply Hz.
  - rewrite flat_map_singleton in Hrun.
    exists (map zf (seq 0 n)), h'. split; [exact Hrun|]. split; [done|].
    split; [by rewrite length_map, length_seq|]. split.
    + apply Forall_forall. intros z Hin.
      change (map ?f ?l) with (f <$> l) in Hin.
      apply list_elem_of_fmap in Hin as (q & -> & Hq). apply elem_of_seq in Hq.
      apply Hz. lia.
    + intros i Hi Heq. change (map ?f ?l) with (f <$> l).
      rewrite list_lookup_fmap, lookup_seq_lt by done. simpl.
      rewrite (nth_lookup_lt bits i) by lia. f_equal. apply Hz; [done|].
      rewrite !nth_lookup. by rewrite Heq.
Qed.

Lemma BB84_runProtocol_ideal (w : world) :
  Forall is_bit (rng (draws w) 2 n) →
  Forall is_bit (rng (S (draws w)) 2 n) →
  Forall is_bit (rng (S (S (draws w))) 2 n) →
  Forall is_bit (rng (S (S (S (draws w)))) 2 n) →
  ∃ QBER w',
    BB84Ideal.runProtocol backend rng n w = Ok (QBER, w')
    ∧ (kept n (rng (S (draws w)) 2 n) (rng (S (S (S (draws w)))) 2 n) = [] →
       QBER = PyStr "null")
    ∧ (kept n (rng (S (draws w)) 2 n) (rng (S (S (S (draws w)))) 2 n) ≠ [] →
       ∃ q, QBER = PyFloat q
          ∧ (0 <= q)%Q
          ∧ (q <= inject_Z (Z.of_nat (length (filter
                      (λ i, rng (S (S (draws w))) 2 n !! i ≠ rng (S (draws w)) 2 n !! i)
                      (kept n (rng (S (draws w)) 2 n) (rng (S (S (S (draws w)))) 2 n)))))
                  / inject_Z (Z.of_nat (length
                      (kept n (rng (S (draws w)) 2 n) (rng (S (S (S (draws w)))) 2 n)))))%Q).
Proof.
  destruct w as [h s d]. cbn [draws]. intros HB HA HE HBo.
  unfold BB84Ideal.runProtocol, BB84Ideal.sifted_key.
  unfold mbind, M_bind, randint.
  cbn [heap submitted draws].
  rewrite BB84_encode_message_spec by (rewrite rng_sized; lia).
  cbn [heap submitted draws mret M_ret].
  destruct (BB84_decode_sent (rng d 2 n) (rng (S d) 2 n) (rng (S (S d)) 2 n) h s
              (S (S (S d)))) as (R1 & h1 & Hrun1 & Hlen1 & Hres1 & Hbit1 & Hval1);
    rewrite ?rng_sized; try done.
  rewrite Hrun1.
  rewrite BB84_encode_message_spec by (rewrite ?rng_sized; lia).
  cbn [heap submitted draws mret M_ret].
  destruct (BB84_decode_sent R1 (rng (S (S d)) 2 n) (rng (S (S (S d))) 2 n) h1
              (s ++ Loops.measured BB84Ideal.measuring
                      (Loops.BB84_circuits n (rng d 2 n) (rng (S d) 2 n))
                      (rng (S (S d)) 2 n)) (S (S (S (S d)))))
    as (R2 & h2 & Hrun2 & Hlen2 & Hres2 & Hbit2 & Hval2);
    rewrite ?rng_sized; try done; try lia.
  rewrite Hrun2. unfold lift.
  rewrite BB84_discardBits_spec by (rewrite ?rng_sized; lia).
  set (K := kept n (rng (S d) 2 n) (rng (S (S (S d))) 2 n)).
  destruct (decide (K = [])) as [HK|HK].
  - rewrite HK. simpl. eexists _, _. split; [reflexivity|]. split; [done|]. by intros [].
  - rewrite BB84_measureQBER_rate by (rewrite ?length_map; by destruct K).
    eexists _, _. split; [reflexivity|]. split; [done|]. intros _.
    eexists. split; [reflexivity|].
    unfold bit_error_rate. rewrite mismatches_map, !length_map.
    assert (HKpos : length K ≠ 0) by (by destruct K).
    split.
    + apply ratio_range; [|lia]. split; [lia|].
      apply inj_le. apply length_filter.
    + apply ratio_mono; [|done].
      apply filter_length_mono. intros i Hi Hdiff Hsame. apply Hdiff.
      pose proof (kept_lt _ _ _ _ Hi) as Hlt.
      apply kept_spec in Hi as [_ Hi].
      unfold at_. rewrite !nth_lookup.
      rewrite Hval2 by (done || congruence). by rewrite Hval1.
Qed.

End IdealBB84.

(** X15: A BB84 trial on a noiseless backend, with every draw a list of
    bits, raises nothing.  It returns "null" when the receiver's bases agree
    nowhere with the sender's; otherwise it returns a rate between 0 and the
    share of the agreeing positions at which the eavesdropper chose a basis
    other than the sender's.  Errors come only from the eavesdropper's wrong
    bases: where she chose all of the sender's bases the rate is 0. *)
Theorem noiseless_BB84_trial_errors_from_wrong_bases
    (backend : nat → QuantumCircuit → string) (rng : nat → Z → nat → list Z)
    (n : nat) (w : world) :
  ideal backend →
  (∀ k high size, length (rng k high size) = size) →
  Forall is_bit (rng (draws w) 2%Z n) →
  Forall is_bit (rng (S (draws w)) 2%Z n) →
  Forall is_bit (rng (S (S (draws w))) 2%Z n) →
  Forall is_bit (rng (S (S (S (draws w)))) 2%Z n) →
  ∃ QBER w',
    BB84Ideal.runProtocol backend rng n w = Ok (QBER, w')
    ∧ (kept n (rng (S (draws w)) 2%Z n) (rng (S (S (S (draws w)))) 2%Z n) = [] →
       QBER = PyStr "null")
    ∧ (kept n (rng (S (draws w)) 2%Z n) (rng (S (S (S (draws w)))) 2%Z n) ≠ [] →
       ∃ q, QBER = PyFloat q
          ∧ (0 <= q)%Q
          ∧ (q <= inject_Z (Z.of_nat (length (filter
                      (λ i, rng (S (S (draws w))) 2%Z n !! i ≠ rng (S (draws w)) 2%Z n !! i)
                      (kept n (rng (S (draws w)) 2%Z n)
                              (rng (S (S (S (draws w)))) 2%Z n)))))
                  / inject_Z (Z.of_nat (length
                      (kept n (rng (S (draws w)) 2%Z n)
                              (rng (S (S (S (draws w)))) 2%Z n)))))%Q
          ∧ (rng (S (S (draws w))) 2%Z n = rng (S (draws w)) 2%Z n → q == 0)).
Proof.
  intros Hideal Hsized HB HA HE HBo.
  destruct (BB84_runProtocol_ideal backend rng n Hideal Hsized w HB HA HE HBo)
    as (QBER & w' & Hrun & Hnull & Hrate).
  exists QBER, w'. split; [exact Hrun|]. split; [exact Hnull|].
  intros HK. destruct (Hrate HK) as (q & -> & H0 & Hle).
  exists q. split; [done|]. split; [done|]. split; [done|].
  intros Heq. rewrite Heq in Hle.
  rewrite filter_none in Hle by (intros i Hi; by apply Hi).
  rewrite zero_ratio in Hle. by apply Qle_antisym.
Qed.

Lemma noiseless_BB84_trial_errors_from_wrong_bases_witness :
  ∃ QBER w',
    BB84Ideal.runProtocol first_outcome (λ _ _ n, replicate n 0%Z) 1 (mkWorld [] [] 0)
    = Ok (QBER, w')
    ∧ (kept 1 [0]%Z [0]%Z = [] → QBER = PyStr "null")
    ∧ (kept 1 [0]%Z [0]%Z ≠ [] →
       ∃ q, QBER = PyFloat q
          ∧ (0 <= q)%Q
          ∧ (q <= inject_Z (Z.of_nat (length (filter
                      (λ i, [0%Z] !! i ≠ [0%Z] !! i) (kept 1 [0]%Z [0]%Z))))
                  / inject_Z (Z.of_nat (length (kept 1 [0]%Z [0]%Z))))%Q
          ∧ ([0%Z] = [0%Z] → q == 0)).
Proof.
  apply (noiseless_BB84_trial_errors_from_wrong_bases
           first_outcome (λ _ _ n, replicate n 0%Z) 1 (mkWorld [] [] 0)).
  - exact first_outcome_ideal.
  - intros k high size. apply length_replicate.
  - repeat constructor.
  - repeat constructor.
  - repeat constructor.
  - repeat constructor.
Defined.

(** ** The drivers *)

Lemma py_add_number (a b : value) (p q : Q) :
  number a = Some p → number b = Some q →
  ∃ c r, py_add a b = Ok c ∧ number c = Some r ∧ r == p + q.
Proof.
  destruct a as [s|x|x], b as [t|y|y]; simpl; intros [= <-] [= <-]; try done.
  - eexists _, _. split; [reflexivity|]. split; [reflexivity|]. by rewrite inject_Z_plus.
  - eexists _, _. split; [reflexivity|]. split; reflexivity.
  - eexists _, _. split; [reflexivity|]. split; reflexivity.
  - eexists _, _. split; [reflexivity|]. split; reflexivity.
Qed.

Lemma py_truediv_number (a : value) (p : Q) (n : Z) :
  number a = Some p → n ≠ 0%Z → py_truediv a n = Ok (PyFloat (p / inject_Z n)).
Proof.
  intros Ha Hn. destruct a as [s|x|x]; simpl in *; [done| |];
    injection Ha as <-; by destruct (Z.eqb_spec n 0).
Qed.

Lemma py_truediv_zero (a : value) (p : Q) :
  number a = Some p → py_truediv a 0 = Raise ZeroDivisionError.
Proof. by destruct a. Qed.

Lemma sum_values_snoc (l : list value) (v : value) :
  sum_values (l ++ [v]) = (sum_values l + default 0 (number v))%Q.
Proof. unfold sum_values. by rewrite fold_left_app. Qed.

Lemma sum_values_range (l : list value) :
  Forall unit_value l →
  (0 <= sum_values l)%Q ∧ (sum_values l <= inject_Z (Z.of_nat (length l)))%Q.
Proof.
  induction l as [|v l IH] using rev_ind; intros Hl.
  - split; discriminate.
  - apply Forall_app in Hl as [Hl Hv]. apply Forall_cons in Hv as [(q & Hq & H0 & H1) _].
    destruct (IH Hl) as [I0 I1].
    rewrite sum_values_snoc, Hq, length_app. simpl length. simpl default.
    replace (Z.of_nat (length l + 1)) with (Z.of_nat (length l) + 1)%Z by lia.
    rewrite inject_Z_plus. change (inject_Z 1) with 1%Q. split; lra.
Qed.

(** The mean of [n] numbers between 0 and 1. *)
Lemma mean_range (p : Q) (l : list value) :
  Forall unit_value l → l ≠ [] → p == sum_values l →
  (0 <= p / inject_Z (Z.of_nat (length l)))%Q ∧ (p / inject_Z (Z.of_nat (length l)) <= 1)%Q.
Proof.
  intros Hl Hne Hp. destruct (sum_values_range l Hl) as [H0 H1].
  assert (Hn : (0 < inject_Z (Z.of_nat (length l)))%Q).
  { change 0%Q with (inject_Z 0). rewrite <- Zlt_Qlt. destruct l; [done|simpl; lia]. }
  split.
  - apply Qle_shift_div_l; [done|]. lra.
  - apply Qle_shift_div_r; [done|]. lra.
Qed.

Section EntanglementDriver.
Variable backend : nat → QuantumCircuit → string.
Variable rng : nat → Z → nat → list Z.
Variable n : nat.
Hypothesis rng_sized : ∀ k high size, length (rng k high size) = size.
Hypothesis n_pos : n ≠ 0.

Lemma Ent_score_tail_unit (results aliceBits alicePairs bobPairs : list Z) (w : world) :
  length results = 2 * n → length aliceBits = 2 * n →
  length alicePairs = n → length bobPairs = n →
  ∃ QBER,
    (BER ← lift (EntanglementBasedProtocol.measureBER n aliceBits results);
     '(newResults, newAliceBits) ←
        lift (EntanglementBasedProtocol.discardBits n results aliceBits alicePairs bobPairs);
     QBER ← lift (EntanglementBasedProtocol.measureQBER newResults newAliceBits);
     mret QBER) w = Ok (QBER, w)
    ∧ unit_value QBER.
Proof.
  intros Hr Ha Hap Hbp.
  destruct (Ent_sift_and_score n results aliceBits alicePairs bobPairs)
    as (BER & [nr na] & QBER & HB & HK & HQ); try lia.
  exists QBER. split.
  - unfold mbind, M_bind, lift. rewrite HB, HK. simpl in HQ. by rewrite HQ.
  - by apply (Ent_measureQBER_unit nr na).
Qed.

(** A trial of the configured size returns a number between 0 and 1 and
    draws three times, four with the eavesdropper. *)
Lemma Ent_runProtocol_unit (evePresent : bool) (w : world) :
  ∃ QBER w',
    EntanglementBasedProtocol.runProtocol backend rng n evePresent w = Ok (QBER, w')
    ∧ unit_value QBER
    ∧ draws w' = (if evePresent then 4 else 3) + draws w.
Proof.
  destruct w as [h s d]. destruct evePresent;
    unfold EntanglementBasedProtocol.runProtocol;
    unfold mbind, M_bind, randint;
    cbn [heap submitted draws];
    rewrite Ent_encodeMessage_spec by (rewrite rng_sized; lia);
    cbn [heap submitted draws mret M_ret].
  - unfold EntanglementBasedProtocol.eveMeasureAndDecode.
    unfold mbind, M_bind, randint.
    cbn [heap submitted draws].
    destruct (Ent_decode_fresh backend n (rng (S (S d)) 3 n) h
                (Loops.Ent_circuits n (rng d 2 (2 * n)) (rng (S d) 3 n)) s (S (S (S d))))
      as (eveResults & h1 & Hrun1 & Hlen1 & Hres1).
    { apply Ent_circuits_length. }
    { by rewrite rng_sized. }
    rewrite Hrun1.
    rewrite Ent_encodeMessage_spec by (rewrite ?rng_sized; lia).
    cbn [heap submitted draws mret M_ret].
    destruct (Ent_decode_fresh backend n (rng (S (S (S d))) 3 n) h1
                (Loops.Ent_circuits n eveResults (rng (S (S d)) 3 n))
                (s ++ Loops.measured EntanglementBasedProtocol.measuring
                        (Loops.Ent_circuits n (rng d 2 (2 * n)) (rng (S d) 3 n))
                        (rng (S (S d)) 3 n)) (S (S (S (S d)))))
      as (res & h2 & Hrun2 & Hlen2 & Hres2).
    { apply Ent_circuits_length. }
    { by rewrite rng_sized. }
    rewrite Hrun2.
    destruct (Ent_score_tail_unit res (rng d 2 (2 * n)) (rng (S d) 3 n)
                (rng (S (S (S d))) 3 n)
                (mkWorld h2 ((s ++ Loops.measured EntanglementBasedProtocol.measuring
                                     (Loops.Ent_circuits n (rng d 2 (2 * n)) (rng (S d) 3 n))
                                     (rng (S (S d)) 3 n))
                             ++ Loops.measured EntanglementBasedProtocol.measuring
                                  (Loops.Ent_circuits n eveResults (rng (S (S d)) 3 n))
                                  (rng (S (S (S d))) 3 n)) (S (S (S (S d))))))
      as (QBER & HQ & Hunit); rewrite ?rng_sized; try done.
    eexists QBER, _. split; [exact HQ|]. split; [done|reflexivity].
  - destruct (Ent_decode_fresh backend n (rng (S (S d)) 3 n) h
                (Loops.Ent_circuits n (rng d 2 (2 * n)) (rng (S d) 3 n)) s (S (S (S d))))
      as (res & h' & Hrun & Hlen & Hres).
    { apply Ent_circuits_length. }
    { by rewrite rng_sized. }
    rewrite Hrun.
    destruct (Ent_score_tail_unit res (rng d 2 (2 * n)) (rng (S d) 3 n) (rng (S (S d)) 3 n)
                (mkWorld h' (s ++ Loops.measured EntanglementBasedProtocol.measuring
                                   (Loops.Ent_circuits n (rng d 2 (2 * n)) (rng (S d) 3 n))
                                   (rng (S (S d)) 3 n)) (S (S (S d)))))
      as (QBER & HQ & Hunit); rewrite ?rng_sized; try done.
    eexists QBER, _. split; [exact HQ|]. split; [done|reflexivity].
Qed.

Variable numTests : nat.
Variable evePresent : bool.

(** The loop of the entanglement driver keeps the file equal to the list,
    the values between 0 and 1 and the running sum equal to their sum. *)
Lemma Ent_tests_run (k lo : nat) (d : BB84Ideal.driver) (w : world) (p : Q) :
  BB84Ideal.f d = BB84Ideal.allQBER d →
  Forall unit_value (BB84Ideal.allQBER d) →
  number (BB84Ideal.avgQBER d) = Some p → p == sum_values (BB84Ideal.allQBER d) →
  ∃ d' w' p',
    for_from lo k (Ent_test backend rng n evePresent) d w = Ok (d', w')
    ∧ BB84Ideal.f d' = BB84Ideal.allQBER d'
    ∧ Forall unit_value (BB84Ideal.allQBER d')
    ∧ number (BB84Ideal.avgQBER d') = Some p' ∧ p' == sum_values (BB84Ideal.allQBER d')
    ∧ length (BB84Ideal.allQBER d') = length (BB84Ideal.allQBER d) + k
    ∧ draws w' = k * (if evePresent then 4 else 3) + draws w.
Proof.
  revert lo d w p. induction k as [|k IH]; intros lo d w p Hf Hall Hp Hsum.
  - exists d, w, p. simpl. repeat split; try done; lia.
  - rewrite for_from_M_S. unfold Ent_test at 1. unfold mbind at 1 2, M_bind at 1 2.
    destruct (Ent_runProtocol_unit evePresent w) as (QBER & w1 & Hrun & Hunit & Hdraws).
    rewrite Hrun. destruct Hunit as (q & Hq & Hq0 & Hq1).
    destruct (py_add_number (BB84Ideal.avgQBER d) QBER p q Hp Hq) as (c & r & Hadd & Hc & Hr).
    unfold lift. rewrite Hadd. cbn [mret M_ret].
    destruct (IH (S lo)
                (BB84Ideal.mkDriver c (BB84Ideal.allQBER d ++ [QBER]) (BB84Ideal.f d ++ [QBER]))
                w1 r) as (d' & w' & p' & Hloop & Hf' & Hall' & Hp' & Hsum' & Hlen' & Hdraws').
    + simpl. by rewrite Hf.
    + simpl. apply Forall_app. split; [done|]. constructor; [|constructor]. by exists q.
    + exact Hc.
    + simpl. rewrite sum_values_snoc, Hq. simpl. by rewrite Hr, Hsum.
    + exists d', w', p'. split; [exact Hloop|]. repeat split; try done.
      * rewrite Hlen'. simpl. rewrite length_app. simpl. lia.
      * rewrite Hdraws', Hdraws. lia.
Qed.

Lemma Ent_main_runs (w : world) :
  numTests ≠ 0 →
  ∃ d w' q,
    Ent_main backend rng numTests n evePresent w = Ok (d, w')
    ∧ BB84Ideal.f d = BB84Ideal.allQBER d
    ∧ length (BB84Ideal.allQBER d) = numTests
    ∧ Forall unit_value (BB84Ideal.allQBER d)
    ∧ BB84Ideal.avgQBER d = PyFloat q
    ∧ q == sum_values (BB84Ideal.allQBER d) / inject_Z (Z.of_nat numTests)
    ∧ (0 <= q)%Q ∧ (q <= 1)%Q
    ∧ draws w' = numTests * (if evePresent then 4 else 3) + draws w.
Proof.
  intros Hn. unfold Ent_main, for_range.
  destruct (Ent_tests_run numTests 0 (BB84Ideal.mkDriver (PyInt 0) [] []) w 0)
    as (d & w' & p & Hloop & Hf & Hall & Hp & Hsum & Hlen & Hdraws); try done.
  unfold mbind at 1 2, M_bind at 1 2. rewrite Hloop. unfold lift.
  rewrite (py_truediv_number _ p) by (done || lia). cbn [mret M_ret].
  simpl in Hlen.
  eexists _, w', _. split; [reflexivity|]. cbn [BB84Ideal.f BB84Ideal.allQBER BB84Ideal.avgQBER].
  split; [done|]. split; [done|]. split; [done|]. split; [reflexivity|].
  split; [by rewrite Hsum|].
  rewrite <- Hlen. split; [|split]; try apply mean_range; try done.
  - intros E. rewrite E in Hlen. simpl in Hlen. lia.
  - intros E. rewrite E in Hlen. simpl in Hlen. lia.
  - by rewrite Hlen.
Qed.

End EntanglementDriver.

Lemma Ent_runProtocol_no_pairings (backend : nat → QuantumCircuit → string)
    (rng : nat → Z → nat → list Z) (evePresent : bool) (w : world) :
  EntanglementBasedProtocol.runProtocol backend rng 0 evePresent w = Raise ZeroDivisionError.
Proof. by destruct evePresent. Qed.



Lemma loggable_unit (backend : nat → QuantumCircuit → string) (rng : nat → Z → nat → list Z)
    (numBits : nat) (v : value) :
  BB84Ideal.loggable backend rng numBits v → unit_value v.
Proof.
  intros (_ & _ & (w & w' & nr & na & _ & Hne & Hq)).
  destruct (BB84_measureQBER_unit nr na v Hne Hq) as (q & -> & H0 & H1).
  by exists q.
Qed.

Lemma accumulate_number (l : list value) (a : value) :
  Forall unit_value l → BB84Ideal.accumulate l = Ok a →
  ∃ p, number a = Some p ∧ p == sum_values l.
Proof.
  revert a. induction l as [|v l IH] using rev_ind; intros a Hl.
  - intros [= <-]. by exists 0%Q.
  - apply Forall_app in Hl as [Hl Hv]. apply Forall_cons in Hv as [(q & Hq & _) _].
    rewrite accumulate_snoc.
    destruct (BB84Ideal.accumulate l) as [total|e] eqn:Hacc; [|done].
    destruct (IH total Hl eq_refl) as (p & Hp & Hsum).
    destruct (py_add_number total v p q Hp Hq) as (c & r & Hadd & Hc & Hr).
    simpl. rewrite Hadd. intros [= <-]. exists r. split; [done|].
    rewrite sum_values_snoc, Hq. simpl. by rewrite Hr, Hsum.
Qed.



(** ** The entanglement trial with the eavesdropper, on a noiseless backend *)

Lemma Ent_decodeMessage_bits (backend : nat → QuantumCircuit → string) (n : nat)
    (message : list nat) (pairs res : list Z) (w w' : world) :
  EntanglementBasedProtocol.decodeMessage backend n message pairs w = Ok (res, w') →
  Forall is_bit res.
Proof.
  rewrite Ent_decodeMessage_loop. intros Hrun.
  apply (shot_loop_values backend message pairs _ Loops.Ent_conv is_bit 2) in Hrun;
    [by destruct Hrun| |constructor].
  intros k qc zs [= <-]. unfold EntanglementBasedProtocol.decode_lookup.
  repeat destruct (String.eqb _ _); (split; [|done]); repeat constructor;
    (by left) || (by right).
Qed.

Section IdealEntanglementEve.
Variable backend : nat → QuantumCircuit → string.
Variable rng : nat → Z → nat → list Z.
Variable n : nat.
Hypothesis backend_ideal : ideal backend.
Hypothesis rng_sized : ∀ k high size, length (rng k high size) = size.

Lemma Ent_runProtocol_ideal_eve (w : world) :
  Forall is_bit (rng (draws w) 2 (2 * n)) → n ≠ 0 →
  ∃ QBER w',
    EntanglementBasedProtocol.runProtocol backend rng n true w = Ok (QBER, w')
    ∧ (kept n (rng (S (draws w)) 3 n) (rng (S (S (S (draws w)))) 3 n) = [] →
       QBER = PyInt 1)
    ∧ (kept n (rng (S (draws w)) 3 n) (rng (S (S (S (draws w)))) 3 n) ≠ [] →
       ∃ q right,
         QBER = PyFloat q
         ∧ q == float_error_rate right
                  (length (kept n (rng (S (draws w)) 3 n) (rng (S (S (S (draws w)))) 3 n)))
         ∧ length (filter
                     (λ i, rng (S (S (draws w))) 3 n !! i = rng (S (draws w)) 3 n !! i)
                     (kept n (rng (S (draws w)) 3 n) (rng (S (S (S (draws w)))) 3 n)))
           ≤ right
         ∧ right ≤ length (kept n (rng (S (draws w)) 3 n) (rng (S (S (S (draws w)))) 3 n))).
Proof.
  intros Hbits Hn. destruct w as [h s d]. cbn [draws] in *.
  unfold EntanglementBasedProtocol.runProtocol. unfold mbind, M_bind, randint.
  cbn [heap submitted draws].
  rewrite Ent_encodeMessage_spec by (rewrite rng_sized; lia).
  cbn [heap submitted draws mret M_ret].
  unfold EntanglementBasedProtocol.eveMeasureAndDecode.
  unfold mbind, M_bind, randint.
  cbn [heap submitted draws].
  destruct (Ent_decode_sent backend n backend_ideal (rng d 2 (2 * n)) (rng (S d) 3 n)
              (rng (S (S d)) 3 n) h s (S (S (S d))))
    as (R1 & h1 & Hrun1 & Hlen1 & Hres1 & Hval1).
  { by rewrite rng_sized. }
  pose proof (Ent_decodeMessage_bits _ _ _ _ _ _ _ Hrun1) as Hbit1.
  rewrite Hrun1.
  rewrite Ent_encodeMessage_spec by (rewrite ?rng_sized; lia).
  cbn [heap submitted draws mret M_ret].
  destruct (Ent_decode_sent backend n backend_ideal R1 (rng (S (S d)) 3 n)
              (rng (S (S (S d))) 3 n) h1
              (s ++ Loops.measured EntanglementBasedProtocol.measuring
                      (Loops.Ent_circuits n (rng d 2 (2 * n)) (rng (S d) 3 n))
                      (rng (S (S d)) 3 n)) (S (S (S (S d)))))
    as (R2 & h2 & Hrun2 & Hlen2 & Hres2 & Hval2).
  { by rewrite rng_sized. }
  rewrite Hrun2.
  unfold lift. rewrite Ent_measureBER_value by (rewrite ?rng_sized; lia).
  rewrite Ent_discardBits_spec by (rewrite ?rng_sized; lia).
  destruct (decide (kept n (rng (S d) 3 n) (rng (S (S (S d))) 3 n) = [])) as [HK|HK].
  { rewrite HK. simpl. eexists _, _. split; [reflexivity|]. split; [done|]. by intros []. }
  destruct (Ent_score_kept n R2 (rng d 2 (2 * n)) (rng (S d) 3 n) (rng (S (S (S d))) 3 n))
    as (q & Hq & E & Hc); rewrite ?rng_sized; try lia; try done.
  rewrite Hq. eexists _, _. split; [reflexivity|]. split; [done|]. intros _.
  exists q, (length (agreeing_blocks R2 (rng d 2 (2 * n))
                       (kept n (rng (S d) 3 n) (rng (S (S (S d))) 3 n)))).
  split; [done|]. split; [exact E|]. split; [|apply length_filter].
  unfold agreeing_blocks. apply filter_length_mono. intros i Hi Hsame.
  pose proof (kept_lt _ _ _ _ Hi) as Hlt.
  apply kept_spec in Hi as [_ Hi].
  assert (H1 : block_at R1 i
               = [nth (2 * i) (rng d 2 (2 * n)) 0%Z; nth (2 * i + 1) (rng d 2 (2 * n)) 0%Z]).
  { apply Hval1; [done| | |].
    - apply Forall_nth_bit; [done|]. rewrite rng_sized. lia.
    - apply Forall_nth_bit; [done|]. rewrite rng_sized. lia.
    - rewrite !nth_lookup. by rewrite Hsame. }
  assert (H2 : block_at R2 i = [nth (2 * i) R1 0%Z; nth (2 * i + 1) R1 0%Z]).
  { apply Hval2; [done| | |].
    - apply Forall_nth_bit; [done|]. lia.
    - apply Forall_nth_bit; [done|]. lia.
    - rewrite !nth_lookup. by rewrite Hsame, Hi. }
  unfold block_at, at_ in H1, H2. rewrite H1 in H2.
  rewrite !(nth_lookup_lt R2), !(nth_lookup_lt (rng d 2 (2 * n)))
    by (rewrite ?rng_sized; lia).
  split; congruence.
Qed.

End IdealEntanglementEve.

(** X18: a trial of the entanglement protocol with the eavesdropper, on a
    noiseless backend, raises nothing.  It returns the sentinel 1 when the
    receiver's pairings agree nowhere with the sender's.  Otherwise it
    returns one minus the float quotient of the number of kept blocks the
    receiver decoded as sent by the number of kept blocks, and every kept
    block at which the eavesdropper drew the sender's pairing is decoded as
    sent: the rate is at most what the script computes when all the other
    kept blocks are wrong, and it is 0 when she drew all of the sender's
    pairings. *)
Theorem noiseless_trial_errors_from_wrong_pairings
    (backend : nat → QuantumCircuit → string) (rng : nat → Z → nat → list Z)
    (n : nat) (w : world) :
  ideal backend →
  (∀ k high size, length (rng k high size) = size) →
  Forall is_bit (rng (draws w) 2%Z (2 * n)) → n ≠ 0 →
  ∃ QBER w',
    EntanglementBasedProtocol.runProtocol backend rng n true w = Ok (QBER, w')
    ∧ (kept n (rng (S (draws w)) 3%Z n) (rng (S (S (S (draws w)))) 3%Z n) = [] →
       QBER = PyInt 1)
    ∧ (kept n (rng (S (draws w)) 3%Z n) (rng (S (S (S (draws w)))) 3%Z n) ≠ [] →
       ∃ q right,
         QBER = PyFloat q
         ∧ q == float_error_rate right
                  (length (kept n (rng (S (draws w)) 3%Z n)
                                  (rng (S (S (S (draws w)))) 3%Z n)))
         ∧ length (filter
                     (λ i, rng (S (S (draws w))) 3%Z n !! i = rng (S (draws w)) 3%Z n !! i)
                     (kept n (rng (S (draws w)) 3%Z n) (rng (S (S (S (draws w)))) 3%Z n)))
           ≤ right
         ∧ right ≤ length (kept n (rng (S (draws w)) 3%Z n)
                                  (rng (S (S (S (draws w)))) 3%Z n))
         ∧ (0 <= q)%Q
         ∧ (q <= float_error_rate
                   (length (filter
                      (λ i, rng (S (S (draws w))) 3%Z n !! i = rng (S (draws w)) 3%Z n !! i)
                      (kept n (rng (S (draws w)) 3%Z n)
                              (rng (S (S (S (draws w)))) 3%Z n))))
                   (length (kept n (rng (S (draws w)) 3%Z n)
                                   (rng (S (S (S (draws w)))) 3%Z n))))%Q
         ∧ (rng (S (S (draws w))) 3%Z n = rng (S (draws w)) 3%Z n → q == 0)).
Proof.
  intros Hideal Hsized Hbits Hn.
  destruct (Ent_runProtocol_ideal_eve backend rng n Hideal Hsized w Hbits Hn)
    as (QBER & w' & Hrun & Hone & Hrate).
  exists QBER, w'. split; [exact Hrun|]. split; [exact Hone|].
  intros HK. destruct (Hrate HK) as (q & c & -> & E & Hlo & Hhi).
  assert (Hpos : length (kept n (rng (S (draws w)) 3%Z n)
                           (rng (S (S (S (draws w)))) 3%Z n)) ≠ 0).
  { by destruct (kept n _ _). }
  exists q, c. split; [done|]. split; [exact E|]. split; [exact Hlo|]. split; [exact Hhi|].
  split; [|split].
  - rewrite E. by apply float_error_rate_unit.
  - rewrite E. by apply float_error_rate_mono.
  - intros Heq. rewrite Heq in Hlo.
    rewrite filter_all in Hlo by (apply Forall_forall; done).
    rewrite E. replace c with (length (kept n (rng (S (draws w)) 3%Z n)
                                         (rng (S (S (S (draws w)))) 3%Z n))) by lia.
    by apply float_error_rate_all.
Qed.

(** Three pairings, all of the receiver's equal to the sender's, the
    eavesdropper's third one different. *)
Lemma noiseless_trial_errors_from_wrong_pairings_witness :
  ∃ QBER w',
    EntanglementBasedProtocol.runProtocol first_outcome
      (λ k _ n, take n ((if Nat.eqb k 2 then [0; 0; 1] else [])%Z ++ replicate n 0%Z)) 3 true
      (mkWorld [] [] 0) = Ok (QBER, w')
    ∧ (kept 3 [0; 0; 0]%Z [0; 0; 0]%Z = [] → QBER = PyInt 1)
    ∧ (kept 3 [0; 0; 0]%Z [0; 0; 0]%Z ≠ [] →
       ∃ q right,
         QBER = PyFloat q
         ∧ q == float_error_rate right (length (kept 3 [0; 0; 0]%Z [0; 0; 0]%Z))
         ∧ length (filter (λ i, [0; 0; 1]%Z !! i = [0; 0; 0]%Z !! i)
                     (kept 3 [0; 0; 0]%Z [0; 0; 0]%Z)) ≤ right
         ∧ right ≤ length (kept 3 [0; 0; 0]%Z [0; 0; 0]%Z)
         ∧ (0 <= q)%Q
         ∧ (q <= float_error_rate
                   (length (filter (λ i, [0; 0; 1]%Z !! i = [0; 0; 0]%Z !! i)
                              (kept 3 [0; 0; 0]%Z [0; 0; 0]%Z)))
                   (length (kept 3 [0; 0; 0]%Z [0; 0; 0]%Z)))%Q
         ∧ ([0; 0; 1]%Z = [0; 0; 0]%Z → q == 0)).
Proof.
  apply (noiseless_trial_errors_from_wrong_pairings first_outcome
           (λ k _ n, take n ((if Nat.eqb k 2 then [0; 0; 1] else [])%Z ++ replicate n 0%Z))
           3 (mkWorld [] [] 0)).
  - exact first_outcome_ideal.
  - intros k high size. rewrite length_take, length_app, length_replicate. lia.
  - repeat constructor.
  - discriminate.
Defined.
